(** * STLite: the mergeable priority queue, the vector and its iterators

    A shallow embedding of [sjtu::priority_queue] (a pointer-linked
    self-adjusting heap), of [sjtu::vector] (a buffer of slots that are
    constructed, moved from and destroyed in place) and of the index
    arithmetic of [sjtu::vector<T>::iterator], followed by the properties
    of the specification that they satisfy or violate, and by further
    properties of the code.

    Heap nodes live in an explicit store indexed by addresses, queue
    objects in a second store indexed by object identities, so that the
    in-place relinking done by the recursive merge, and what is left behind
    when the comparison throws half-way, are visible in the model.

    Conventions of the model:
    - a call is a function from the state to an outcome and the state it
      leaves; the state left by a call that throws is the state the caller
      sees in its handler;
    - the ordering predicate is a function of its two arguments that returns
      a boolean or throws; copying a value of the element type does not
      throw;
    - [new] gives an address that is not in use, and throws
      [std::bad_alloc] when [SIZE_MAX] nodes are live;
    - a recursive function takes a recursion budget; the outcome
      [OutOfFuel] is an outcome of the model only, and every statement that
      a call returns gives a budget that suffices;
    - a vector is passed as a value with its buffer; the address [malloc]
      returns is an argument of the calls that allocate, null when the
      allocation fails; copying, moving and destroying an element do not
      throw;
    - a [const T &] or [const size_t &] argument of a call that changes the
      vector is a reference, to an object outside the buffer or to a slot
      of the buffer, and is read where the code reads it. *)

From stdpp Require Import gmap list sets.
From Stdlib Require Import ZArith Lia.

Local Open Scope Z_scope.

Set Default Proof Using "Type".
Set Warnings "-clear-no-such-hyp".

(** ** Outcomes of a call *)

(** The exceptions of [exceptions.hpp] that the two containers raise, the
    failure of the ordering predicate, and the failure of [operator new]. *)
Inductive exn : Type :=
| container_is_empty
| invalid_iterator
| compare_exn
| bad_alloc.

(** A call returns, throws, runs into undefined behaviour (a null or
    dangling pointer is dereferenced), or exhausts the recursion budget of
    the model. *)
Inductive result (A : Type) : Type :=
| Ok (a : A)
| Throw (e : exn)
| Undefined
| OutOfFuel.
Arguments Ok {A} a.
Arguments Throw {A} e.
Arguments Undefined {A}.
Arguments OutOfFuel {A}.

(** ** [size_t] *)

Definition SIZE_MAX : Z := 2 ^ 64 - 1.

(** Unsigned 64-bit wrap-around of [++size_], [--size_] and [size_ += n]. *)
Definition wrap (z : Z) : Z := z mod 2 ^ 64.

(** ** Memory *)

Abbreviation addr := positive (only parsing).
Abbreviation qid := positive (only parsing).

(** A pointer to a heap node; [None] is [nullptr]. *)
Abbreviation ptr := (option positive) (only parsing).

Section memory.

Context {T : Type}.

Record heapnode : Type := Heapnode { val : T; ls : ptr; rs : ptr }.

Record priority_queue : Type := PQ { root_ : ptr; size_ : Z }.

(** The state: the live heap nodes, the live queue objects, and a ghost
    counter of the invocations of the ordering predicate. *)
Record world : Type := World {
  store : gmap positive heapnode;
  queues : gmap positive priority_queue;
  cmp_calls : nat
}.

Definition set_store (f : gmap positive heapnode → gmap positive heapnode)
    (w : world) : world :=
  World (f (store w)) (queues w) (cmp_calls w).

Definition set_queues
    (f : gmap positive priority_queue → gmap positive priority_queue)
    (w : world) : world :=
  World (store w) (f (queues w)) (cmp_calls w).

(** ** A state and exception monad *)

Definition M (A : Type) : Type := world → result A * world.

Definition ret {A} (a : A) : M A := λ w, (Ok a, w).

Definition bind {A B} (m : M A) (f : A → M B) : M B :=
  λ w, match m w with
       | (Ok a, w') => f a w'
       | (Throw e, w') => (Throw e, w')
       | (Undefined, w') => (Undefined, w')
       | (OutOfFuel, w') => (OutOfFuel, w')
       end.

Definition throw {A} (e : exn) : M A := λ w, (Throw e, w).

Definition undefined {A} : M A := λ w, (Undefined, w).

Definition out_of_fuel {A} : M A := λ w, (OutOfFuel, w).

(** [try { body } catch (...) { handler; throw; }] *)
Definition try_catch_rethrow {A} (body : M A) (handler : M unit) : M A :=
  λ w, match body w with
       | (Throw e, w') => bind handler (λ _, throw e) w'
       | other => other
       end.

End memory.

Arguments heapnode : clear implicits.
Arguments world : clear implicits.
Arguments M : clear implicits.

Notation "'let*' x ':=' m 'in' f" := (bind m (λ x, f))
  (at level 10, x name, m at level 100, f at level 200).
Notation "'do' m 'in' f" := (bind m (λ _, f))
  (at level 10, m at level 100, f at level 200).

Section priority_queue.

Context {T : Type}.

(** [Compare()(a, b)]: [Some r] when the predicate returns [r], [None] when
    it throws. *)
Variable Compare : T → T → option bool.

Implicit Types (w : world T) (s : gmap positive (heapnode T)).

(** ** Primitive accesses *)

(** [*x] for a node pointer. *)
Definition load (x : ptr) : M T (heapnode T) :=
  λ w, match x with
       | None => (Undefined, w)
       | Some a => match store w !! a with
                   | Some n => (Ok n, w)
                   | None => (Undefined, w)
                   end
       end.

(** [x->ls = p] *)
Definition store_ls (x : ptr) (p : ptr) : M T unit :=
  let* n := load x in
  match x with
  | Some a => λ w, (Ok tt, set_store <[a := Heapnode (val n) p (rs n)]> w)
  | None => undefined
  end.

(** [x->rs = p] *)
Definition store_rs (x : ptr) (p : ptr) : M T unit :=
  let* n := load x in
  match x with
  | Some a => λ w, (Ok tt, set_store <[a := Heapnode (val n) (ls n) p]> w)
  | None => undefined
  end.

(** [new heapnode(v)]: a fresh address holding a node without children, or
    [std::bad_alloc] when no further object fits in the address space.
    The copy of [v] into the node is taken not to throw: what a throwing
    copy constructor of the element type does to [push], to the copy
    constructor and to the assignment is outside the model. *)
Definition new_heapnode (v : T) : M T ptr :=
  λ w, if decide (Z.of_nat (size (store w)) < SIZE_MAX)
       then let a := fresh (dom (store w)) in
            (Ok (Some a), set_store <[a := Heapnode v None None]> w)
       else (Throw bad_alloc, w).

(** [delete x] for a non-null [x]. *)
Definition delete_node (x : ptr) : M T unit :=
  let* _ := load x in
  match x with
  | Some a => λ w, (Ok tt, set_store (delete a) w)
  | None => undefined
  end.

(** One invocation of the ordering predicate. *)
Definition compare (a b : T) : M T bool :=
  λ w, let w' := World (store w) (queues w) (S (cmp_calls w)) in
       match Compare a b with
       | Some r => (Ok r, w')
       | None => (Throw compare_exn, w')
       end.

(** Field accesses on a queue object. *)
Definition get_queue (q : qid) : M T priority_queue :=
  λ w, match queues w !! q with
       | Some pq => (Ok pq, w)
       | None => (Undefined, w)
       end.

Definition set_root (q : qid) (p : ptr) : M T unit :=
  let* pq := get_queue q in
  λ w, (Ok tt, set_queues <[q := PQ p (size_ pq)]> w).

Definition set_size (q : qid) (n : Z) : M T unit :=
  let* pq := get_queue q in
  λ w, (Ok tt, set_queues <[q := PQ (root_ pq) n]> w).

(** ** The private helpers of the class *)

(** [heapnode *merge(heapnode *x, heapnode *y)] *)
Fixpoint merge (fuel : nat) (x y : ptr) : M T ptr :=
  match fuel with
  | O => out_of_fuel
  | S fuel =>
    if x is None then ret y else
    if y is None then ret x else
    let* nx := load x in
    let* ny := load y in
    let* c := compare (val nx) (val ny) in
    let '(x, y) := if c : bool then (y, x) else (x, y) in
    let* nx := load x in
    let tmp := rs nx in
    do store_rs x (ls nx) in
    let* r := merge fuel tmp y in
    do store_ls x r in
    ret x
  end.

(** [void clear(heapnode *x)] *)
Fixpoint clear (fuel : nat) (x : ptr) : M T unit :=
  match fuel with
  | O => out_of_fuel
  | S fuel =>
    if x is None then ret tt else
    let* nx := load x in
    do clear fuel (ls nx) in
    let* nx := load x in
    do clear fuel (rs nx) in
    delete_node x
  end.

(** [heapnode *clonenode(heapnode *other)] *)
Fixpoint clonenode (fuel : nat) (other : ptr) : M T ptr :=
  match fuel with
  | O => out_of_fuel
  | S fuel =>
    if other is None then ret None else
    let* no := load other in
    let* rt := new_heapnode (val no) in
    let* no := load other in
    let* l := clonenode fuel (ls no) in
    do store_ls rt l in
    let* no := load other in
    let* r := clonenode fuel (rs no) in
    do store_rs rt r in
    ret rt
  end.

(** ** The public interface *)

(** A member function takes the identity of [this] first.  The source
    overloads [merge]; here [merge] is the private function on nodes and
    [pq_merge] the public one on queues.  [size] and [empty] are [pq_size]
    and [pq_empty], the constructors, the destructor and the assignment
    [pq_ctor], [pq_copy_ctor], [pq_dtor] and [pq_assign]. *)

(** [priority_queue()]: a new queue object; its identity is returned. *)
Definition pq_ctor : M T qid :=
  λ w, let q := fresh (dom (queues w)) in
       (Ok q, set_queues <[q := PQ None 0]> w).

(** [priority_queue(const priority_queue &other)] *)
Definition pq_copy_ctor (fuel : nat) (other : qid) : M T qid :=
  let* o := get_queue other in
  let* r := clonenode fuel (root_ o) in
  let* o := get_queue other in
  λ w, let q := fresh (dom (queues w)) in
       (Ok q, set_queues <[q := PQ r (size_ o)]> w).

(** [~priority_queue()] *)
Definition pq_dtor (fuel : nat) (this : qid) : M T unit :=
  let* t := get_queue this in
  do clear fuel (root_ t) in
  λ w, (Ok tt, set_queues (delete this) w).

(** [priority_queue &operator=(const priority_queue &other)] *)
Definition pq_assign (fuel : nat) (this other : qid) : M T unit :=
  if decide (this = other) then ret tt else
  let* t := get_queue this in
  do clear fuel (root_ t) in
  let* o := get_queue other in
  let* r := clonenode fuel (root_ o) in
  do set_root this r in
  let* o := get_queue other in
  set_size this (size_ o).

(** [const T &top() const] *)
Definition top (this : qid) : M T T :=
  let* t := get_queue this in
  if decide (size_ t = 0) then throw container_is_empty else
  let* n := load (root_ t) in
  ret (val n).

(** [void push(const T &e)] *)
Definition push (fuel : nat) (this : qid) (e : T) : M T unit :=
  let* newnode := new_heapnode e in
  try_catch_rethrow
    (let* t := get_queue this in
     let* r := merge fuel (root_ t) newnode in
     do set_root this r in
     let* t := get_queue this in
     set_size this (wrap (size_ t + 1)))
    (delete_node newnode).

(** [void pop()] *)
Definition pop (fuel : nat) (this : qid) : M T unit :=
  let* t := get_queue this in
  if decide (size_ t = 0) then throw container_is_empty else
  let tmp := root_ t in
  let* n := load (root_ t) in
  let* r := merge fuel (ls n) (rs n) in
  do set_root this r in
  do delete_node tmp in
  let* t := get_queue this in
  set_size this (wrap (size_ t - 1)).

(** [size_t size() const] *)
Definition pq_size (this : qid) : M T Z :=
  let* t := get_queue this in
  ret (size_ t).

(** [bool empty() const] *)
Definition pq_empty (this : qid) : M T bool :=
  let* t := get_queue this in
  ret (bool_decide (size_ t = 0)).

(** [void merge(priority_queue &other)] *)
Definition pq_merge (fuel : nat) (this other : qid) : M T unit :=
  if decide (this = other) then ret tt else
  try_catch_rethrow
    (let* t := get_queue this in
     let* o := get_queue other in
     let* nt := load (root_ t) in
     let* no := load (root_ o) in
     do compare (val nt) (val no) in
     let* r := merge fuel (root_ t) (root_ o) in
     do set_root this r in
     let* t := get_queue this in
     let* o := get_queue other in
     do set_size this (wrap (size_ t + size_ o)) in
     do set_root other None in
     set_size other 0)
    (ret tt).

(** ** The tree a pointer stands for *)

(** The shape of a linked structure: every node with its address. *)
Inductive shape : Type :=
| Leaf
| Node (a : addr) (v : T) (l r : shape).

Definition root (t : shape) : ptr :=
  match t with
  | Leaf => None
  | Node a _ _ _ => Some a
  end.

Fixpoint addrs (t : shape) : list positive :=
  match t with
  | Leaf => []
  | Node a _ l r => a :: addrs l ++ addrs r
  end.

Fixpoint elems (t : shape) : list T :=
  match t with
  | Leaf => []
  | Node _ v l r => v :: elems l ++ elems r
  end.

Definition tsize (t : shape) : nat := length (addrs t).

(** [repr s t]: the store [s] holds the nodes of [t], linked as in [t]. *)
Fixpoint repr (s : gmap positive (heapnode T)) (t : shape) : Prop :=
  match t with
  | Leaf => True
  | Node a v l r =>
    s !! a = Some (Heapnode v (root l) (root r)) ∧ repr s l ∧ repr s r
  end.

Definition map_result {A B} (f : A → B) (r : result A) : result B :=
  match r with
  | Ok a => Ok (f a)
  | Throw e => Throw e
  | Undefined => Undefined
  | OutOfFuel => OutOfFuel
  end.

(** What [merge] computes, read on shapes: the winner keeps its address and
    value, its old left child moves to the right, and the merge of its old
    right child with the loser becomes the left child. *)
Fixpoint merge_shape (fuel : nat) (tx ty : shape) : result shape :=
  match fuel with
  | O => OutOfFuel
  | S fuel =>
    match tx, ty with
    | Leaf, _ => Ok ty
    | _, Leaf => Ok tx
    | Node ax vx lx rx, Node ay vy ly ry =>
      match Compare vx vy with
      | None => Throw compare_exn
      | Some true =>
        map_result (λ t, Node ay vy t ly) (merge_shape fuel ry tx)
      | Some false =>
        map_result (λ t, Node ax vx t lx) (merge_shape fuel rx ty)
      end
    end
  end.

(** ** Well-formed states *)

(** Every edge from a node to a present child satisfies [R parent child]. *)
Definition related_to_root (R : T → T → Prop) (v : T) (t : shape) : Prop :=
  match t with
  | Leaf => True
  | Node _ v' _ _ => R v v'
  end.

Fixpoint edges (R : T → T → Prop) (t : shape) : Prop :=
  match t with
  | Leaf => True
  | Node _ v l r =>
    related_to_root R v l ∧ related_to_root R v r ∧ edges R l ∧ edges R r
  end.

(** The heap order the code maintains, for an ordering [lt]: no node is
    below one of its children, [lt parent child = false]. *)
Definition heap_ordered (lt : T → T → bool) : shape → Prop :=
  edges (λ parent child, lt parent child = false).

(** The queue object [q] owns the tree [t]. *)
Definition queue_shape w (q : qid) (t : shape) : Prop :=
  ∃ pq, queues w !! q = Some pq ∧ root_ pq = root t
        ∧ repr (store w) t ∧ NoDup (addrs t).

(** [sh] lists the tree of every queue object: each has [size_] nodes, and
    no node belongs to two queues. *)
Definition owned_by w (sh : gmap positive shape) : Prop :=
  (∀ q, sh !! q = None ↔ queues w !! q = None)
  ∧ (∀ q t, sh !! q = Some t →
       ∃ pq, queues w !! q = Some pq ∧ root_ pq = root t
             ∧ repr (store w) t ∧ NoDup (addrs t)
             ∧ size_ pq = Z.of_nat (tsize t))
  ∧ (∀ q1 q2 t1 t2, q1 ≠ q2 → sh !! q1 = Some t1 → sh !! q2 = Some t2 →
       addrs t1 ## addrs t2).

(** Every queue owns a tree of its own, and the live nodes fit in the
    address space. *)
Definition wf_world w : Prop :=
  (∃ sh, owned_by w sh) ∧ Z.of_nat (size (store w)) ≤ SIZE_MAX.

(** Two shapes with the same values at the same places. *)
Fixpoint same_values (t t' : shape) : Prop :=
  match t, t' with
  | Leaf, Leaf => True
  | Node _ v l r, Node _ v' l' r' =>
    v = v' ∧ same_values l l' ∧ same_values r r'
  | _, _ => False
  end.

(** The addresses reached from [x] within [fuel] links. *)
Fixpoint reachable_nodes (fuel : nat) s (x : ptr) : gset positive :=
  match fuel with
  | O => ∅
  | S fuel =>
    match x with
    | None => ∅
    | Some a =>
      match s !! a with
      | None => ∅
      | Some n =>
        {[a]} ∪ reachable_nodes fuel s (ls n) ∪ reachable_nodes fuel s (rs n)
      end
    end
  end.

(** The same, with a property [P] of the tree of every queue. *)
Definition world_inv (P : shape → Prop) w : Prop :=
  (∃ sh, owned_by w sh ∧ ∀ q t, sh !! q = Some t → P t)
  ∧ Z.of_nat (size (store w)) ≤ SIZE_MAX.

(** ** Relations between the states before and after a call *)

(** Whatever its outcome, [m] relates the state it starts from to the state
    it leaves behind by [P]. *)
Definition preserves {A} (P : world T → world T → Prop) (m : M T A) : Prop :=
  ∀ w r w', m w = (r, w') → P w w'.

(** [m] throws no exception outside [E]. *)
Definition throws_only {A} (E : exn → Prop) (m : M T A) : Prop :=
  ∀ w e w', m w = (Throw e, w') → E e.

(** The queue objects are untouched, and so is the value held at every
    address; links may differ. *)
Definition same_vals w w' : Prop :=
  queues w' = queues w
  ∧ ∀ a, val <$> (store w' !! a) = val <$> (store w !! a).

(** Nothing but the ghost counter differs. *)
Definition same_state w w' : Prop :=
  store w' = store w ∧ queues w' = queues w.

(** ** Sequences of calls *)

Inductive op : Type :=
| OpCtor
| OpCopyCtor (other : qid)
| OpDtor (this : qid)
| OpAssign (this other : qid)
| OpTop (this : qid)
| OpPush (this : qid) (e : T)
| OpPop (this : qid)
| OpSize (this : qid)
| OpEmpty (this : qid)
| OpMerge (this other : qid).

Definition call (fuel : nat) (o : op) : M T unit :=
  match o with
  | OpCtor => do pq_ctor in ret tt
  | OpCopyCtor other => do pq_copy_ctor fuel other in ret tt
  | OpDtor this => pq_dtor fuel this
  | OpAssign this other => pq_assign fuel this other
  | OpTop this => do top this in ret tt
  | OpPush this e => push fuel this e
  | OpPop this => pop fuel this
  | OpSize this => do pq_size this in ret tt
  | OpEmpty this => do pq_empty this in ret tt
  | OpMerge this other => pq_merge fuel this other
  end.

(** The queue objects a call may modify. *)
Definition writes (o : op) : list positive :=
  match o with
  | OpCtor | OpCopyCtor _ | OpTop _ | OpSize _ | OpEmpty _ => []
  | OpDtor this | OpPush this _ | OpPop this => [this]
  | OpAssign this other => if decide (this = other) then [] else [this]
  | OpMerge this other => if decide (this = other) then [] else [this; other]
  end.

Definition initial_world : world T := World ∅ ∅ 0.

(** The states reached from the initial one by calls that all return. *)
Inductive reachable : world T → Prop :=
| reachable_init : reachable initial_world
| reachable_call w fuel o w' :
    reachable w → call fuel o w = (Ok tt, w') → reachable w'.

(** Several calls in a row; the first one that does not return ends the
    run. *)
Fixpoint calls (fuel : nat) (os : list op) : M T unit :=
  match os with
  | [] => ret tt
  | o :: os => do call fuel o in calls fuel os
  end.

(** The loop of a caller that empties a queue,
    [while (!q.empty()) { out.push_back(q.top()); q.pop(); }], with a
    budget [n] for its iterations; the values read, in order. *)
Fixpoint drain (fuel n : nat) (this : qid) : M T (list T) :=
  match n with
  | O => out_of_fuel
  | S n =>
    let* b := pq_empty this in
    if b : bool then ret [] else
    let* v := top this in
    do pop fuel this in
    let* vs := drain fuel n this in
    ret (v :: vs)
  end.

(** No element of a list is below a later one, for an ordering [lt]. *)
Fixpoint descending (lt : T → T → bool) (xs : list T) : Prop :=
  match xs with
  | [] => True
  | x :: xs => (∀ y, y ∈ xs → lt x y = false) ∧ descending lt xs
  end.

End priority_queue.

(** ** Two orderings on [Z], and some states *)

(** [std::less<int>]: never throws. *)
Definition less (a b : Z) : option bool := Some (a <? b).

(** An ordering that agrees with [<] where it returns, and throws when 3 is
    compared with 7. *)
Definition less_throwing (a b : Z) : option bool :=
  if (a =? 3) && (b =? 7) then None else Some (a <? b).

(** Queue 1 holds 10, 5 and 3 after three pushes, queue 2 holds 7. *)
Definition two_queues : world Z :=
  snd (calls less_throwing 8
         [OpCtor; OpCtor; OpPush 1 10; OpPush 1 3; OpPush 1 5; OpPush 2 7]
         initial_world).

(** Queue 1 holds 5, queue 2 is empty. *)
Definition one_and_empty : world Z :=
  snd (calls less 8 [OpCtor; OpCtor; OpPush 1 5] initial_world).

(** Queue 1 after pushing 1 and then 2. *)
Definition pushed_1_2 : world Z :=
  snd (calls less 8 [OpCtor; OpPush 1 1; OpPush 1 2] initial_world).

(** Queue 1 after pushing 10, 7 and 3: the root holds 10, its left child 3
    and its right child 7, and the predicate has not been applied to 3 and
    7. *)
Definition three_seven : world Z :=
  snd (calls less_throwing 8 [OpCtor; OpPush 1 10; OpPush 1 7; OpPush 1 3]
         initial_world).

(** ** [vector<T>::iterator] and [vector<T>::const_iterator] *)

Definition INT_MIN : Z := - 2 ^ 31.
Definition INT_MAX : Z := 2 ^ 31 - 1.

(** [a + b] on [int]; signed overflow is undefined behaviour. *)
Definition int_add (a b : Z) : result Z :=
  if decide (INT_MIN ≤ a + b ≤ INT_MAX) then Ok (a + b) else Undefined.

(** [a - b] on [int]. *)
Definition int_sub (a b : Z) : result Z :=
  if decide (INT_MIN ≤ a - b ≤ INT_MAX) then Ok (a - b) else Undefined.

Module iterator.

(** [ptr_] is the address of the buffer, [idx_] the position in it. *)
Record t : Type := mk { ptr_ : Z; idx_ : Z }.

(** [iterator operator+(const int &n) const] *)
Definition plus (it : t) (n : Z) : result t :=
  map_result (mk (ptr_ it)) (int_add (idx_ it) n).

(** [iterator operator-(const int &n) const] *)
Definition minus (it : t) (n : Z) : result t :=
  map_result (mk (ptr_ it)) (int_add (idx_ it) n).

(** [int operator-(const iterator &rhs) const] *)
Definition distance (it rhs : t) : result Z :=
  if decide (ptr_ it ≠ ptr_ rhs) then Throw invalid_iterator
  else int_sub (idx_ it) (idx_ rhs).

(** [iterator &operator+=(const int &n)] *)
Definition plus_assign (it : t) (n : Z) : result t :=
  map_result (mk (ptr_ it)) (int_add (idx_ it) n).

(** [iterator &operator-=(const int &n)] *)
Definition minus_assign (it : t) (n : Z) : result t :=
  map_result (mk (ptr_ it)) (int_sub (idx_ it) n).

(** [T &operator*() const], on a buffer [data] that starts at [base]. *)
Definition deref {T} (base : Z) (data : list T) (it : t) : result T :=
  if decide (ptr_ it = base ∧ 0 ≤ idx_ it) then
    match data !! Z.to_nat (idx_ it) with
    | Some x => Ok x
    | None => Undefined
    end
  else Undefined.

(** [iterator begin()] of a vector whose buffer starts at [base]. *)
Definition begin (base : Z) : t := mk base 0.

(** [iterator operator++(int)]: the value returned and the new [*this]. *)
Definition post_incr (it : t) : result (t * t) :=
  map_result (λ i, (it, mk (ptr_ it) i)) (int_add (idx_ it) 1).

(** [iterator &operator++()] *)
Definition pre_incr (it : t) : result t :=
  map_result (mk (ptr_ it)) (int_add (idx_ it) 1).

(** [iterator operator--(int)]: the value returned and the new [*this]. *)
Definition post_decr (it : t) : result (t * t) :=
  map_result (λ i, (it, mk (ptr_ it) i)) (int_sub (idx_ it) 1).

(** [iterator &operator--()] *)
Definition pre_decr (it : t) : result t :=
  map_result (mk (ptr_ it)) (int_sub (idx_ it) 1).

(** [bool operator==(const iterator &rhs) const] *)
Definition eq (it rhs : t) : bool :=
  bool_decide (ptr_ it = ptr_ rhs) && bool_decide (idx_ it = idx_ rhs).

(** [bool operator!=(const iterator &rhs) const] *)
Definition neq (it rhs : t) : bool := negb (eq it rhs).

End iterator.

Module const_iterator.

Record t : Type := mk { ptr_ : Z; idx_ : Z }.

(** [const_iterator operator+(const int &n) const] *)
Definition plus (it : t) (n : Z) : result t :=
  map_result (mk (ptr_ it)) (int_add (idx_ it) n).

(** [const_iterator operator-(const int &n) const] *)
Definition minus (it : t) (n : Z) : result t :=
  map_result (mk (ptr_ it)) (int_add (idx_ it) n).

(** [const_iterator &operator-=(const int &n)] *)
Definition minus_assign (it : t) (n : Z) : result t :=
  map_result (mk (ptr_ it)) (int_sub (idx_ it) n).

(** [const T &operator*() const], on a buffer [data] that starts at
    [base]. *)
Definition deref {T} (base : Z) (data : list T) (it : t) : result T :=
  if decide (ptr_ it = base ∧ 0 ≤ idx_ it) then
    match data !! Z.to_nat (idx_ it) with
    | Some x => Ok x
    | None => Undefined
    end
  else Undefined.

(** [const_iterator cbegin() const] *)
Definition cbegin (base : Z) : t := mk base 0.

(** [int operator-(const const_iterator &rhs) const] *)
Definition distance (it rhs : t) : result Z :=
  if decide (ptr_ it ≠ ptr_ rhs) then Throw invalid_iterator
  else int_sub (idx_ it) (idx_ rhs).

(** [const_iterator &operator+=(const int &n)] *)
Definition plus_assign (it : t) (n : Z) : result t :=
  map_result (mk (ptr_ it)) (int_add (idx_ it) n).

(** [const_iterator operator++(int)]: the value returned and the new
    [*this]. *)
Definition post_incr (it : t) : result (t * t) :=
  map_result (λ i, (it, mk (ptr_ it) i)) (int_add (idx_ it) 1).

(** [const_iterator &operator++()] *)
Definition pre_incr (it : t) : result t :=
  map_result (mk (ptr_ it)) (int_add (idx_ it) 1).

(** [const_iterator operator--(int)]: the value returned and the new
    [*this]. *)
Definition post_decr (it : t) : result (t * t) :=
  map_result (λ i, (it, mk (ptr_ it) i)) (int_sub (idx_ it) 1).

(** [const_iterator &operator--()] *)
Definition pre_decr (it : t) : result t :=
  map_result (mk (ptr_ it)) (int_sub (idx_ it) 1).

(** [bool operator==(const const_iterator &rhs) const] *)
Definition eq (it rhs : t) : bool :=
  bool_decide (ptr_ it = ptr_ rhs) && bool_decide (idx_ it = idx_ rhs).

(** [bool operator==(const iterator &rhs) const] *)
Definition eq_iterator (it : t) (rhs : iterator.t) : bool :=
  bool_decide (ptr_ it = iterator.ptr_ rhs)
  && bool_decide (idx_ it = iterator.idx_ rhs).

(** [bool operator!=(const const_iterator &rhs) const] *)
Definition neq (it rhs : t) : bool := negb (eq it rhs).

(** [bool operator!=(const iterator &rhs) const] *)
Definition neq_iterator (it : t) (rhs : iterator.t) : bool :=
  negb (eq_iterator it rhs).

End const_iterator.

(** ** [vector<T>] *)

(** What a member function of [vector] throws: [index_out_of_bound], or one
    of the exceptions of [exn]. *)
Inductive vector_exn : Type :=
| index_out_of_bound
| other_exn (e : exn).

(** A member function of [vector] returns, throws, or runs into undefined
    behaviour (storage outside the buffer, storage that holds no object, or
    storage that has been freed is used).  Its loops run at most [size_]
    times, so a call needs no budget. *)
Inductive outcome (A : Type) : Type :=
| Return (a : A)
| Raise (e : vector_exn)
| UB.
Arguments Return {A} a.
Arguments Raise {A} e.
Arguments UB {A}.

Definition obind {A B} (m : outcome A) (f : A → outcome B) : outcome B :=
  match m with
  | Return a => f a
  | Raise e => Raise e
  | UB => UB
  end.

Notation "'let!' x ':=' m 'in' f" := (obind m (λ x, f))
  (at level 10, x name, m at level 100, f at level 200).
Notation "'let!' ' x ':=' m 'in' f" := (obind m (λ x, f))
  (at level 10, x strict pattern, m at level 100, f at level 200).

(** The outcome of an iterator operation, as an outcome of the vector. *)
Definition lift {A} (r : result A) : outcome A :=
  match r with
  | Ok a => Return a
  | Throw e => Raise (other_exn e)
  | Undefined | OutOfFuel => UB
  end.

(** Conversion of a [size_t] to [int] (modular), as in
    [iterator(data_, size_)]. *)
Definition to_int (z : Z) : Z := (z + 2 ^ 31) mod 2 ^ 32 - 2 ^ 31.

(** [for (size_t i = from; i < from + n; i++) body], the state threaded
    through. *)
Fixpoint for_up {S} (n : nat) (i : Z) (body : Z → S → outcome S) (s : S)
  : outcome S :=
  match n with
  | O => Return s
  | S n => let! s := body i s in for_up n (i + 1) body s
  end.

(** [for (size_t i = from; cond; i--) body]: the condition is evaluated
    before every iteration, on the state the iteration before has left.
    [n] bounds the number of evaluations; it is never exhausted when it
    exceeds [from] and the condition is false at 0. *)
Fixpoint for_down_while {S} (n : nat) (i : Z) (cond : Z → S → outcome bool)
  (body : Z → S → outcome S) (s : S) : outcome S :=
  match n with
  | O => UB
  | S n =>
    let! c := cond i s in
    if c : bool then
      let! s := body i s in for_down_while n (i - 1) cond body s
    else Return s
  end.

(** A [const T &] argument of a member function: an object outside the
    buffer of the vector, given by its value, or the object in slot [i] of
    the buffer that the vector has when the call is made. *)
Inductive cref (T : Type) : Type :=
| Outside (x : T)
| Inside (i : Z).
Arguments Outside {T} x.
Arguments Inside {T} i.

(** A [const size_t &] argument: a [size_t] outside the buffer, or, when the
    elements of the vector are themselves [size_t]s, read by [as_size_t],
    the element in slot [i] of the buffer that the vector has when the call
    is made. *)
Inductive index_ref (T : Type) : Type :=
| Index (n : Z)
| IndexInside (i : Z) (as_size_t : T → Z).
Arguments Index {T} n.
Arguments IndexInside {T} i as_size_t.

Module vector.

Section vector.

Context {T : Type}.

(** The value that the move constructor of [T] leaves in its source. *)
Variable moved : T → T.

(** The buffer [data_] points to is a list of slots: [None] is raw storage,
    [Some x] an object of value [x].  [data_] is the address of the buffer,
    [0] for [nullptr]. *)
Record t : Type :=
  mk { size_ : Z; capacity_ : Z; data_ : Z; buffer : list (option T) }.

(** [malloc(n * sizeof(T))] that returned [p]: no storage when it failed
    ([p] is null).  The multiplication is taken not to wrap. *)
Definition malloc (n : Z) (p : Z) : list (option T) :=
  if decide (p = 0) then [] else replicate (Z.to_nat n) None.

(** [data[i]], the object in slot [i]. *)
Definition element (data : list (option T)) (i : Z) : outcome T :=
  if decide (0 ≤ i) then
    match data !! Z.to_nat i with
    | Some (Some x) => Return x
    | _ => UB
    end
  else UB.

(** [data[i].~T()] *)
Definition destroy (data : list (option T)) (i : Z)
  : outcome (list (option T)) :=
  let! _ := element data i in
  Return (<[Z.to_nat i := None]> data).

(** [new (data + i) T(x)] *)
Definition construct (data : list (option T)) (i : Z) (x : T)
  : outcome (list (option T)) :=
  if decide (0 ≤ i < Z.of_nat (length data)) then
    Return (<[Z.to_nat i := Some x]> data)
  else UB.

(** [std::move(data[i])] given to the move constructor of [T]: the value
    taken, and the buffer with the moved-from object. *)
Definition move_out (data : list (option T)) (i : Z)
  : outcome (T * list (option T)) :=
  let! x := element data i in
  Return (x, <[Z.to_nat i := Some (moved x)]> data).

(** The value of a [const T &] argument, read when the buffer is [data];
    [freed] tells that the buffer the vector had when the call was made has
    been freed since. *)
Definition read (data : list (option T)) (freed : bool) (r : cref T)
  : outcome T :=
  match r with
  | Outside x => Return x
  | Inside i => if freed then UB else element data i
  end.

(** The value of a [const size_t &] argument, likewise. *)
Definition read_index (data : list (option T)) (freed : bool)
  (r : index_ref T) : outcome Z :=
  match r with
  | Index n => Return n
  | IndexInside i as_size_t =>
    if freed then UB
    else let! x := element data i in Return (wrap (as_size_t x))
  end.

(** [vector()] *)
Definition ctor : t := mk 0 0 0 [].

(** [for (size_t i = 0; i < size_; i++) data_[i].~T();] *)
Definition destroy_all (v : t) : outcome (list (option T)) :=
  for_up (Z.to_nat (size_ v)) 0 (λ i data, destroy data i) (buffer v).

(** [~vector()] *)
Definition dtor (v : t) : outcome unit :=
  let! _ := destroy_all v in
  Return tt.

(** [vector &operator=(const vector &other)] when [this != &other]; [p] is
    what [malloc] returns. *)
Definition assign_other (this other : t) (p : Z) : outcome t :=
  let! _ := destroy_all this in
  let! data :=
    for_up (Z.to_nat (size_ other)) 0
      (λ i data, let! x := element (buffer other) i in construct data i x)
      (malloc (capacity_ other) p) in
  Return (mk (size_ other) (capacity_ other) p data).

(** [vector &operator=(const vector &other)], the two objects given with
    their addresses. *)
Definition assign (this_addr other_addr : Z) (this other : t) (p : Z)
  : outcome t :=
  if decide (this_addr = other_addr) then Return this
  else assign_other this other p.

(** [vector(const vector &other)]: the assignment to a new object. *)
Definition copy_ctor (other : t) (p : Z) : outcome t :=
  assign_other ctor other p.

(** [T &at(const size_t &pos)] and [const T &at(const size_t &pos) const];
    [pos] is read before anything is written, so it is taken by value. *)
Definition at_ (v : t) (pos : Z) : outcome T :=
  if decide (pos >= size_ v) then Raise index_out_of_bound
  else element (buffer v) pos.

(** [T &operator[](const size_t &pos)] and its [const] overload *)
Definition subscript (v : t) (pos : Z) : outcome T :=
  if decide (pos >= size_ v) then Raise index_out_of_bound
  else element (buffer v) pos.

(** [const T &front() const] *)
Definition front (v : t) : outcome T :=
  if decide (size_ v = 0) then Raise (other_exn container_is_empty)
  else element (buffer v) 0.

(** [const T &back() const] *)
Definition back (v : t) : outcome T :=
  if decide (size_ v = 0) then Raise (other_exn container_is_empty)
  else element (buffer v) (wrap (size_ v - 1)).

(** [iterator begin()] *)
Definition begin (v : t) : iterator.t := iterator.mk (data_ v) 0.

(** [const_iterator cbegin() const] *)
Definition cbegin (v : t) : const_iterator.t := const_iterator.mk (data_ v) 0.

(** [iterator end()] *)
Definition end_ (v : t) : iterator.t :=
  iterator.mk (data_ v) (to_int (size_ v)).

(** [const_iterator cend() const] *)
Definition cend (v : t) : const_iterator.t :=
  const_iterator.mk (data_ v) (to_int (size_ v)).

(** [*it] for an iterator into the buffer of [v]. *)
Definition deref (v : t) (it : iterator.t) : outcome T :=
  if decide (iterator.ptr_ it = data_ v) then
    element (buffer v) (iterator.idx_ it)
  else UB.

(** [bool empty() const] *)
Definition empty (v : t) : bool := bool_decide (size_ v = 0).

(** [size_t size() const] *)
Definition size (v : t) : Z := size_ v.

(** [size_t capacity() const] *)
Definition capacity (v : t) : Z := capacity_ v.

(** [void clear()] *)
Definition clear (v : t) : outcome t :=
  let! data := destroy_all v in
  Return (mk 0 (capacity_ v) (data_ v) data).

(** [void reserve(const size_t new_capacity)]; [p] is what [malloc]
    returns. *)
Definition reserve (v : t) (new_capacity : Z) (p : Z) : outcome t :=
  let! '(_, new_data) :=
    for_up (Z.to_nat (size_ v)) 0
      (λ i '(data, new_data),
         let! '(x, data) := move_out data i in
         let! new_data := construct new_data i x in
         let! data := destroy data i in
         Return (data, new_data))
      (buffer v, malloc new_capacity p) in
  Return (mk (size_ v) new_capacity p new_data).

(** [if (size_ == capacity_) reserve(capacity_ ? capacity_ * 2 : 1);] *)
Definition grow (v : t) (p : Z) : outcome t :=
  if decide (size_ v = capacity_ v) then
    reserve v (if decide (capacity_ v ≠ 0) then wrap (capacity_ v * 2) else 1)
      p
  else Return v.

(** [iterator insert(const size_t &ind, const T &value)]: [ind] is read
    where the code reads it (lines 393, 400, 403 and 404), and [value]
    after the elements have been shifted (line 403). *)
Definition insert (v : t) (ind : index_ref T) (value : cref T) (p : Z)
  : outcome (iterator.t * t) :=
  let! n := read_index (buffer v) false ind in
  if decide (n > size_ v) then Raise index_out_of_bound
  else
    let freed := bool_decide (size_ v = capacity_ v) in
    let! v := grow v p in
    let size' := wrap (size_ v + 1) in
    let! data :=
      for_down_while (S (Z.to_nat (wrap (size' - 1)))) (wrap (size' - 1))
        (λ i data,
           let! n := read_index data freed ind in
           Return (bool_decide (i > n)))
        (λ i data,
           let! '(x, data) := move_out data (i - 1) in
           construct data i x)
        (buffer v) in
    let! n := read_index data freed ind in
    let! x := read data freed value in
    let! data := construct data n x in
    let! n := read_index data freed ind in
    Return (iterator.mk (data_ v) (to_int n),
            mk size' (capacity_ v) (data_ v) data).

(** [iterator erase(const size_t &ind)]: [ind] is read where the code reads
    it (lines 420, 423, 425 and 428); the slot destroyed at line 423 holds
    no object when line 425 reads an index that refers to it. *)
Definition erase (v : t) (ind : index_ref T) : outcome (iterator.t * t) :=
  let! n := read_index (buffer v) false ind in
  if decide (n >= size_ v) then Raise index_out_of_bound
  else
    let! n := read_index (buffer v) false ind in
    let! data := destroy (buffer v) n in
    let size' := wrap (size_ v - 1) in
    let! n := read_index data false ind in
    let! data :=
      for_up (Z.to_nat (size' - n)) n
        (λ i data,
           let! '(x, data) := move_out data (i + 1) in
           construct data i x)
        data in
    let! n := read_index data false ind in
    Return (iterator.mk (data_ v) (to_int n),
            mk size' (capacity_ v) (data_ v) data).

(** [iterator insert(iterator pos, const T &value)]; the distance, an
    [int], is converted to a temporary [size_t]. *)
Definition insert_at (v : t) (pos : iterator.t) (value : cref T) (p : Z)
  : outcome (iterator.t * t) :=
  let! d := lift (iterator.distance pos (begin v)) in
  insert v (Index (wrap d)) value p.

(** [iterator erase(iterator pos)] *)
Definition erase_at (v : t) (pos : iterator.t) : outcome (iterator.t * t) :=
  let! d := lift (iterator.distance pos (begin v)) in
  erase v (Index (wrap d)).

(** [void push_back(const T &value)]: [value] is read after [reserve]
    (line 437). *)
Definition push_back (v : t) (value : cref T) (p : Z) : outcome t :=
  let freed := bool_decide (size_ v = capacity_ v) in
  let! v := grow v p in
  let! x := read (buffer v) freed value in
  let! data := construct (buffer v) (size_ v) x in
  Return (mk (wrap (size_ v + 1)) (capacity_ v) (data_ v) data).

(** [void pop_back()] *)
Definition pop_back (v : t) : outcome t :=
  if decide (size_ v = 0) then Raise (other_exn container_is_empty)
  else
    let size' := wrap (size_ v - 1) in
    let! data := destroy (buffer v) size' in
    Return (mk size' (capacity_ v) (data_ v) data).

(** The objects of [v], in order, when its first [size_] slots hold
    objects. *)
Definition contents (v : t) : list T :=
  omap id (take (Z.to_nat (size_ v)) (buffer v)).

(** [v] holds the values [xs]: its first [size_] slots hold them, and the
    buffer has [capacity_] slots. *)
Definition holds (v : t) (xs : list T) : Prop :=
  size_ v = Z.of_nat (length xs)
  ∧ size_ v ≤ capacity_ v ≤ SIZE_MAX
  ∧ Z.of_nat (length (buffer v)) = capacity_ v
  ∧ ∀ (i : nat) x, xs !! i = Some x → buffer v !! i = Some (Some x).

End vector.

Arguments t : clear implicits.

End vector.

(** The calls that change a vector, and a run of them from left to right;
    a run stops at the first call that does not return. *)
Inductive vector_call (T : Type) : Type :=
| OpPushBack (value : cref T) (p : Z)
| OpPopBack
| OpInsert (ind : index_ref T) (value : cref T) (p : Z)
| OpErase (ind : index_ref T)
| OpClear.
Arguments OpPushBack {T} value p.
Arguments OpPopBack {T}.
Arguments OpInsert {T} ind value p.
Arguments OpErase {T} ind.
Arguments OpClear {T}.

Definition vector_call_on {T} (moved : T → T) (c : vector_call T)
  (v : vector.t T) : outcome (vector.t T) :=
  match c with
  | OpPushBack value p => vector.push_back moved v value p
  | OpPopBack => vector.pop_back v
  | OpInsert ind value p =>
      let! '(_, v) := vector.insert moved v ind value p in Return v
  | OpErase ind => let! '(_, v) := vector.erase moved v ind in Return v
  | OpClear => vector.clear v
  end.

Fixpoint vector_run {T} (moved : T → T) (cs : list (vector_call T))
  (v : vector.t T) : outcome (vector.t T) :=
  match cs with
  | [] => Return v
  | c :: cs => let! v := vector_call_on moved c v in vector_run moved cs v
  end.

(** The arguments of a call are outside the buffer of the vector, what
    [malloc] returned to it is not null, and its index is a [size_t]. *)
Definition call_ok {T} (c : vector_call T) : Prop :=
  match c with
  | OpPushBack (Outside _) p => p ≠ 0
  | OpInsert (Index ind) (Outside _) p => 0 ≤ ind ∧ p ≠ 0
  | OpErase (Index ind) => 0 ≤ ind
  | OpPopBack | OpClear => True
  | _ => False
  end.

(** The list that a call whose arguments are outside the buffer makes of
    the list of the values. *)
Definition list_call {T} (c : vector_call T) (xs : list T) : list T :=
  match c with
  | OpPushBack (Outside value) _ => xs ++ [value]
  | OpPopBack => removelast xs
  | OpInsert (Index ind) (Outside value) _ =>
      take (Z.to_nat ind) xs ++ value :: drop (Z.to_nat ind) xs
  | OpErase (Index ind) => delete (Z.to_nat ind) xs
  | OpClear => []
  | _ => xs
  end.

(** Moving an [int] leaves the source as it is. *)
Definition moved_int (x : Z) : Z := x.

(** A vector of three [int]s in a buffer of four slots. *)
Definition three : vector.t Z :=
  vector.mk 3 4 300 [Some 10; Some 20; Some 30; None].

(** The same three [int]s in a full buffer; calls on [three], the first
    of which fills the buffer and the second of which doubles it; and
    calls on a new vector. *)
Definition three_full : vector.t Z :=
  vector.mk 3 3 300 [Some 10; Some 20; Some 30].

Definition three_calls : list (vector_call Z) :=
  [OpPushBack (Outside 40) 400; OpInsert (Index 1) (Outside 15) 500;
   OpErase (Index 0); OpPopBack].

Definition ctor_calls : list (vector_call Z) :=
  [OpPushBack (Outside 1) 100; OpPushBack (Outside 2) 200;
   OpPushBack (Outside 3) 300; OpClear].

(** * Properties *)

(** ** Stores, shapes and the monad *)

Section memory_facts.

Context {T : Type}.

Implicit Types (w : world T) (t : shape (T:=T)) (s : gmap positive (heapnode T)).

Lemma repr_frame s s' t :
  repr s t → (∀ a, a ∈ addrs t → s' !! a = s !! a) → repr s' t.
Proof.
  induction t as [|a v l IHl r IHr]; simpl; [done|].
  intros (Ha & Hl & Hr) Hs. split_and!.
  - rewrite Hs; [done | set_solver].
  - apply IHl; [done | intros; apply Hs; set_solver].
  - apply IHr; [done | intros; apply Hs; set_solver].
Qed.

Lemma load_ok w a n : store w !! a = Some n → load (Some a) w = (Ok n, w).
Proof. intros H. unfold load. by rewrite H. Qed.

Lemma store_rs_ok w a n p :
  store w !! a = Some n →
  store_rs (Some a) p w = (Ok tt, set_store <[a := Heapnode (val n) (ls n) p]> w).
Proof. intros H. unfold store_rs, bind. by rewrite (load_ok _ _ _ H). Qed.

Lemma store_ls_ok w a n p :
  store w !! a = Some n →
  store_ls (Some a) p w = (Ok tt, set_store <[a := Heapnode (val n) p (rs n)]> w).
Proof. intros H. unfold store_ls, bind. by rewrite (load_ok _ _ _ H). Qed.

Lemma dom_insert_present s a (n n' : heapnode T) :
  s !! a = Some n → dom (<[a := n']> s) = dom s.
Proof.
  intros H. rewrite dom_insert_L. assert (a ∈ dom s) by (apply elem_of_dom; eauto). set_solver.
Qed.

Lemma preserves_ret {A} (P : world T → world T → Prop) (a : A) :
  Reflexive P → preserves P (ret a).
Proof. intros HP w r w' [= <- <-]. apply HP. Qed.

Lemma preserves_fail {A} (P : world T → world T → Prop) (r : result A) :
  Reflexive P → preserves P (λ w, (r, w)).
Proof. intros HP w r' w' [= <- <-]. apply HP. Qed.

Lemma preserves_bind {A B} (P : world T → world T → Prop) (m : M T A) (f : A → M T B) :
  Transitive P → preserves P m → (∀ a, preserves P (f a)) → preserves P (bind m f).
Proof.
  intros HP Hm Hf w r w'. unfold bind.
  destruct (m w) as [[a|e| |] w1] eqn:E; specialize (Hm _ _ _ E).
  - intros Hfa. apply Hf in Hfa. by etrans.
  - by intros [= <- <-].
  - by intros [= <- <-].
  - by intros [= <- <-].
Qed.

Lemma preserves_try_catch {A} (P : world T → world T → Prop) (m : M T A) (h : M T unit) :
  Transitive P → preserves P m → preserves P h → preserves P (try_catch_rethrow m h).
Proof.
  intros HP Hm Hh w r w'. unfold try_catch_rethrow.
  destruct (m w) as [[a|e| |] w1] eqn:E; specialize (Hm _ _ _ E).
  2:{ unfold bind, throw. destruct (h w1) as [[[]|e'| |] w2] eqn:E2;
      specialize (Hh _ _ _ E2); intros [= <- <-]; by etrans. }
  all: by intros [= <- <-].
Qed.

Lemma preserves_weaken {A} (P Q : world T → world T → Prop) (m : M T A) :
  (∀ w w', P w w' → Q w w') → preserves P m → preserves Q m.
Proof. intros HPQ Hm w r w' E. eauto. Qed.

Global Instance same_vals_refl : Reflexive (same_vals (T:=T)).
Proof. by intros w. Qed.

Global Instance same_vals_trans : Transitive (same_vals (T:=T)).
Proof.
  intros w1 w2 w3 [Hq1 Hv1] [Hq2 Hv2]. split; [congruence|].
  intros a. by rewrite Hv2, Hv1.
Qed.

Global Instance same_state_refl : Reflexive (same_state (T:=T)).
Proof. by intros w. Qed.

Global Instance same_state_trans : Transitive (same_state (T:=T)).
Proof. intros w1 w2 w3 [] []. split; congruence. Qed.

Lemma same_state_vals w w' : same_state w w' → same_vals w w'.
Proof. intros [Hs Hq]. split; [done|]. intros a. by rewrite Hs. Qed.

Lemma load_same_state x : preserves same_state (load (T:=T) x).
Proof.
  intros w r w'. unfold load. destruct x as [a|]; [|by intros [= <- <-]].
  destruct (store w !! a); by intros [= <- <-].
Qed.

Lemma get_queue_same_state q : preserves same_state (get_queue (T:=T) q).
Proof.
  intros w r w'. unfold get_queue. destruct (queues w !! q); by intros [= <- <-].
Qed.

Lemma store_ls_same_vals x p : preserves same_vals (store_ls (T:=T) x p).
Proof.
  intros w r w'. unfold store_ls, bind, load. destruct x as [a|]; [|by intros [= <- <-]].
  destruct (store w !! a) as [n|] eqn:E; [|by intros [= <- <-]].
  intros [= <- <-]. split; [done|]. intros b. simpl.
  destruct (decide (a = b)) as [->|]; [|by rewrite lookup_insert_ne].
  by rewrite lookup_insert_eq, E.
Qed.

Lemma store_rs_same_vals x p : preserves same_vals (store_rs (T:=T) x p).
Proof.
  intros w r w'. unfold store_rs, bind, load. destruct x as [a|]; [|by intros [= <- <-]].
  destruct (store w !! a) as [n|] eqn:E; [|by intros [= <- <-]].
  intros [= <- <-]. split; [done|]. intros b. simpl.
  destruct (decide (a = b)) as [->|]; [|by rewrite lookup_insert_ne].
  by rewrite lookup_insert_eq, E.
Qed.

(** ** [clear] and [clonenode] *)

Lemma delete_node_ok w a n :
  store w !! a = Some n →
  delete_node (Some a) w = (Ok tt, set_store (delete a) w).
Proof. intros H. unfold delete_node, bind. by rewrite (load_ok _ _ _ H). Qed.

Lemma repr_mono s s' t :
  repr s t → (∀ a n, s !! a = Some n → s' !! a = Some n) → repr s' t.
Proof.
  induction t as [|a v l IHl r IHr]; simpl; [done|].
  intros (Ha & Hl & Hr) Hs. split_and!; eauto.
Qed.

Lemma repr_addrs_dom s t a : repr s t → a ∈ addrs t → a ∈ dom s.
Proof.
  induction t as [|b v l IHl r IHr]; simpl; [set_solver|].
  intros (Hb & Hl & Hr) Ha. apply elem_of_cons in Ha as [->|Ha].
  - apply elem_of_dom. eauto.
  - apply elem_of_app in Ha as [Ha|Ha]; eauto.
Qed.

Lemma same_values_tsize t t' : same_values t t' → tsize t' = tsize t.
Proof.
  revert t'. induction t as [|a v l IHl r IHr]; intros [|a' v' l' r']; simpl; try done.
  intros (_ & Hl & Hr). unfold tsize in *. simpl. rewrite !length_app.
  by rewrite (IHl _ Hl), (IHr _ Hr).
Qed.

Lemma same_values_elems t t' : same_values t t' → elems t' = elems t.
Proof.
  revert t'. induction t as [|a v l IHl r IHr]; intros [|a' v' l' r']; simpl; try done.
  intros (-> & Hl & Hr). by rewrite (IHl _ Hl), (IHr _ Hr).
Qed.

Lemma same_values_edges (R : T → T → Prop) t t' :
  same_values t t' → edges R t → edges R t'.
Proof.
  revert t'. induction t as [|a v l IHl r IHr]; intros [|a' v' l' r']; simpl; try done.
  intros (-> & Hl & Hr) (Hvl & Hvr & Hel & Her). split_and!; eauto.
  - destruct l, l'; simpl in *; try done. by destruct Hl as [<- _].
  - destruct r, r'; simpl in *; try done. by destruct Hr as [<- _].
Qed.

Lemma size_store_fresh s s' (l : list positive) :
  dom s' = dom s ∪ list_to_set l → NoDup l → (∀ a, a ∈ l → a ∉ dom s) →
  size s' = (size s + length l)%nat.
Proof.
  intros Hdom Hnd Hfresh. rewrite <- !size_dom, Hdom.
  rewrite size_union by set_solver. by rewrite size_list_to_set.
Qed.

Lemma new_heapnode_ok w v :
  Z.of_nat (size (store w)) < SIZE_MAX →
  new_heapnode v w
  = (Ok (Some (fresh (dom (store w)))),
     set_store <[fresh (dom (store w)) := Heapnode v None None]> w).
Proof. intros H. unfold new_heapnode. by rewrite decide_True. Qed.

Lemma new_heapnode_full w v :
  ¬ Z.of_nat (size (store w)) < SIZE_MAX →
  new_heapnode v w = (Throw bad_alloc, w).
Proof. intros H. unfold new_heapnode. by rewrite decide_False. Qed.

(** On a tree, [clear] frees the nodes of the tree and touches nothing
    else; it returns as soon as the recursion budget exceeds the number of
    nodes. *)
Lemma clear_spec fuel : ∀ t w,
  repr (store w) t → NoDup (addrs t) →
  ∃ w', queues w' = queues w
    ∧ cmp_calls w' = cmp_calls w
    ∧ (∀ a, a ∉ addrs t → store w' !! a = store w !! a)
    ∧ (∀ a n, store w' !! a = Some n → store w !! a = Some n)
    ∧ (clear fuel (root t) w = (OutOfFuel, w') ∧ (fuel ≤ tsize t)%nat
       ∨ clear fuel (root t) w = (Ok tt, w')
         ∧ ∀ a, a ∈ addrs t → store w' !! a = None).
Proof.
  induction fuel as [|fuel IH]; intros t w Hrep Hnd.
  { exists w. split_and!; try done. left. split; [done|lia]. }
  destruct t as [|a v l r].
  { exists w. split_and!; try done. right. split; [done|]. set_solver. }
  destruct Hrep as (Ha & Hl & Hr). simpl in Hnd.
  apply NoDup_cons in Hnd as [Hal Hnd]. apply NoDup_app in Hnd as (Hndl & Hlr & Hndr).
  assert (Hsz : tsize (Node a v l r) = S (tsize l + tsize r)).
  { unfold tsize. simpl. by rewrite length_app. }
  destruct (clear (S fuel) (root (Node a v l r)) w) as [res wF] eqn:E.
  cbn [clear root] in E. unfold bind at 1 in E.
  rewrite (load_ok _ _ _ Ha) in E. cbn [ls rs] in E.
  destruct (IH l w) as (w1 & Hq1 & Hn1 & Hout1 & Hsub1 & Hres1); [done|done|].
  unfold bind at 1 in E.
  destruct Hres1 as [[Hc1 Hf1]|[Hc1 Hin1]]; rewrite Hc1 in E.
  { injection E as <- <-. exists w1. split_and!; try done.
    - intros b Hb. apply Hout1. set_solver.
    - left. split; [done|lia]. }
  assert (Ha1 : store w1 !! a = Some (Heapnode v (root l) (root r))).
  { rewrite Hout1; [done|set_solver]. }
  unfold bind at 1 in E. rewrite (load_ok _ _ _ Ha1) in E. cbn [ls rs] in E.
  destruct (IH r w1) as (w2 & Hq2 & Hn2 & Hout2 & Hsub2 & Hres2); [|done|].
  { eapply repr_frame; [exact Hr|]. intros b Hb. apply Hout1. intros Hbl. by eapply Hlr. }
  unfold bind at 1 in E.
  destruct Hres2 as [[Hc2 Hf2]|[Hc2 Hin2]]; rewrite Hc2 in E.
  { injection E as <- <-. exists w2. split_and!; [congruence|congruence| | |].
    - intros b Hb. rewrite Hout2 by set_solver. apply Hout1. set_solver.
    - eauto.
    - left. split; [done|lia]. }
  assert (Ha2 : store w2 !! a = Some (Heapnode v (root l) (root r))).
  { rewrite Hout2; [done|set_solver]. }
  rewrite (delete_node_ok _ _ _ Ha2) in E. exists wF. injection E as <- <-.
  simpl. split_and!; [congruence|congruence| | |right; split; [done|]].
  - intros b Hb. rewrite lookup_delete_ne by set_solver.
    rewrite Hout2 by set_solver. apply Hout1. set_solver.
  - intros b n Hb. apply lookup_delete_Some in Hb as [_ Hb]. eauto.
  - intros b Hb. destruct (decide (b = a)) as [->|Hne]; [by rewrite lookup_delete_eq|].
    rewrite lookup_delete_ne by done.
    destruct (decide (b ∈ addrs r)) as [Hbr|Hbr]; [by apply Hin2|].
    rewrite Hout2 by done. apply Hin1. set_solver.
Qed.

(** On a tree, [clonenode] runs out of memory or returns a tree of fresh
    nodes with the same values at the same places; the nodes that were
    there are untouched. *)
Lemma clonenode_spec fuel : ∀ t w,
  repr (store w) t →
  ∃ w', queues w' = queues w
    ∧ cmp_calls w' = cmp_calls w
    ∧ (∀ a n, store w !! a = Some n → store w' !! a = Some n)
    ∧ (clonenode fuel (root t) w = (OutOfFuel, w') ∧ (fuel ≤ tsize t)%nat
       ∨ clonenode fuel (root t) w = (Throw bad_alloc, w')
         ∧ ¬ Z.of_nat (size (store w)) + Z.of_nat (tsize t) ≤ SIZE_MAX
       ∨ ∃ t', clonenode fuel (root t) w = (Ok (root t'), w')
           ∧ repr (store w') t' ∧ NoDup (addrs t') ∧ same_values t t'
           ∧ (∀ a, a ∈ addrs t' → a ∉ dom (store w))
           ∧ dom (store w') = dom (store w) ∪ list_to_set (addrs t')
           ∧ (Z.of_nat (size (store w)) ≤ SIZE_MAX →
              Z.of_nat (size (store w)) + Z.of_nat (tsize t) ≤ SIZE_MAX)).
Proof.
  induction fuel as [|fuel IH]; intros t w Hrep.
  { exists w. split_and!; try done. left. split; [done|lia]. }
  destruct t as [|a v l r].
  { exists w. split_and!; try done. right. right. exists Leaf. simpl.
    split_and!; try done; [constructor|set_solver|set_solver|unfold tsize; simpl; lia]. }
  destruct Hrep as (Ha & Hl & Hr).
  assert (Hsz : tsize (Node a v l r) = S (tsize l + tsize r)).
  { unfold tsize. simpl. by rewrite length_app. }
  destruct (clonenode (S fuel) (root (Node a v l r)) w) as [res wF] eqn:E.
  cbn [clonenode root] in E. unfold bind at 1 in E.
  rewrite (load_ok _ _ _ Ha) in E. cbn [val ls rs] in E.
  destruct (decide (Z.of_nat (size (store w)) < SIZE_MAX)) as [Hroom|Hfull].
  2:{ unfold bind in E. rewrite (new_heapnode_full _ _ Hfull) in E.
      injection E as <- <-. exists w. split_and!; try done. right. left.
      split; [done|lia]. }
  unfold bind at 1 in E. rewrite (new_heapnode_ok _ _ Hroom) in E.
  set (c := fresh (dom (store w))) in *.
  assert (Hc : c ∉ dom (store w)) by apply is_fresh.
  set (w1 := set_store _ w) in E.
  assert (Hsub1 : ∀ b n, store w !! b = Some n → store w1 !! b = Some n).
  { intros b n Hb. subst w1. simpl. rewrite lookup_insert_ne; [done|].
    intros <-. apply Hc. apply elem_of_dom. eauto. }
  assert (Hdom1 : dom (store w1) = {[c]} ∪ dom (store w)).
  { subst w1. simpl. by rewrite dom_insert_L. }
  assert (Hsize1 : size (store w1) = S (size (store w))).
  { subst w1. simpl. apply map_size_insert_None. by apply not_elem_of_dom. }
  unfold bind at 1 in E. rewrite (load_ok _ _ _ (Hsub1 _ _ Ha)) in E. cbn [val ls rs] in E.
  destruct (IH l w1) as (w2 & Hq2 & Hn2 & Hsub2 & Hres2).
  { eapply repr_mono; eauto. }
  unfold bind at 1 in E.
  destruct Hres2 as [[Hcl Hfl]|[[Hcl Hfull]|(l' & Hcl & Hrepl & Hndl & Hsvl & Hfreshl & Hdoml & Hbndl)]];
    rewrite Hcl in E.
  { injection E as <- <-. exists w2. split_and!; [done|done|by eauto|]. left.
    split; [done|lia]. }
  { injection E as <- <-. exists w2. split_and!; [done|done|by eauto|]. right. left.
    split; [done|lia]. }
  assert (Hc2 : store w2 !! c = Some (Heapnode v None None)).
  { apply Hsub2. subst w1. simpl. by rewrite lookup_insert_eq. }
  unfold bind at 1 in E. rewrite (store_ls_ok _ _ _ _ Hc2) in E. cbn [val ls rs] in E.
  set (w3 := set_store _ w2) in E.
  assert (Hsub3 : ∀ b n, b ≠ c → store w2 !! b = Some n → store w3 !! b = Some n).
  { intros b n Hb Hlk. subst w3. simpl. by rewrite lookup_insert_ne. }
  assert (Hac : ∀ b n, store w !! b = Some n → b ≠ c).
  { intros b n Hb ->. apply Hc. apply elem_of_dom. eauto. }
  unfold bind at 1 in E.
  rewrite (load_ok _ a (Heapnode v (root l) (root r))) in E; [|by eauto].
  cbn [val ls rs] in E.
  assert (Hcl' : c ∉ addrs l').
  { intros Hin. apply Hfreshl in Hin. apply Hin. rewrite Hdom1. set_solver. }
  assert (Hdom3 : dom (store w3) = dom (store w2)).
  { subst w3. simpl. by eapply dom_insert_present. }
  assert (Hsize3 : size (store w3) = (size (store w) + 1 + tsize l)%nat).
  { rewrite <- (same_values_tsize _ _ Hsvl). unfold tsize.
    transitivity (size (store w2)).
    - by rewrite <- !size_dom, Hdom3.
    - rewrite (size_store_fresh _ _ _ Hdoml Hndl Hfreshl). lia. }
  destruct (IH r w3) as (w4 & Hq4 & Hn4 & Hsub4 & Hres4).
  { eapply repr_mono; [exact Hr|]. intros b n Hb. apply Hsub3; eauto. }
  unfold bind at 1 in E.
  destruct Hres4 as [[Hcr Hfr]|[[Hcr Hfull]|(r' & Hcr & Hrepr & Hndr & Hsvr & Hfreshr & Hdomr & Hbndr)]];
    rewrite Hcr in E.
  { injection E as <- <-. exists w4.
    split_and!; [by rewrite Hq4; simpl; rewrite Hq2|by rewrite Hn4; simpl; rewrite Hn2| |].
    - intros b n Hb. apply Hsub4, Hsub3, Hsub2, Hsub1; eauto.
    - left. split; [done|lia]. }
  { injection E as <- <-. exists w4.
    split_and!; [by rewrite Hq4; simpl; rewrite Hq2|by rewrite Hn4; simpl; rewrite Hn2| |].
    - intros b n Hb. apply Hsub4, Hsub3, Hsub2, Hsub1; eauto.
    - right. left. split; [done|lia]. }
  assert (Hc4 : store w4 !! c = Some (Heapnode v (root l') None)).
  { apply Hsub4. subst w3. simpl. by rewrite lookup_insert_eq. }
  unfold bind at 1 in E. rewrite (store_rs_ok _ _ _ _ Hc4) in E. cbn [val ls rs] in E.
  assert (Hcr' : c ∉ addrs r').
  { intros Hin. apply Hfreshr in Hin. apply Hin. rewrite Hdom3, Hdoml, Hdom1. set_solver. }
  unfold ret in E. exists wF. injection E as <- <-.
  split_and!; [| | |right; right; exists (Node c v l' r'); split; [reflexivity|]]; simpl.
  - by rewrite Hq4; simpl; rewrite Hq2.
  - by rewrite Hn4; simpl; rewrite Hn2.
  - intros b n Hb. rewrite lookup_insert_ne; [|intros <-; by eapply (Hac _ _ Hb)].
    apply Hsub4, Hsub3, Hsub2, Hsub1; eauto.
  - split_and!.
    + by rewrite lookup_insert_eq.
    + eapply repr_frame; [eapply repr_mono; [eapply repr_frame; [exact Hrepl|]|exact Hsub4]|].
      * intros b Hb. subst w3. simpl. rewrite lookup_insert_ne; [done|]. by intros <-.
      * intros b Hb. rewrite lookup_insert_ne; [done|]. by intros <-.
    + eapply repr_frame; [exact Hrepr|].
      intros b Hb. rewrite lookup_insert_ne; [done|]. by intros <-.
    + apply NoDup_cons. split; [set_solver|]. apply NoDup_app. split_and!; [done| |done].
      intros b Hbl Hbr. apply Hfreshr in Hbr. apply Hbr. rewrite Hdom3.
      eapply repr_addrs_dom; eauto.
    + done.
    + done.
    + done.
    + intros b Hb. apply elem_of_cons in Hb as [->|Hb]; [done|].
      apply elem_of_app in Hb as [Hb|Hb].
      * apply Hfreshl in Hb. rewrite Hdom1 in Hb. set_solver.
      * apply Hfreshr in Hb. rewrite Hdom3, Hdoml, Hdom1 in Hb. set_solver.
    + rewrite (dom_insert_present _ _ _ _ Hc4), Hdomr, Hdom3, Hdoml, Hdom1.
      set_solver.
    + intros _. lia.
Qed.

(** ** Ownership *)

(** A pointer stands for at most one shape. *)
Lemma repr_inj s t1 t2 : repr s t1 → repr s t2 → root t1 = root t2 → t1 = t2.
Proof.
  revert t2. induction t1 as [|a v l IHl r IHr]; intros [|a2 v2 l2 r2]; simpl; try done.
  intros (Ha & Hl & Hr) (Ha2 & Hl2 & Hr2) [= <-].
  rewrite Ha in Ha2. injection Ha2 as <- Hrl Hrr.
  by rewrite (IHl l2), (IHr r2).
Qed.

Lemma owned_by_queue w sh q pq :
  owned_by w sh → queues w !! q = Some pq →
  ∃ t, sh !! q = Some t ∧ root_ pq = root t ∧ repr (store w) t
       ∧ NoDup (addrs t) ∧ size_ pq = Z.of_nat (tsize t).
Proof.
  intros (Hdom & Hsh & _) Hq. destruct (sh !! q) as [t|] eqn:E.
  - destruct (Hsh _ _ E) as (pq' & Hq' & ?). rewrite Hq in Hq'. injection Hq' as <-. eauto.
  - apply Hdom in E. congruence.
Qed.

Lemma owned_by_shape w sh q t :
  owned_by w sh → queue_shape w q t ↔ sh !! q = Some t.
Proof.
  intros Hown. split.
  - intros (pq & Hq & Hroot & Hrep & Hnd).
    destruct (owned_by_queue _ _ _ _ Hown Hq) as (t' & Ht' & Hroot' & Hrep' & _).
    rewrite Ht'. f_equal. eapply repr_inj; eauto. congruence.
  - intros Ht. destruct Hown as (_ & Hsh & _).
    destruct (Hsh _ _ Ht) as (pq & ? & ? & ? & ? & ?). by exists pq.
Qed.

(** One queue object gets a new tree; the trees of the others are not
    touched. *)
Lemma owned_by_insert w w' sh q pq' t' :
  owned_by w sh →
  queues w' = <[q := pq']> (queues w) →
  root_ pq' = root t' → repr (store w') t' → NoDup (addrs t') →
  size_ pq' = Z.of_nat (tsize t') →
  (∀ q' t0, q' ≠ q → sh !! q' = Some t0 →
     addrs t' ## addrs t0 ∧ ∀ a, a ∈ addrs t0 → store w' !! a = store w !! a) →
  owned_by w' (<[q := t']> sh).
Proof.
  intros (Hdom & Hsh & Hdis) Hq Hroot Hrep Hnd Hsize Hothers. split_and!.
  - intros q'. rewrite Hq. destruct (decide (q = q')) as [->|Hne].
    + by rewrite !lookup_insert_eq.
    + rewrite !lookup_insert_ne by done. apply Hdom.
  - intros q' t0. rewrite Hq. destruct (decide (q = q')) as [->|Hne].
    + rewrite !lookup_insert_eq. intros [= <-]. eauto 10.
    + rewrite !lookup_insert_ne by done. intros Ht0.
      destruct (Hsh _ _ Ht0) as (pq & ? & ? & Hrep0 & ? & ?).
      exists pq. split_and!; try done.
      eapply repr_frame; [exact Hrep0|]. by apply (Hothers q' t0).
  - intros q1 q2 t1 t2 Hne.
    destruct (decide (q = q1)) as [<-|Hne1]; destruct (decide (q = q2)) as [<-|Hne2];
      try done.
    + rewrite lookup_insert_eq, lookup_insert_ne by done. intros [= <-] Ht2.
      apply (Hothers q2 t2); [by intros ->|done].
    + rewrite lookup_insert_eq, lookup_insert_ne by done. intros Ht1 [= <-].
      destruct (Hothers q1 t1) as [Hd _]; [by intros ->|done|].
      intros a Ha1 Ha2. by apply (Hd a).
    + rewrite !lookup_insert_ne by done. by apply Hdis.
Qed.

(** One queue object goes away. *)
Lemma owned_by_delete w w' sh q :
  owned_by w sh →
  queues w' = delete q (queues w) →
  (∀ q' t0, q' ≠ q → sh !! q' = Some t0 →
     ∀ a, a ∈ addrs t0 → store w' !! a = store w !! a) →
  owned_by w' (delete q sh).
Proof.
  intros (Hdom & Hsh & Hdis) Hq Hothers. split_and!.
  - intros q'. rewrite Hq. destruct (decide (q = q')) as [->|Hne].
    + by rewrite !lookup_delete_eq.
    + rewrite !lookup_delete_ne by done. apply Hdom.
  - intros q' t0. rewrite Hq. destruct (decide (q = q')) as [->|Hne].
    + by rewrite lookup_delete_eq.
    + rewrite !lookup_delete_ne by done. intros Ht0.
      destruct (Hsh _ _ Ht0) as (pq & ? & ? & Hrep0 & ? & ?).
      exists pq. split_and!; try done.
      eapply repr_frame; [exact Hrep0|]. by apply (Hothers q' t0).
  - intros q1 q2 t1 t2 Hne Ht1 Ht2.
    apply lookup_delete_Some in Ht1 as [_ Ht1]. apply lookup_delete_Some in Ht2 as [_ Ht2].
    by eapply Hdis.
Qed.

Lemma owned_by_addrs_dom w sh q t a :
  owned_by w sh → sh !! q = Some t → a ∈ addrs t → a ∈ dom (store w).
Proof.
  intros (_ & Hsh & _) Ht Ha. destruct (Hsh _ _ Ht) as (pq & _ & _ & Hrep & _).
  by eapply repr_addrs_dom.
Qed.

Lemma get_queue_ok w q pq : queues w !! q = Some pq → get_queue q w = (Ok pq, w).
Proof. intros H. unfold get_queue. by rewrite H. Qed.

Lemma get_queue_absent w q : queues w !! q = None → get_queue q w = (Undefined, w).
Proof. intros H. unfold get_queue. by rewrite H. Qed.

Lemma set_root_ok w q pq p :
  queues w !! q = Some pq →
  set_root q p w = (Ok tt, set_queues <[q := PQ p (size_ pq)]> w).
Proof. intros H. unfold set_root, bind. by rewrite (get_queue_ok _ _ _ H). Qed.

Lemma set_size_ok w q pq n :
  queues w !! q = Some pq →
  set_size q n w = (Ok tt, set_queues <[q := PQ (root_ pq) n]> w).
Proof. intros H. unfold set_size, bind. by rewrite (get_queue_ok _ _ _ H). Qed.

(** A tree has no more nodes than the store that holds it. *)
Lemma tsize_le_size s t : repr s t → NoDup (addrs t) → (tsize t ≤ size s)%nat.
Proof.
  intros Hrep Hnd. unfold tsize. rewrite <- (size_list_to_set (C:=gset positive)) by done.
  rewrite <- size_dom. apply subseteq_size. intros a Ha.
  apply elem_of_list_to_set in Ha. by eapply repr_addrs_dom.
Qed.

Lemma wrap_small z : 0 ≤ z ≤ SIZE_MAX → wrap z = z.
Proof. unfold wrap, SIZE_MAX. intros H. apply Z.mod_small. lia. Qed.

Lemma addrs_le_size s (l : list positive) :
  NoDup l → (∀ a, a ∈ l → a ∈ dom s) → (length l ≤ size s)%nat.
Proof.
  intros Hnd Hin. rewrite <- (size_list_to_set (C:=gset positive)) by done.
  rewrite <- size_dom. apply subseteq_size. intros a Ha.
  apply elem_of_list_to_set in Ha. by apply Hin.
Qed.

(** ** Construction, copy, destruction and assignment *)

Lemma pq_ctor_spec w sh :
  owned_by w sh →
  ∃ q, pq_ctor w = (Ok q, set_queues <[q := PQ None 0]> w)
    ∧ queues w !! q = None
    ∧ owned_by (set_queues <[q := PQ None 0]> w) (<[q := Leaf]> sh).
Proof.
  intros Hown. exists (fresh (dom (queues w))). split; [done|].
  assert (Hq : queues w !! fresh (dom (queues w)) = None).
  { apply not_elem_of_dom. apply is_fresh. }
  split; [done|].
  eapply owned_by_insert; [exact Hown|done|done|done|constructor|done|].
  intros q' t0 _ _. split; [|done]. intros b Hb. simpl in Hb. set_solver.
Qed.

Lemma pq_copy_ctor_spec fuel other w sh t r w' :
  owned_by w sh → sh !! other = Some t →
  pq_copy_ctor fuel other w = (r, w') →
  (∀ q pq, queues w !! q = Some pq → queues w' !! q = Some pq)
  ∧ (∀ a n, store w !! a = Some n → store w' !! a = Some n)
  ∧ cmp_calls w' = cmp_calls w
  ∧ (r = OutOfFuel → (fuel ≤ tsize t)%nat)
  ∧ (r = Throw bad_alloc → ¬ Z.of_nat (size (store w)) + Z.of_nat (tsize t) ≤ SIZE_MAX)
  ∧ (∀ q, r = Ok q →
     ∃ t', queues w !! q = None
       ∧ same_values t t'
       ∧ owned_by w' (<[q := t']> sh)
       ∧ (∀ a, a ∈ addrs t' → a ∉ dom (store w))
       ∧ dom (store w') = dom (store w) ∪ list_to_set (addrs t')
       ∧ (Z.of_nat (size (store w)) ≤ SIZE_MAX →
          Z.of_nat (size (store w)) + Z.of_nat (tsize t) ≤ SIZE_MAX))
  ∧ (r = Undefined → False)
  ∧ (∀ e, r = Throw e → e = bad_alloc).
Proof.
  intros Hown Ht E.
  pose proof Hown as (Hdom & Hsh & Hdis).
  destruct (Hsh _ _ Ht) as (po & Hqo & Hroot & Hrep & Hnd & Hsize).
  unfold pq_copy_ctor in E.
  unfold bind at 1 in E. rewrite (get_queue_ok _ _ _ Hqo) in E.
  destruct (clonenode_spec fuel t w Hrep) as (w2 & Hq2 & Hn2 & Hsub2 & Hres).
  rewrite Hroot in E. unfold bind at 1 in E.
  destruct Hres as [[Hc Hf]|[[Hc Hfull]|(t' & Hc & Hrep' & Hnd' & Hsv & Hfresh & Hdom2 & Hb)]];
    rewrite Hc in E.
  { injection E as <- <-. split_and!; try done. by rewrite Hq2. }
  { injection E as <- <-. split_and!; try done; [by rewrite Hq2|by intros e [= <-]]. }
  unfold bind at 1 in E. rewrite (get_queue_ok w2 other po) in E by (by rewrite Hq2).
  injection E as <- <-.
  set (q := fresh (dom (queues w2))).
  assert (Hqf : queues w !! q = None).
  { rewrite <- Hq2. apply not_elem_of_dom. apply is_fresh. }
  set (wF := set_queues _ w2).
  assert (HsF : store wF = store w2) by done.
  assert (HqF : queues wF = <[q := PQ (root t') (size_ po)]> (queues w)).
  { subst wF. simpl. by rewrite Hq2. }
  assert (HnF : cmp_calls wF = cmp_calls w) by done.
  clearbody wF. rewrite HsF, HqF.
  split_and!; try done.
  - intros q' pq Hq'. rewrite lookup_insert_ne; [done|]. intros <-. congruence.
  - intros q0 [= <-]. exists t'. split_and!; try done.
    eapply owned_by_insert; [exact Hown|exact HqF|done|by rewrite HsF|done| |].
    + simpl. by rewrite (same_values_tsize _ _ Hsv).
    + intros q' t0 Hq' Ht0. split.
      * intros b Hb' Hb0. apply (Hfresh _ Hb'). by eapply owned_by_addrs_dom.
      * intros b Hb0. rewrite HsF.
        assert (Hbd : b ∈ dom (store w)) by (by eapply owned_by_addrs_dom).
        apply elem_of_dom in Hbd as [n Hn]. rewrite Hn. by apply Hsub2.
Qed.

Lemma pq_dtor_spec fuel q w sh t r w' :
  owned_by w sh → sh !! q = Some t →
  pq_dtor fuel q w = (r, w') →
  (∀ q', q' ≠ q → queues w' !! q' = queues w !! q')
  ∧ (∀ a, a ∉ addrs t → store w' !! a = store w !! a)
  ∧ (∀ a n, store w' !! a = Some n → store w !! a = Some n)
  ∧ cmp_calls w' = cmp_calls w
  ∧ (r = Ok tt ∧ owned_by w' (delete q sh)
     ∨ r = OutOfFuel ∧ (fuel ≤ tsize t)%nat).
Proof.
  intros Hown Ht E.
  pose proof Hown as (Hdom & Hsh & Hdis).
  destruct (Hsh _ _ Ht) as (pq & Hq & Hroot & Hrep & Hnd & Hsize).
  unfold pq_dtor in E.
  unfold bind at 1 in E. rewrite (get_queue_ok _ _ _ Hq) in E.
  destruct (clear_spec fuel t w Hrep Hnd) as (w2 & Hq2 & Hn2 & Hout & Hsub & Hres).
  rewrite Hroot in E. unfold bind at 1 in E.
  destruct Hres as [[Hc Hf]|[Hc Hin]]; rewrite Hc in E.
  { injection E as <- <-. split_and!; try done; [by rewrite Hq2|by right]. }
  injection E as <- <-. simpl. rewrite Hq2. split_and!; try done.
  - intros q' Hq'. by rewrite lookup_delete_ne.
  - left. split; [done|].
    eapply owned_by_delete; [exact Hown|simpl; by rewrite Hq2|].
    intros q' t0 Hq' Ht0 b Hb. simpl. apply Hout. intros Hbt. by eapply (Hdis q q').
Qed.

Lemma map_subseteq_size_le s s' :
  (∀ a n, s' !! a = Some n → s !! a = Some n) → (size s' ≤ size s)%nat.
Proof.
  intros Hsub. rewrite <- !size_dom. apply subseteq_size. intros a Ha.
  apply elem_of_dom in Ha as [n Hn]. apply elem_of_dom. eauto.
Qed.

Lemma pq_assign_self fuel q w : pq_assign fuel q q w = (Ok tt, w).
Proof. unfold pq_assign. by rewrite decide_True. Qed.

Lemma pq_assign_spec fuel this other w sh t to r w' :
  owned_by w sh → this ≠ other →
  sh !! this = Some t → sh !! other = Some to →
  pq_assign fuel this other w = (r, w') →
  (∀ q', q' ≠ this → queues w' !! q' = queues w !! q')
  ∧ (∀ a, a ∈ dom (store w) → a ∉ addrs t → store w' !! a = store w !! a)
  ∧ cmp_calls w' = cmp_calls w
  ∧ (r = OutOfFuel → (fuel ≤ tsize t)%nat ∨ (fuel ≤ tsize to)%nat)
  ∧ (r = Throw bad_alloc →
     ¬ Z.of_nat (size (store w)) - Z.of_nat (tsize t) + Z.of_nat (tsize to) ≤ SIZE_MAX)
  ∧ (r = Ok tt →
     ∃ t', same_values to t'
       ∧ owned_by w' (<[this := t']> sh)
       ∧ (Z.of_nat (size (store w)) ≤ SIZE_MAX → Z.of_nat (size (store w')) ≤ SIZE_MAX))
  ∧ (r = Undefined → False)
  ∧ (∀ e, r = Throw e → e = bad_alloc).
Proof.
  intros Hown Hne Ht Hto E.
  pose proof Hown as (Hdom & Hsh & Hdis).
  destruct (Hsh _ _ Ht) as (pt & Hqt & Hroott & Hrept & Hndt & Hsizet).
  destruct (Hsh _ _ Hto) as (po & Hqo & Hrooto & Hrepo & Hndo & Hsizeo).
  pose proof (Hdis _ _ _ _ Hne Ht Hto) as Hxy.
  unfold pq_assign in E. rewrite decide_False in E by done.
  unfold bind at 1 in E. rewrite (get_queue_ok _ _ _ Hqt) in E.
  destruct (clear_spec fuel t w Hrept Hndt) as (w1 & Hq1 & Hn1 & Hout1 & Hsub1 & Hres1).
  rewrite Hroott in E. unfold bind at 1 in E.
  destruct Hres1 as [[Hc1 Hf1]|[Hc1 Hin1]]; rewrite Hc1 in E.
  { injection E as <- <-. split_and!; try done; [by rewrite Hq1|auto|by left]. }
  unfold bind at 1 in E. rewrite (get_queue_ok w1 other po) in E by (by rewrite Hq1).
  assert (Hrepo1 : repr (store w1) to).
  { eapply repr_frame; [exact Hrepo|]. intros b Hb. apply Hout1. intros Hbt.
    by apply (Hxy b). }
  destruct (clonenode_spec fuel to w1 Hrepo1) as (w2 & Hq2 & Hn2 & Hsub2 & Hres2).
  assert (Hfr2 : ∀ a, a ∈ dom (store w) → a ∉ addrs t → store w2 !! a = store w !! a).
  { intros a Ha Hat. apply elem_of_dom in Ha as [n Hn]. rewrite Hn. apply Hsub2.
    by rewrite Hout1. }
  assert (Hsz1 : size (store w) = (size (store w1) + tsize t)%nat).
  { unfold tsize. apply size_store_fresh; [|done|].
    - apply set_eq. intros a. rewrite elem_of_union, elem_of_list_to_set, !elem_of_dom.
      destruct (decide (a ∈ addrs t)) as [Hin|Hnin].
      + split; [by right|]. intros _. apply elem_of_dom.
        exact (repr_addrs_dom _ _ _ Hrept Hin).
      + rewrite Hout1 by done. tauto.
    - intros a Ha. apply not_elem_of_dom. by apply Hin1. }
  rewrite Hrooto in E. unfold bind at 1 in E.
  destruct Hres2 as [[Hc Hf]|[[Hc Hfull]|(t' & Hc & Hrep' & Hnd' & Hsv & Hfresh & Hdom2 & Hb)]];
    rewrite Hc in E.
  { injection E as <- <-. split_and!; try done; [by rewrite Hq2, Hq1|congruence|by right]. }
  { injection E as <- <-. split_and!; try done; [by rewrite Hq2, Hq1|congruence| |by intros e [= <-]].
    intros _. lia. }
  assert (Hq2t : queues w2 !! this = Some pt) by (by rewrite Hq2, Hq1).
  unfold bind at 1 in E. rewrite (set_root_ok _ _ _ _ Hq2t) in E.
  set (w3 := set_queues _ w2) in E.
  unfold bind at 1 in E. rewrite (get_queue_ok w3 other po) in E
    by (subst w3; simpl; rewrite lookup_insert_ne by done; by rewrite Hq2, Hq1).
  rewrite (set_size_ok w3 this (PQ (root t') (size_ pt))) in E
    by (subst w3; simpl; by rewrite lookup_insert_eq).
  injection E as <- <-.
  set (wF := set_queues _ w3).
  assert (HsF : store wF = store w2) by done.
  assert (HnF : cmp_calls wF = cmp_calls w2) by done.
  assert (HqF : queues wF = <[this := PQ (root t') (size_ po)]> (queues w)).
  { subst wF w3. simpl. by rewrite insert_insert_eq, Hq2, Hq1. }
  clearbody wF. rewrite HsF, HqF, HnF.
  split_and!; try done.
  - intros q' Hq'. by rewrite lookup_insert_ne.
  - congruence.
  - intros _. exists t'. split_and!.
    + done.
    + eapply owned_by_insert; [exact Hown|exact HqF|done|by rewrite HsF|done| |].
      * simpl. by rewrite (same_values_tsize _ _ Hsv).
      * intros q' t0 Hq' Ht0.
        assert (Hd0 : ∀ b, b ∈ addrs t0 → b ∉ addrs t).
        { intros b Hb0 Hbt. by eapply (Hdis this q'). }
        split.
        -- intros b Hb' Hb0. apply (Hfresh _ Hb'). apply elem_of_dom.
           rewrite Hout1 by auto. apply elem_of_dom. by eapply owned_by_addrs_dom.
        -- intros b Hb0. rewrite HsF. apply Hfr2; [by eapply owned_by_addrs_dom|auto].
    + intros Hbnd.
      rewrite (size_store_fresh _ _ _ Hdom2 Hnd' Hfresh).
      fold (tsize t'). rewrite (same_values_tsize _ _ Hsv). lia.
Qed.

(** ** The observers *)

Lemma top_unchanged q w : snd (top q w) = w.
Proof.
  unfold top, bind, get_queue. destruct (queues w !! q) as [pq|]; [|done].
  destruct (decide (size_ pq = 0)); [done|]. unfold load.
  destruct (root_ pq) as [a|]; [|done]. by destruct (store w !! a).
Qed.

Lemma pq_size_unchanged q w : snd (pq_size q w) = w.
Proof. unfold pq_size, bind, get_queue. by destruct (queues w !! q). Qed.

Lemma pq_empty_unchanged q w : snd (pq_empty q w) = w.
Proof. unfold pq_empty, bind, get_queue. by destruct (queues w !! q). Qed.

Lemma top_node w sh q a v l r :
  owned_by w sh → sh !! q = Some (Node a v l r) → top q w = (Ok v, w).
Proof.
  intros (_ & Hsh & _) Ht. destruct (Hsh _ _ Ht) as (pq & Hq & Hroot & (Ha & _) & _ & Hsize).
  unfold top, bind. rewrite (get_queue_ok _ _ _ Hq).
  rewrite decide_False; [|rewrite Hsize; unfold tsize; simpl; lia].
  rewrite Hroot. cbn [root]. by rewrite (load_ok _ _ _ Ha).
Qed.

Lemma top_leaf w sh q :
  owned_by w sh → sh !! q = Some Leaf → top q w = (Throw container_is_empty, w).
Proof.
  intros (_ & Hsh & _) Ht. destruct (Hsh _ _ Ht) as (pq & Hq & Hroot & _ & _ & Hsize).
  unfold top, bind. rewrite (get_queue_ok _ _ _ Hq). by rewrite decide_True.
Qed.

(** ** Calls on a queue object that does not exist *)

Lemma pq_copy_ctor_absent fuel q w :
  queues w !! q = None → pq_copy_ctor fuel q w = (Undefined, w).
Proof. intros H. unfold pq_copy_ctor, bind. by rewrite (get_queue_absent _ _ H). Qed.

Lemma pq_dtor_absent fuel q w :
  queues w !! q = None → pq_dtor fuel q w = (Undefined, w).
Proof. intros H. unfold pq_dtor, bind. by rewrite (get_queue_absent _ _ H). Qed.

Lemma top_absent q w : queues w !! q = None → top q w = (Undefined, w).
Proof. intros H. unfold top, bind. by rewrite (get_queue_absent _ _ H). Qed.

Lemma pq_size_absent q w : queues w !! q = None → pq_size q w = (Undefined, w).
Proof. intros H. unfold pq_size, bind. by rewrite (get_queue_absent _ _ H). Qed.

Lemma pq_empty_absent q w : queues w !! q = None → pq_empty q w = (Undefined, w).
Proof. intros H. unfold pq_empty, bind. by rewrite (get_queue_absent _ _ H). Qed.

Lemma pq_assign_absent_this fuel this other w :
  this ≠ other → queues w !! this = None →
  pq_assign fuel this other w = (Undefined, w).
Proof.
  intros Hne H. unfold pq_assign, bind. rewrite decide_False by done.
  by rewrite (get_queue_absent _ _ H).
Qed.

Lemma pq_assign_absent_other fuel this other w sh t r w' :
  owned_by w sh → sh !! this = Some t → queues w !! other = None →
  pq_assign fuel this other w = (r, w') →
  r ≠ Ok tt
  ∧ (∀ q', q' ≠ this → queues w' !! q' = queues w !! q')
  ∧ (∀ a, a ∉ addrs t → store w' !! a = store w !! a).
Proof.
  intros Hown Ht Ho E. pose proof Hown as (Hdom & Hsh & Hdis).
  destruct (Hsh _ _ Ht) as (pt & Hqt & Hroott & Hrept & Hndt & Hsizet).
  unfold pq_assign in E. rewrite decide_False in E by (intros ->; congruence).
  unfold bind at 1 in E. rewrite (get_queue_ok _ _ _ Hqt) in E.
  destruct (clear_spec fuel t w Hrept Hndt) as (w1 & Hq1 & Hn1 & Hout1 & Hsub1 & Hres1).
  rewrite Hroott in E. unfold bind at 1 in E.
  destruct Hres1 as [[Hc1 Hf1]|[Hc1 Hin1]]; rewrite Hc1 in E.
  { injection E as <- <-. split_and!; [done|by rewrite Hq1|done]. }
  unfold bind at 1 in E. rewrite (get_queue_absent w1 other) in E by (by rewrite Hq1).
  injection E as <- <-. split_and!; [done|by rewrite Hq1|done].
Qed.

(** What [top] and [size] return depends on the queue objects and on the
    values held by the nodes only. *)
Lemma top_same_vals q w w' : same_vals w w' → fst (top q w') = fst (top q w).
Proof.
  intros [Hq Hv]. unfold top, bind, get_queue. rewrite Hq.
  destruct (queues w !! q) as [pq|]; [|done].
  destruct (decide (size_ pq = 0)) as [Hz|Hz]; [done|]. unfold load.
  destruct (root_ pq) as [a|]; [|done]. specialize (Hv a).
  destruct (store w !! a) as [m|], (store w' !! a) as [m'|]; simpl in *; try done.
  injection Hv as ->. done.
Qed.

Lemma pq_size_same_vals q w w' : same_vals w w' → fst (pq_size q w') = fst (pq_size q w).
Proof.
  intros [Hq _]. unfold pq_size, bind, get_queue. rewrite Hq.
  by destruct (queues w !! q).
Qed.

(** ** Which exceptions a call can throw *)

Lemma throws_only_ret {A} (E : exn → Prop) (a : A) : throws_only (T:=T) E (ret a).
Proof. intros w e w' H. discriminate H. Qed.

Lemma throws_only_bind {A B} (E : exn → Prop) (m : M T A) (f : A → M T B) :
  throws_only E m → (∀ a, throws_only E (f a)) → throws_only E (bind m f).
Proof.
  intros Hm Hf w e w'. unfold bind.
  destruct (m w) as [[a|e'| |] w1] eqn:Em.
  - apply Hf.
  - intros [= <- <-]. by eapply Hm.
  - discriminate.
  - discriminate.
Qed.

Lemma throws_only_weaken {A} (E E' : exn → Prop) (m : M T A) :
  (∀ e, E e → E' e) → throws_only E m → throws_only E' m.
Proof. intros HE Hm w e w' H. eauto. Qed.

Lemma load_no_throw x : throws_only (T:=T) (λ _, False) (load x).
Proof.
  intros w e w'. unfold load. destruct x as [a|]; [|discriminate].
  destruct (store w !! a); discriminate.
Qed.

Lemma get_queue_no_throw q : throws_only (T:=T) (λ _, False) (get_queue q).
Proof. intros w e w'. unfold get_queue. destruct (queues w !! q); discriminate. Qed.

Lemma store_ls_no_throw x p : throws_only (T:=T) (λ _, False) (store_ls x p).
Proof.
  apply throws_only_bind; [apply load_no_throw|]. intros n.
  destruct x; intros w e w'; discriminate.
Qed.

Lemma store_rs_no_throw x p : throws_only (T:=T) (λ _, False) (store_rs x p).
Proof.
  apply throws_only_bind; [apply load_no_throw|]. intros n.
  destruct x; intros w e w'; discriminate.
Qed.

Lemma delete_node_no_throw x : throws_only (T:=T) (λ _, False) (delete_node x).
Proof.
  apply throws_only_bind; [apply load_no_throw|]. intros n.
  destruct x; intros w e w'; discriminate.
Qed.

Lemma set_root_no_throw q p : throws_only (T:=T) (λ _, False) (set_root q p).
Proof.
  apply throws_only_bind; [apply get_queue_no_throw|]. intros n w e w'. discriminate.
Qed.

Lemma set_size_no_throw q n : throws_only (T:=T) (λ _, False) (set_size q n).
Proof.
  apply throws_only_bind; [apply get_queue_no_throw|]. intros pq w e w'. discriminate.
Qed.

Lemma pq_size_ok w q pq : queues w !! q = Some pq → pq_size q w = (Ok (size_ pq), w).
Proof. intros H. unfold pq_size, bind. by rewrite (get_queue_ok _ _ _ H). Qed.

Lemma pq_empty_ok w q pq :
  queues w !! q = Some pq → pq_empty q w = (Ok (bool_decide (size_ pq = 0)), w).
Proof. intros H. unfold pq_empty, bind. by rewrite (get_queue_ok _ _ _ H). Qed.

(** ** The nodes reached from a root *)

(** On a tree, the nodes reached from the root are the nodes of the tree. *)
Lemma reachable_nodes_repr fuel : ∀ s t,
  repr s t → (tsize t < fuel)%nat →
  reachable_nodes fuel s (root t) = list_to_set (addrs t).
Proof.
  induction fuel as [|fuel IH]; intros s t Hrep Hf; [lia|].
  destruct t as [|a v l r]; [done|].
  destruct Hrep as (Ha & Hl & Hr). unfold tsize in Hf. simpl in Hf.
  rewrite length_app in Hf. simpl. rewrite Ha. simpl.
  rewrite (IH s l), (IH s r) by (try done; unfold tsize; lia).
  rewrite list_to_set_app_L. set_solver.
Qed.

(** Size consistency of a well-formed state: [size_] counts the nodes
    reached from [root_], and [root_] is absent exactly when [size_] is
    0. *)
Lemma wf_world_size_consistent w q pq fuel :
  wf_world w → queues w !! q = Some pq →
  (Z.to_nat (size_ pq) < fuel)%nat →
  size_ pq = Z.of_nat (size (reachable_nodes fuel (store w) (root_ pq)))
  ∧ (root_ pq = None ↔ size_ pq = 0).
Proof.
  intros [[sh Hown] _] Hq Hf.
  destruct (owned_by_queue _ _ _ _ Hown Hq) as (t & Ht & Hroot & Hrep & Hnd & Hsize).
  rewrite Hroot, Hsize. rewrite Hsize, Nat2Z.id in Hf. split.
  - rewrite (reachable_nodes_repr _ _ _ Hrep Hf).
    by rewrite size_list_to_set.
  - destruct t as [|a v l r]; [done|]. unfold tsize. simpl. split; [done|lia].
Qed.

End memory_facts.

(** ** The recursive merge *)

Section merge_facts.

Context {T : Type} (Compare : T → T → option bool).

Implicit Types (w : world T) (t : shape (T:=T)) (s : gmap positive (heapnode T)).

Lemma merge_shape_addrs fuel tx ty t' :
  merge_shape Compare fuel tx ty = Ok t' → addrs t' ≡ₚ addrs tx ++ addrs ty.
Proof.
  revert tx ty t'. induction fuel as [|fuel IH]; intros tx ty t'; simpl; [done|].
  destruct tx as [|ax vx lx rx]; [intros [= ->]; done|].
  destruct ty as [|ay vy ly ry]; [intros [= <-]; by rewrite app_nil_r|].
  destruct (Compare vx vy) as [[]|]; [| |done].
  - destruct (merge_shape Compare fuel ry (Node ax vx lx rx)) as [t| | |] eqn:E; simpl; try done.
    intros [= <-]. apply IH in E. simpl in *. rewrite E. simpl.
    solve_Permutation.
  - destruct (merge_shape Compare fuel rx (Node ay vy ly ry)) as [t| | |] eqn:E; simpl; try done.
    intros [= <-]. apply IH in E. simpl in *. rewrite E. simpl.
    solve_Permutation.
Qed.

Lemma merge_shape_elems fuel tx ty t' :
  merge_shape Compare fuel tx ty = Ok t' → elems t' ≡ₚ elems tx ++ elems ty.
Proof.
  revert tx ty t'. induction fuel as [|fuel IH]; intros tx ty t'; simpl; [done|].
  destruct tx as [|ax vx lx rx]; [intros [= ->]; done|].
  destruct ty as [|ay vy ly ry]; [intros [= <-]; by rewrite app_nil_r|].
  destruct (Compare vx vy) as [[]|]; [| |done].
  - destruct (merge_shape Compare fuel ry (Node ax vx lx rx)) as [t| | |] eqn:E; simpl; try done.
    intros [= <-]. apply IH in E. simpl in *. rewrite E. simpl.
    solve_Permutation.
  - destruct (merge_shape Compare fuel rx (Node ay vy ly ry)) as [t| | |] eqn:E; simpl; try done.
    intros [= <-]. apply IH in E. simpl in *. rewrite E. simpl.
    solve_Permutation.
Qed.

Lemma merge_shape_tsize fuel tx ty t' :
  merge_shape Compare fuel tx ty = Ok t' → tsize t' = (tsize tx + tsize ty)%nat.
Proof.
  intros H%merge_shape_addrs. unfold tsize. by rewrite H, length_app.
Qed.

(** The recursion budget is never the limit once it exceeds the number of
    nodes. *)
Lemma merge_shape_fuel fuel tx ty :
  (tsize tx + tsize ty < fuel)%nat →
  merge_shape Compare fuel tx ty ≠ OutOfFuel
  ∧ merge_shape Compare fuel tx ty ≠ Undefined
  ∧ ∀ e, merge_shape Compare fuel tx ty = Throw e → e = compare_exn.
Proof.
  revert tx ty. induction fuel as [|fuel IH]; intros tx ty Hf; [lia|].
  simpl. destruct tx as [|ax vx lx rx]; [done|].
  destruct ty as [|ay vy ly ry]; [done|].
  unfold tsize in *. simpl in Hf. rewrite !length_app in Hf. simpl in Hf.
  destruct (Compare vx vy) as [[]|].
  - destruct (IH ry (Node ax vx lx rx)) as (H1 & H2 & H3).
    { unfold tsize. simpl. rewrite length_app. lia. }
    destruct (merge_shape Compare fuel ry _); simpl; split_and!; done.
  - destruct (IH rx (Node ay vy ly ry)) as (H1 & H2 & H3).
    { unfold tsize. simpl. rewrite length_app. lia. }
    destruct (merge_shape Compare fuel rx _); simpl; split_and!; done.
  - split_and!; try done. by intros e [= <-].
Qed.

(** A predicate that returns on every pair of elements makes the merge
    return. *)
Lemma merge_shape_total fuel tx ty :
  (tsize tx + tsize ty < fuel)%nat →
  (∀ a b, a ∈ elems tx ++ elems ty → b ∈ elems tx ++ elems ty → Compare a b ≠ None) →
  ∃ t', merge_shape Compare fuel tx ty = Ok t'.
Proof.
  revert tx ty. induction fuel as [|fuel IH]; intros tx ty Hf Hc; [lia|].
  simpl. destruct tx as [|ax vx lx rx]; [eauto|].
  destruct ty as [|ay vy ly ry]; [eauto|].
  unfold tsize in *. simpl in Hf. rewrite !length_app in Hf. simpl in Hf.
  destruct (Compare vx vy) as [[]|] eqn:E.
  - destruct (IH ry (Node ax vx lx rx)) as [t' Ht'].
    { unfold tsize. simpl. rewrite length_app. lia. }
    { intros a b Ha Hb. apply Hc; simpl in *; set_solver. }
    rewrite Ht'. simpl. eauto.
  - destruct (IH rx (Node ay vy ly ry)) as [t' Ht'].
    { unfold tsize. simpl. rewrite length_app. lia. }
    { intros a b Ha Hb. apply Hc; simpl in *; set_solver. }
    rewrite Ht'. simpl. eauto.
  - exfalso. eapply (Hc vx vy); simpl; [set_solver..|done].
Qed.

Section order.

Variable lt : T → T → bool.
Hypothesis Compare_lt : ∀ a b r, Compare a b = Some r → r = lt a b.
Hypothesis lt_asym : ∀ a b, lt a b = true → lt b a = false.

Lemma merge_shape_heap_ordered fuel tx ty t' :
  heap_ordered lt tx → heap_ordered lt ty →
  merge_shape Compare fuel tx ty = Ok t' →
  heap_ordered lt t'
  ∧ ∀ v, related_to_root (λ p c, lt p c = false) v tx →
         related_to_root (λ p c, lt p c = false) v ty →
         related_to_root (λ p c, lt p c = false) v t'.
Proof using Compare_lt lt_asym.
  revert tx ty t'. induction fuel as [|fuel IH]; intros tx ty t' Hx Hy; simpl; [done|].
  destruct tx as [|ax vx lx rx]; [intros [= ->]; done|].
  destruct ty as [|ay vy ly ry]; [intros [= <-]; done|].
  destruct Hx as (Hxl & Hxr & Hlx & Hrx). destruct Hy as (Hyl & Hyr & Hly & Hry).
  destruct (Compare vx vy) as [[]|] eqn:E; [| |done].
  - apply Compare_lt in E. symmetry in E. apply lt_asym in E.
    destruct (merge_shape Compare fuel ry (Node ax vx lx rx)) as [t| | |] eqn:Em; simpl; try done.
    intros [= <-]. apply IH in Em as [Ht Hroot]; [|done|by repeat split].
    split; [|done]. repeat split; try done. by apply Hroot.
  - apply Compare_lt in E. symmetry in E.
    destruct (merge_shape Compare fuel rx (Node ay vy ly ry)) as [t| | |] eqn:Em; simpl; try done.
    intros [= <-]. apply IH in Em as [Ht Hroot]; [|done|by repeat split].
    split; [|done]. repeat split; try done. by apply Hroot.
Qed.

End order.

Lemma merge_refines fuel : ∀ tx ty w,
  repr (store w) tx → repr (store w) ty → NoDup (addrs tx ++ addrs ty) →
  ∃ w', merge Compare fuel (root tx) (root ty) w
          = (map_result root (merge_shape Compare fuel tx ty), w')
    ∧ queues w' = queues w
    ∧ dom (store w') = dom (store w)
    ∧ (∀ a, a ∉ addrs tx ++ addrs ty → store w' !! a = store w !! a)
    ∧ (∀ t', merge_shape Compare fuel tx ty = Ok t' → repr (store w') t').
Proof.
  induction fuel as [|fuel IH]; intros tx ty w Hx Hy Hnd.
  { exists w. simpl. split_and!; done. }
  destruct tx as [|ax vx lx rx].
  { exists w. simpl. split_and!; try done. by intros t' [= <-]. }
  destruct ty as [|ay vy ly ry].
  { exists w. simpl. split_and!; try done. by intros t' [= <-]. }
  (* the step taken once the winner is known *)
  assert (Hstep : ∀ a v l r ty w0,
    store w0 !! a = Some (Heapnode v (root l) (root r)) →
    repr (store w0) l → repr (store w0) r → repr (store w0) ty →
    NoDup (a :: addrs l ++ addrs r ++ addrs ty) →
    ∃ w', (let* nx := load (Some a) in
           do store_rs (Some a) (ls nx) in
           let* r := merge Compare fuel (rs nx) (root ty) in
           do store_ls (Some a) r in
           ret (Some a)) w0
          = (map_result root (map_result (λ t, Node a v t l)
                                (merge_shape Compare fuel r ty)), w')
      ∧ queues w' = queues w0
      ∧ dom (store w') = dom (store w0)
      ∧ (∀ b, b ∉ a :: addrs l ++ addrs r ++ addrs ty → store w' !! b = store w0 !! b)
      ∧ (∀ t', map_result (λ t, Node a v t l) (merge_shape Compare fuel r ty) = Ok t' →
               repr (store w') t')).
  { clear -IH. intros a v l r ty w Ha Hl Hr Hy Hnd.
    apply NoDup_cons in Hnd as [Hnotin Hnd].
    unfold bind at 1. rewrite (load_ok _ _ _ Ha). cbn [val ls rs].
    unfold bind at 1. rewrite (store_rs_ok _ _ _ _ Ha). cbn [val ls rs].
    set (w1 := set_store _ w).
    assert (Hfr1 : ∀ b, b ≠ a → store w1 !! b = store w !! b).
    { intros b Hb. subst w1. simpl. by rewrite lookup_insert_ne. }
    destruct (IH r ty w1) as (w2 & Hm & Hq & Hd & Hfr & Hrep).
    { eapply repr_frame; [exact Hr|]. intros b Hb. apply Hfr1. set_solver. }
    { eapply repr_frame; [exact Hy|]. intros b Hb. apply Hfr1. set_solver. }
    { by apply NoDup_app in Hnd as (_ & _ & ?). }
    unfold bind at 1. rewrite Hm.
    destruct (merge_shape Compare fuel r ty) as [t| | |] eqn:E; cbn [map_result].
    2-4: exists w2; split; [done|]; split_and!;
      [done
      |rewrite Hd; subst w1; simpl; by eapply dom_insert_present
      |intros b Hb; rewrite Hfr; [apply Hfr1|]; set_solver
      |done].
    assert (Ha2 : store w2 !! a = Some (Heapnode v (root l) (root l))).
    { rewrite Hfr; [|set_solver]. subst w1. simpl. by rewrite lookup_insert_eq. }
    unfold bind at 1. rewrite (store_ls_ok _ _ _ _ Ha2). cbn [val ls rs].
    unfold ret. eexists. split; [reflexivity|]. simpl. split_and!.
    - done.
    - rewrite (dom_insert_present _ _ _ _ Ha2), Hd. subst w1. simpl.
      by eapply dom_insert_present.
    - intros b Hb. rewrite lookup_insert_ne by set_solver.
      rewrite Hfr; [apply Hfr1|]; set_solver.
    - intros t' [= <-]. simpl. split_and!.
      + by rewrite lookup_insert_eq.
      + eapply repr_frame; [by apply Hrep|]. intros b Hb.
        rewrite lookup_insert_ne; [done|].
        apply merge_shape_addrs in E. rewrite E in Hb. set_solver.
      + eapply repr_frame; [exact Hl|]. intros b Hb.
        assert (b ≠ a) by set_solver.
        rewrite lookup_insert_ne by done.
        rewrite Hfr; [by apply Hfr1|].
        apply NoDup_app in Hnd as (_ & Hdis & _). intros Hin. by eapply Hdis. }
  pose proof Hx as (Hax & Hlx & Hrx). pose proof Hy as (Hay & Hly & Hry).
  cbn [merge merge_shape root]. unfold bind at 1. unfold load at 1. rewrite Hax.
  unfold bind at 1. unfold load at 1. rewrite Hay.
  unfold bind at 1. unfold compare at 1. cbn [val].
  destruct (Compare vx vy) as [[]|].
  3:{ eexists. split; [reflexivity|]. simpl. split_and!; done. }
  - set (w0 := World _ _ _).
    destruct (Hstep ay vy ly ry (Node ax vx lx rx) w0) as (w' & Hm & Hq & Hd & Hfr & Hrep); try done.
    { simpl in *. apply NoDup_ListNoDup. apply NoDup_ListNoDup in Hnd.
      eapply Permutation_NoDup; [|exact Hnd]. solve_Permutation. }
    exists w'. split; [exact Hm|]. split_and!; try done.
    intros b Hb. rewrite Hfr; [done|]. simpl in *. set_solver.
  - set (w0 := World _ _ _).
    destruct (Hstep ax vx lx rx (Node ay vy ly ry) w0) as (w' & Hm & Hq & Hd & Hfr & Hrep); try done.
    { simpl in *. by rewrite <- app_assoc in Hnd. }
    exists w'. split; [exact Hm|]. split_and!; try done.
    intros b Hb. rewrite Hfr; [done|]. simpl in *. rewrite <- app_assoc in Hb. done.
Qed.

Lemma compare_same_state a b : preserves same_state (compare Compare a b).
Proof.
  intros w r w'. unfold compare. destruct (Compare a b); by intros [= <- <-].
Qed.

(** [merge] relinks nodes and does nothing else: whatever its outcome, no
    value moves and no queue object changes. *)
Lemma merge_same_vals fuel : ∀ x y, preserves same_vals (merge Compare fuel x y).
Proof.
  induction fuel as [|fuel IH]; intros x y; simpl.
  { by apply preserves_fail. }
  destruct x as [ax|]; [|by apply preserves_ret].
  destruct y as [ay|]; [|by apply preserves_ret].
  apply preserves_bind; [apply _|eapply preserves_weaken, load_same_state; apply same_state_vals|].
  intros nx.
  apply preserves_bind; [apply _|eapply preserves_weaken, load_same_state; apply same_state_vals|].
  intros ny.
  apply preserves_bind; [apply _|eapply preserves_weaken, compare_same_state; apply same_state_vals|].
  intros c. destruct c.
  all: apply preserves_bind; [apply _|eapply preserves_weaken, load_same_state; apply same_state_vals|];
    intros nx'.
  all: apply preserves_bind; [apply _|apply store_rs_same_vals|]; intros _.
  all: apply preserves_bind; [apply _|apply IH|]; intros r.
  all: apply preserves_bind; [apply _|apply store_ls_same_vals|]; intros _.
  all: by apply preserves_ret.
Qed.

(** The recursive merge itself returns the other tree when one is absent,
    without a comparison and without touching the state. *)
Lemma merge_absent fuel x y w :
  x = None ∨ y = None →
  merge Compare (S fuel) x y w = (Ok (if x is None then y else x), w).
Proof. intros [->| ->]; [done|]. by destruct x. Qed.

End merge_facts.

(** ** The public interface on well-formed states *)

Section interface_facts.

Context {T : Type} (Compare : T → T → option bool).

Implicit Types (w : world T) (t : shape (T:=T)) (s : gmap positive (heapnode T)).

(** ** [push] *)

Lemma push_spec fuel q e w sh t r w' :
  owned_by w sh → sh !! q = Some t →
  push Compare fuel q e w = (r, w') →
  (∀ q', q' ≠ q → queues w' !! q' = queues w !! q')
  ∧ (∀ a, a ∈ dom (store w) → a ∉ addrs t → store w' !! a = store w !! a)
  ∧ (r = Ok tt →
     ∃ c t', (c ∉ dom (store w))
       ∧ merge_shape Compare fuel t (Node c e Leaf Leaf) = Ok t'
       ∧ owned_by w' (<[q := t']> sh)
       ∧ dom (store w') = {[c]} ∪ dom (store w)
       ∧ Z.of_nat (size (store w)) < SIZE_MAX).
Proof.
  intros Hown Ht E.
  pose proof Hown as (Hdom & Hsh & Hdis).
  destruct (Hsh _ _ Ht) as (pq & Hq & Hroot & Hrep & Hnd & Hsize).
  unfold push in E. unfold bind at 1 in E.
  destruct (decide (Z.of_nat (size (store w)) < SIZE_MAX)) as [Hroom|Hfull].
  2:{ rewrite (new_heapnode_full _ _ Hfull) in E. injection E as <- <-. done. }
  rewrite (new_heapnode_ok _ _ Hroom) in E.
  set (c := fresh (dom (store w))) in *.
  assert (Hc : c ∉ dom (store w)) by apply is_fresh.
  set (w1 := set_store _ w) in E.
  assert (Hsub1 : ∀ b n, store w !! b = Some n → store w1 !! b = Some n).
  { intros b n Hb. subst w1. simpl. rewrite lookup_insert_ne; [done|].
    intros <-. apply Hc. apply elem_of_dom. eauto. }
  assert (Hfr1 : ∀ b, b ∈ dom (store w) → store w1 !! b = store w !! b).
  { intros b Hb. subst w1. simpl. rewrite lookup_insert_ne; [done|]. by intros <-. }
  assert (Hct : c ∉ addrs t).
  { intros Hin. apply Hc. by eapply repr_addrs_dom. }
  destruct (merge_refines Compare fuel t (Node c e Leaf Leaf) w1)
    as (w2 & Hm & Hq2 & Hd2 & Hfr2 & Hrep2).
  { eapply repr_mono; eauto. }
  { simpl. split_and!; try done. subst w1. simpl. by rewrite lookup_insert_eq. }
  { simpl. apply NoDup_app. split_and!; [done| |apply NoDup_singleton].
    intros b Hb Hbc. apply list_elem_of_singleton in Hbc as ->. done. }
  assert (Hfr12 : ∀ a, a ∈ dom (store w) → a ∉ addrs t → store w2 !! a = store w !! a).
  { intros a Ha Hat. rewrite Hfr2, Hfr1; [done..|]. simpl. set_solver. }
  unfold try_catch_rethrow in E. unfold bind at 1 in E.
  rewrite (get_queue_ok w1 q pq) in E by done.
  unfold bind at 1 in E. rewrite <- Hroot in Hm. cbn [root] in Hm. rewrite Hm in E.
  destruct (merge_shape Compare fuel t (Node c e Leaf Leaf)) as [t'|ex| |] eqn:Ems;
    cbn [map_result] in E.
  - (* the merge returned *)
    assert (Hq2' : queues w2 !! q = Some pq) by (by rewrite Hq2).
    unfold bind at 1 in E. rewrite (set_root_ok _ _ _ _ Hq2') in E.
    set (w3 := set_queues _ w2) in E.
    unfold bind at 1 in E. rewrite (get_queue_ok w3 q (PQ (root t') (size_ pq))) in E
      by (subst w3; simpl; by rewrite lookup_insert_eq).
    rewrite (set_size_ok w3 q (PQ (root t') (size_ pq))) in E
      by (subst w3; simpl; by rewrite lookup_insert_eq).
    injection E as <- <-.
    set (wF := set_queues _ w3).
    assert (HsF : store wF = store w2) by done.
    assert (HqF : queues wF = <[q := PQ (root t') (wrap (size_ pq + 1))]> (queues w)).
    { subst wF w3. simpl. by rewrite insert_insert_eq, Hq2. }
    clearbody wF. rewrite HsF, HqF.
    split_and!.
    + intros q' Hq'. by rewrite lookup_insert_ne.
    + done.
    + intros _. exists c, t'. split_and!; try done.
      * pose proof (merge_shape_addrs _ _ _ _ _ Ems) as Haddrs.
        pose proof (merge_shape_tsize _ _ _ _ _ Ems) as Hts.
        pose proof (tsize_le_size _ _ Hrep Hnd) as Hle.
        eapply owned_by_insert; [exact Hown|exact HqF|done|rewrite HsF; by apply Hrep2| | |].
        -- rewrite Haddrs. simpl. apply NoDup_app. split_and!; [done| |apply NoDup_singleton].
           intros b Hb Hbc. apply list_elem_of_singleton in Hbc as ->. done.
        -- simpl. rewrite Hts, Hsize.
           change (tsize (Node c e Leaf Leaf)) with 1%nat.
           rewrite wrap_small; lia.
        -- intros q' t0 Hq' Ht0. split.
           ++ intros a Ha Ha0. rewrite Haddrs in Ha. simpl in Ha.
              apply elem_of_app in Ha as [Ha|Ha].
              ** by eapply (Hdis q q').
              ** apply list_elem_of_singleton in Ha as ->. apply Hc.
                 by eapply owned_by_addrs_dom.
           ++ intros a Ha. rewrite HsF. apply Hfr12; [by eapply owned_by_addrs_dom|].
              intros Hat. by eapply (Hdis q q').
      * rewrite Hd2. subst w1. simpl. by rewrite dom_insert_L.
  - (* the predicate threw: the new node is deleted *)
    assert (Hc2 : is_Some (store w2 !! c)).
    { apply elem_of_dom. rewrite Hd2. subst w1. simpl. rewrite dom_insert_L. set_solver. }
    destruct Hc2 as [n Hc2]. unfold bind at 1 in E.
    rewrite (delete_node_ok _ _ _ Hc2) in E. unfold throw in E. injection E as <- <-.
    simpl. split_and!; [by rewrite Hq2| |done].
    intros a Ha Hat. rewrite lookup_delete_ne; [by apply Hfr12|]. by intros <-.
  - injection E as <- <-. split_and!; [by rewrite Hq2|done|done].
  - injection E as <- <-. split_and!; [by rewrite Hq2|done|done].
Qed.

(** ** [pop] *)

Lemma pop_spec fuel q w sh t r w' :
  owned_by w sh → Z.of_nat (size (store w)) ≤ SIZE_MAX → sh !! q = Some t →
  pop Compare fuel q w = (r, w') →
  (∀ q', q' ≠ q → queues w' !! q' = queues w !! q')
  ∧ (∀ a, a ∉ addrs t → store w' !! a = store w !! a)
  ∧ (r = Ok tt →
     ∃ a v l r0 t', t = Node a v l r0
       ∧ merge_shape Compare fuel l r0 = Ok t'
       ∧ owned_by w' (<[q := t']> sh)
       ∧ dom (store w') = dom (store w) ∖ {[a]}).
Proof.
  intros Hown Hbound Ht E.
  pose proof Hown as (Hdom & Hsh & Hdis).
  destruct (Hsh _ _ Ht) as (pq & Hq & Hroot & Hrep & Hnd & Hsize).
  unfold pop in E. unfold bind at 1 in E. rewrite (get_queue_ok _ _ _ Hq) in E.
  destruct (decide (size_ pq = 0)) as [Hz|Hnz].
  { injection E as <- <-. done. }
  destruct t as [|a v l r0].
  { exfalso. apply Hnz. by rewrite Hsize. }
  destruct Hrep as (Ha & Hl & Hr). simpl in Hnd.
  apply NoDup_cons in Hnd as [Hal Hnd].
  rewrite Hroot in E. cbn [root] in E.
  unfold bind at 1 in E. rewrite (load_ok _ _ _ Ha) in E. cbn [ls rs] in E.
  destruct (merge_refines Compare fuel l r0 w) as (w2 & Hm & Hq2 & Hd2 & Hfr2 & Hrep2);
    [done..|].
  assert (Hfr : ∀ b, b ∉ addrs (Node a v l r0) → store w2 !! b = store w !! b).
  { intros b Hb. apply Hfr2. simpl in Hb. set_solver. }
  unfold bind at 1 in E. rewrite Hm in E.
  destruct (merge_shape Compare fuel l r0) as [t'|ex| |] eqn:Ems; cbn [map_result] in E.
  2-4: injection E as <- <-; split_and!; [by rewrite Hq2|done|done].
  assert (Hq2' : queues w2 !! q = Some pq) by (by rewrite Hq2).
  unfold bind at 1 in E. rewrite (set_root_ok _ _ _ _ Hq2') in E.
  set (w3 := set_queues _ w2) in E.
  assert (Ha3 : store w3 !! a = Some (Heapnode v (root l) (root r0))).
  { subst w3. simpl. rewrite Hfr2; [done|]. done. }
  unfold bind at 1 in E. rewrite (delete_node_ok _ _ _ Ha3) in E.
  set (w4 := set_store _ w3) in E.
  unfold bind at 1 in E. rewrite (get_queue_ok w4 q (PQ (root t') (size_ pq))) in E
    by (subst w4 w3; simpl; by rewrite lookup_insert_eq).
  rewrite (set_size_ok w4 q (PQ (root t') (size_ pq))) in E
    by (subst w4 w3; simpl; by rewrite lookup_insert_eq).
  injection E as <- <-.
  set (wF := set_queues _ w4).
  assert (HsF : store wF = delete a (store w2)) by done.
  assert (HqF : queues wF = <[q := PQ (root t') (wrap (size_ pq - 1))]> (queues w)).
  { subst wF w4 w3. simpl. by rewrite insert_insert_eq, Hq2. }
  clearbody wF. rewrite HsF, HqF.
  pose proof (merge_shape_addrs _ _ _ _ _ Ems) as Haddrs.
  pose proof (merge_shape_tsize _ _ _ _ _ Ems) as Hts.
  assert (Hat' : a ∉ addrs t') by (by rewrite Haddrs).
  split_and!.
  - intros q' Hq'. by rewrite lookup_insert_ne.
  - intros b Hb. rewrite lookup_delete_ne by set_solver. by apply Hfr.
  - intros _. exists a, v, l, r0, t'. split_and!; try done.
    + assert (Hle : (tsize (Node a v l r0) ≤ size (store w))%nat).
      { apply tsize_le_size; [done|]. simpl. by apply NoDup_cons. }
      assert (Hts1 : tsize (Node a v l r0) = S (tsize l + tsize r0)).
      { unfold tsize. simpl. by rewrite length_app. }
      eapply owned_by_insert; [exact Hown|exact HqF|done| | | |].
      * rewrite HsF. eapply repr_frame; [by apply Hrep2|].
        intros b Hb. rewrite lookup_delete_ne; [done|]. by intros <-.
      * by rewrite Haddrs.
      * simpl. rewrite Hts, Hsize, Hts1. rewrite wrap_small; lia.
      * intros q' t0 Hq' Ht0. split.
        -- intros b Hb Hb0. rewrite Haddrs in Hb.
           eapply (Hdis q q'); [done..| |exact Hb0]. simpl. set_solver.
        -- intros b Hb. rewrite HsF.
           assert (b ∉ addrs (Node a v l r0)).
           { intros Hin. by eapply (Hdis q q'). }
           rewrite lookup_delete_ne; [by apply Hfr|]. intros <-. set_solver.
    + by rewrite dom_delete_L, Hd2.
Qed.

(** ** [merge] of two queues *)

Lemma pq_merge_self fuel q w : pq_merge Compare fuel q q w = (Ok tt, w).
Proof. unfold pq_merge. by rewrite decide_True. Qed.

Lemma pq_merge_spec fuel this other w sh tx ty r w' :
  owned_by w sh → Z.of_nat (size (store w)) ≤ SIZE_MAX →
  this ≠ other → sh !! this = Some tx → sh !! other = Some ty →
  pq_merge Compare fuel this other w = (r, w') →
  (∀ q', q' ≠ this → q' ≠ other → queues w' !! q' = queues w !! q')
  ∧ (∀ a, a ∉ addrs tx ++ addrs ty → store w' !! a = store w !! a)
  ∧ dom (store w') = dom (store w)
  ∧ (r = Ok tt →
     ∃ t', tx ≠ Leaf ∧ ty ≠ Leaf
       ∧ merge_shape Compare fuel tx ty = Ok t'
       ∧ owned_by w' (<[this := t']> (<[other := Leaf]> sh))).
Proof.
  intros Hown Hbound Hne Htx Hty E.
  pose proof Hown as (Hdom & Hsh & Hdis).
  destruct (Hsh _ _ Htx) as (pt & Hqt & Hroott & Hrepx & Hndx & Hsizet).
  destruct (Hsh _ _ Hty) as (po & Hqo & Hrooto & Hrepy & Hndy & Hsizeo).
  pose proof (Hdis _ _ _ _ Hne Htx Hty) as Hxy.
  unfold pq_merge in E. rewrite decide_False in E by done.
  unfold try_catch_rethrow in E.
  unfold bind at 1 in E. rewrite (get_queue_ok _ _ _ Hqt) in E.
  unfold bind at 1 in E. rewrite (get_queue_ok _ _ _ Hqo) in E.
  destruct tx as [|ax vx lx rx].
  { rewrite Hroott in E. simpl in E. by injection E as <- <-. }
  destruct ty as [|ay vy ly ry].
  { rewrite Hroott, Hrooto in E. cbn [root] in E. destruct Hrepx as (Hax & _).
    unfold bind at 1 in E. rewrite (load_ok _ _ _ Hax) in E. simpl in E.
    by injection E as <- <-. }
  pose proof Hrepx as (Hax & _). pose proof Hrepy as (Hay & _).
  rewrite Hroott, Hrooto in E. cbn [root] in E.
  unfold bind at 1 in E. rewrite (load_ok _ _ _ Hax) in E.
  unfold bind at 1 in E. rewrite (load_ok _ _ _ Hay) in E. cbn [val root] in E.
  unfold bind at 1 in E. unfold compare at 1 in E.
  destruct (Compare vx vy) as [c|].
  2:{ unfold bind, ret, throw in E. by injection E as <- <-. }
  set (w1 := World _ _ _) in E.
  destruct (merge_refines Compare fuel (Node ax vx lx rx) (Node ay vy ly ry) w1)
    as (w2 & Hm & Hq2 & Hd2 & Hfr2 & Hrep2); [done|done| |].
  { apply NoDup_app. split_and!; [done| |done]. intros b Hb1 Hb2. by apply (Hxy b). }
  cbn [root] in Hm. unfold bind at 1 in E. rewrite Hm in E.
  destruct (merge_shape Compare fuel (Node ax vx lx rx) (Node ay vy ly ry))
    as [t'|ex| |] eqn:Ems; cbn [map_result] in E.
  2:{ unfold bind, ret, throw in E. injection E as <- <-.
      split_and!; [intros; by rewrite Hq2|done|done|done]. }
  2-3: injection E as <- <-; split_and!; [intros; by rewrite Hq2|done|done|done].
  assert (Hq2t : queues w2 !! this = Some pt) by (by rewrite Hq2).
  unfold bind at 1 in E. rewrite (set_root_ok _ _ _ _ Hq2t) in E.
  set (w3 := set_queues _ w2) in E.
  unfold bind at 1 in E. rewrite (get_queue_ok w3 this (PQ (root t') (size_ pt))) in E
    by (subst w3; simpl; by rewrite lookup_insert_eq).
  unfold bind at 1 in E. rewrite (get_queue_ok w3 other po) in E
    by (subst w3; simpl; rewrite lookup_insert_ne by done; by rewrite Hq2).
  unfold bind at 1 in E.
  rewrite (set_size_ok w3 this (PQ (root t') (size_ pt))) in E
    by (subst w3; simpl; by rewrite lookup_insert_eq).
  set (w4 := set_queues _ w3) in E. cbn [root_ size_] in w4.
  unfold bind at 1 in E. rewrite (set_root_ok w4 other po) in E
    by (subst w4 w3; simpl; rewrite !lookup_insert_ne by done; by rewrite Hq2).
  set (w5 := set_queues _ w4) in E.
  rewrite (set_size_ok w5 other (PQ None (size_ po))) in E
    by (subst w5; simpl; by rewrite lookup_insert_eq).
  injection E as <- <-.
  set (wF := set_queues _ w5).
  assert (HsF : store wF = store w2) by done.
  assert (HqF : queues wF
    = <[this := PQ (root t') (wrap (size_ pt + size_ po))]>
        (<[other := PQ None 0]> (queues w))).
  { subst wF w5 w4 w3. simpl. rewrite !insert_insert_eq, Hq2. simpl.
    by rewrite insert_insert_ne. }
  clearbody wF. rewrite HsF, HqF.
  pose proof (merge_shape_addrs _ _ _ _ _ Ems) as Haddrs.
  pose proof (merge_shape_tsize _ _ _ _ _ Ems) as Hts.
  split_and!.
  - intros q' Hq1 Hq2'. by rewrite !lookup_insert_ne.
  - done.
  - done.
  - intros _. exists t'. split_and!; try done.
    set (wI := World (store w) (<[other := PQ None 0]> (queues w)) (cmp_calls w)).
    assert (HownI : owned_by wI (<[other := Leaf]> sh)).
    { eapply owned_by_insert; [exact Hown|done|done|done|constructor|done|].
      intros q' t0 _ _. split; [|done]. intros b Hb. simpl in Hb. set_solver. }
    assert (Hle : (length (addrs (Node ax vx lx rx) ++ addrs (Node ay vy ly ry))
                   ≤ size (store w))%nat).
    { apply addrs_le_size.
      - apply NoDup_app. split_and!; [done| |done]. intros b Hb1 Hb2. by apply (Hxy b).
      - intros b Hb. apply elem_of_app in Hb as [Hb|Hb];
          [exact (repr_addrs_dom _ _ _ Hrepx Hb)|exact (repr_addrs_dom _ _ _ Hrepy Hb)]. }
    eapply (owned_by_insert wI); [exact HownI|exact HqF|done|rewrite HsF; by apply Hrep2| | |].
    + rewrite Haddrs. apply NoDup_app. split_and!; [done| |done].
      intros b Hb1 Hb2. by apply (Hxy b).
    + simpl. rewrite Hts, Hsizet, Hsizeo. rewrite length_app in Hle. unfold tsize in *.
      rewrite wrap_small; lia.
    + intros q' t0 Hq' Ht0. destruct (decide (q' = other)) as [->|Hqo'].
      { rewrite lookup_insert_eq in Ht0. injection Ht0 as <-.
        split; intros b; simpl; set_solver. }
      rewrite lookup_insert_ne in Ht0 by done. split.
      * intros b Hb Hb0. rewrite Haddrs in Hb. apply elem_of_app in Hb as [Hb|Hb].
        -- by eapply (Hdis this q').
        -- by eapply (Hdis other q').
      * intros b Hb. rewrite HsF. simpl. rewrite Hfr2; [done|].
        intros Hin. apply elem_of_app in Hin as [Hin|Hin].
        -- by eapply (Hdis this q').
        -- by eapply (Hdis other q').
Qed.

Lemma push_absent fuel q e w r w' :
  queues w !! q = None → push Compare fuel q e w = (r, w') →
  r ≠ Ok tt ∧ queues w' = queues w
  ∧ (∀ a n, store w !! a = Some n → store w' !! a = Some n).
Proof.
  intros H E. unfold push in E. unfold bind at 1 in E.
  destruct (decide (Z.of_nat (size (store w)) < SIZE_MAX)) as [Hroom|Hfull].
  2:{ rewrite (new_heapnode_full _ _ Hfull) in E. by injection E as <- <-. }
  rewrite (new_heapnode_ok _ _ Hroom) in E.
  unfold try_catch_rethrow, bind in E.
  rewrite get_queue_absent in E by done. injection E as <- <-.
  split_and!; [done|done|]. intros a n Ha. simpl. rewrite lookup_insert_ne; [done|].
  intros <-. eapply (is_fresh (dom (store w))). apply elem_of_dom. eauto.
Qed.

Lemma pop_absent fuel q w :
  queues w !! q = None → pop Compare fuel q w = (Undefined, w).
Proof. intros H. unfold pop, bind. by rewrite (get_queue_absent _ _ H). Qed.

Lemma pq_merge_absent fuel this other w :
  this ≠ other → queues w !! this = None ∨ queues w !! other = None →
  pq_merge Compare fuel this other w = (Undefined, w).
Proof.
  intros Hne H. unfold pq_merge. rewrite decide_False by done.
  unfold try_catch_rethrow, bind, get_queue.
  destruct (queues w !! this); [|done]. destruct H as [H|H]; [done|]. by rewrite H.
Qed.

End interface_facts.

Section invariant_facts.

Context {T : Type} (Compare : T → T → option bool).

Implicit Types (w : world T) (t : shape (T:=T)) (s : gmap positive (heapnode T)).

(** ** Invariants of the calls that return *)

Lemma lookup_insert_prop (P : shape (T:=T) → Prop) (sh : gmap positive shape) q t' :
  P t' → (∀ q0 t0, sh !! q0 = Some t0 → P t0) →
  ∀ q0 t0, <[q := t']> sh !! q0 = Some t0 → P t0.
Proof.
  intros Ht' Hsh q0 t0. destruct (decide (q = q0)) as [->|Hne].
  - rewrite lookup_insert_eq. by intros [= <-].
  - rewrite lookup_insert_ne by done. apply Hsh.
Qed.

(** A property of trees that holds of the empty tree and of a single node,
    passes to subtrees and to clones, and is kept by the merge, holds of
    the tree of every queue after every call that returns. *)
Lemma call_inv (P : shape (T:=T) → Prop) fuel o w w' :
  P Leaf →
  (∀ c e, P (Node c e Leaf Leaf)) →
  (∀ a v l r, P (Node a v l r) → P l ∧ P r) →
  (∀ fuel tx ty t', P tx → P ty → merge_shape Compare fuel tx ty = Ok t' → P t') →
  (∀ t t', same_values t t' → P t → P t') →
  world_inv P w → call Compare fuel o w = (Ok tt, w') → world_inv P w'.
Proof.
  intros Pleaf Pnode Psub Pmerge Pclone [(sh & Hown & HP) Hbound] E.
  pose proof Hown as (Hdom & Hsh & Hdis).
  destruct o as [|other|this|this other|this|this e|this|this|this|this other];
    cbn [call] in E.
  - (* constructor *)
    destruct (pq_ctor_spec w sh Hown) as (q & Hc & Hq & Hown').
    unfold bind in E. rewrite Hc in E. injection E as <-.
    split; [|done]. exists (<[q := Leaf]> sh). split; [done|].
    by apply lookup_insert_prop.
  - (* copy constructor *)
    unfold bind in E.
    destruct (pq_copy_ctor fuel other w) as [[q|ex| |] w1] eqn:Ec; try done.
    injection E as <-.
    destruct (sh !! other) as [t|] eqn:Ht.
    2:{ apply Hdom in Ht. rewrite (pq_copy_ctor_absent _ _ _ Ht) in Ec. done. }
    destruct (pq_copy_ctor_spec _ _ _ _ _ _ _ Hown Ht Ec)
      as (_ & _ & _ & _ & _ & Hok & _).
    destruct (Hok q eq_refl) as (t' & Hq & Hsv & Hown' & Hfresh & Hdom' & Hb).
    split.
    + exists (<[q := t']> sh). split; [done|]. apply lookup_insert_prop; [|done].
      eapply Pclone; eauto.
    + destruct Hown' as (_ & Hsh' & _).
      destruct (Hsh' q t') as (pq' & _ & _ & _ & Hnd' & _); [by rewrite lookup_insert_eq|].
      rewrite (size_store_fresh _ _ _ Hdom' Hnd' Hfresh).
      fold (tsize t'). rewrite (same_values_tsize _ _ Hsv). lia.
  - (* destructor *)
    destruct (sh !! this) as [t|] eqn:Ht.
    2:{ apply Hdom in Ht. rewrite (pq_dtor_absent _ _ _ Ht) in E. done. }
    destruct (pq_dtor_spec _ _ _ _ _ _ _ Hown Ht E) as (_ & _ & Hsub & _ & [[_ Hown']|[? _]]);
      [|done].
    split.
    + exists (delete this sh). split; [done|]. intros q0 t0 Hq0.
      apply lookup_delete_Some in Hq0 as [_ Hq0]. eauto.
    + pose proof (map_subseteq_size_le _ _ Hsub). lia.
  - (* assignment *)
    destruct (decide (this = other)) as [->|Hne].
    { rewrite pq_assign_self in E. injection E as <-. split; [eauto|done]. }
    destruct (sh !! this) as [t|] eqn:Ht.
    2:{ apply Hdom in Ht. rewrite (pq_assign_absent_this _ _ _ _ Hne Ht) in E. done. }
    destruct (sh !! other) as [to|] eqn:Hto.
    2:{ apply Hdom in Hto.
        by destruct (pq_assign_absent_other _ _ _ _ _ _ _ _ Hown Ht Hto E) as (? & _). }
    destruct (pq_assign_spec _ _ _ _ _ _ _ _ _ Hown Hne Ht Hto E)
      as (_ & _ & _ & _ & _ & Hok & _).
    destruct (Hok eq_refl) as (t' & Hsv & Hown' & Hb).
    split; [|auto]. exists (<[this := t']> sh). split; [done|].
    apply lookup_insert_prop; [|done]. eapply Pclone; eauto.
  - (* top *)
    unfold bind in E. pose proof (top_unchanged this w) as Hw.
    destruct (top this w) as [[v|ex| |] w1]; try done. simpl in Hw. subst w1.
    injection E as <-. split; [eauto|done].
  - (* push *)
    destruct (sh !! this) as [t|] eqn:Ht.
    2:{ apply Hdom in Ht. by destruct (push_absent _ _ _ _ _ _ _ Ht E) as (? & _). }
    destruct (push_spec _ _ _ _ _ _ _ _ _ Hown Ht E) as (_ & _ & Hok).
    destruct (Hok eq_refl) as (c & t' & Hc & Hms & Hown' & Hdom' & Hroom).
    split.
    + exists (<[this := t']> sh). split; [done|]. apply lookup_insert_prop; [|done].
      eapply Pmerge; [| |exact Hms]; eauto.
    + rewrite <- size_dom, Hdom', size_union, size_singleton, size_dom by set_solver. lia.
  - (* pop *)
    destruct (sh !! this) as [t|] eqn:Ht.
    2:{ apply Hdom in Ht. rewrite (pop_absent _ _ _ _ Ht) in E. done. }
    destruct (pop_spec _ _ _ _ _ _ _ _ Hown Hbound Ht E) as (_ & _ & Hok).
    destruct (Hok eq_refl) as (a & v & l & r0 & t' & -> & Hms & Hown' & Hdom').
    split.
    + exists (<[this := t']> sh). split; [done|]. apply lookup_insert_prop; [|done].
      destruct (Psub a v l r0) as [Pl Pr]; [eauto|]. eapply Pmerge; [| |exact Hms]; eauto.
    + assert (size (store w') ≤ size (store w))%nat; [|lia].
      rewrite <- !size_dom, Hdom'. apply subseteq_size. set_solver.
  - (* size *)
    unfold bind in E. pose proof (pq_size_unchanged this w) as Hw.
    destruct (pq_size this w) as [[v|ex| |] w1]; try done. simpl in Hw. subst w1.
    injection E as <-. split; [eauto|done].
  - (* empty *)
    unfold bind in E. pose proof (pq_empty_unchanged this w) as Hw.
    destruct (pq_empty this w) as [[v|ex| |] w1]; try done. simpl in Hw. subst w1.
    injection E as <-. split; [eauto|done].
  - (* merge *)
    destruct (decide (this = other)) as [->|Hne].
    { rewrite pq_merge_self in E. injection E as <-. split; [eauto|done]. }
    destruct (sh !! this) as [tx|] eqn:Htx.
    2:{ apply Hdom in Htx. rewrite (pq_merge_absent _ _ _ _ _ Hne) in E by auto. done. }
    destruct (sh !! other) as [ty|] eqn:Hty.
    2:{ apply Hdom in Hty. rewrite (pq_merge_absent _ _ _ _ _ Hne) in E by auto. done. }
    destruct (pq_merge_spec _ _ _ _ _ _ _ _ _ _ Hown Hbound Hne Htx Hty E)
      as (_ & _ & Hdom' & Hok).
    destruct (Hok eq_refl) as (t' & _ & _ & Hms & Hown').
    split; [|by rewrite <- size_dom, Hdom', size_dom].
    exists (<[this := t']> (<[other := Leaf]> sh)). split; [done|].
    apply lookup_insert_prop; [eapply Pmerge; [| |exact Hms]; eauto|].
    by apply lookup_insert_prop.
Qed.

Lemma initial_world_inv (P : shape (T:=T) → Prop) : world_inv P initial_world.
Proof.
  split; [|unfold SIZE_MAX; simpl; rewrite map_size_empty; lia].
  exists ∅. split; [|by intros q t; rewrite lookup_empty].
  split_and!.
  - intros q. simpl. by rewrite !lookup_empty.
  - intros q t. by rewrite lookup_empty.
  - intros q1 q2 t1 t2 _. by rewrite lookup_empty.
Qed.

Lemma reachable_inv (P : shape (T:=T) → Prop) w :
  P Leaf →
  (∀ c e, P (Node c e Leaf Leaf)) →
  (∀ a v l r, P (Node a v l r) → P l ∧ P r) →
  (∀ fuel tx ty t', P tx → P ty → merge_shape Compare fuel tx ty = Ok t' → P t') →
  (∀ t t', same_values t t' → P t → P t') →
  reachable Compare w → world_inv P w.
Proof.
  intros Pleaf Pnode Psub Pmerge Pclone Hr. induction Hr as [|w fuel o w' _ IH E].
  - apply initial_world_inv.
  - by eapply call_inv.
Qed.

Lemma world_inv_wf (P : shape (T:=T) → Prop) w : world_inv P w → wf_world w.
Proof. intros [(sh & Hown & _) Hb]. split; [eauto|done]. Qed.

Lemma reachable_wf w : reachable Compare w → wf_world w.
Proof.
  intros Hr. apply (world_inv_wf (λ _, True)). by apply reachable_inv.
Qed.

End invariant_facts.

Section push_exception_facts.

Context {T : Type} (Compare : T → T → option bool).
Implicit Types (w : world T) (t : shape (T:=T)) (s : gmap positive (heapnode T)).

(** ** A push that throws *)

(** When [push] throws, no queue object has changed and every node that was
    there holds the value it held. *)
Lemma push_throw_same_vals fuel q e w ex w' :
  push Compare fuel q e w = (Throw ex, w') → same_vals w w'.
Proof.
  intros E. unfold push in E. unfold bind at 1 in E.
  destruct (decide (Z.of_nat (size (store w)) < SIZE_MAX)) as [Hroom|Hfull].
  2:{ rewrite (new_heapnode_full _ _ Hfull) in E. by injection E as <- <-. }
  rewrite (new_heapnode_ok _ _ Hroom) in E.
  set (c := fresh (dom (store w))) in *.
  assert (Hc : store w !! c = None) by (apply not_elem_of_dom, is_fresh).
  set (w1 := set_store _ w) in E.
  unfold try_catch_rethrow in E.
  destruct ((let* t := get_queue q in
             let* r := merge Compare fuel (root_ t) (Some c) in
             do set_root q r in
             let* t0 := get_queue q in
             set_size q (wrap (size_ t0 + 1))) w1) as [[[]|ex'| |] w2] eqn:Eb; try done.
  assert (Hsv : same_vals w1 w2).
  { unfold bind at 1 in Eb. unfold get_queue at 1 in Eb.
    destruct (queues w1 !! q) as [pq|]. 2:{ discriminate Eb. }
    unfold bind at 1 in Eb.
    destruct (merge Compare fuel (root_ pq) (Some c) w1) as [[r|ex''| |] w3] eqn:Em;
      try discriminate Eb.
    - exfalso. unfold bind at 1 in Eb. unfold set_root, set_size, bind, get_queue in Eb.
      destruct (queues w3 !! q); [|discriminate Eb]. unfold set_queues in Eb. simpl in Eb.
      rewrite lookup_insert_eq in Eb. simpl in Eb.
      rewrite lookup_insert_eq in Eb. discriminate Eb.
    - injection Eb as <- <-. by eapply merge_same_vals. }
  unfold bind, delete_node, bind, load, throw in E.
  destruct (store w2 !! c) as [n|]; [|discriminate E]. injection E as <- <-.
  destruct Hsv as [Hq Hv]. split; [done|]. intros a. simpl.
  destruct (decide (a = c)) as [->|Hne].
  - by rewrite lookup_delete_eq, Hc.
  - rewrite lookup_delete_ne by done. rewrite Hv. subst w1. simpl.
    by rewrite lookup_insert_ne.
Qed.

(** C2 — exception atomicity on push: if [push] throws, [size()] returns
    what it returned before the call, and so does [top()]; in particular a
    nonempty queue keeps its top element. *)
Theorem push_throw_atomic fuel q e w ex w' :
  push Compare fuel q e w = (Throw ex, w') →
  fst (pq_size q w') = fst (pq_size q w)
  ∧ fst (top q w') = fst (top q w)
  ∧ ∀ v, top q w = (Ok v, w) → top q w' = (Ok v, w').
Proof.
  intros E. apply push_throw_same_vals in E.
  split_and!.
  - by apply pq_size_same_vals.
  - by apply top_same_vals.
  - intros v Hv. pose proof (top_same_vals q _ _ E) as Ht. rewrite Hv in Ht.
    pose proof (top_unchanged q w') as Hw. destruct (top q w') as [r w'']. simpl in *.
    by subst.
Qed.

End push_exception_facts.

(** The ordering throws while 7 is pushed on the queue that holds 10, 5 and
    3: the comparison of 3 with 7 is reached below the root. *)
Lemma push_throw_atomic_witness :
  push less_throwing 8 1 7 two_queues
    = (Throw compare_exn, snd (push less_throwing 8 1 7 two_queues))
  ∧ pq_size 1 two_queues = (Ok 3, two_queues)
  ∧ top 1 two_queues = (Ok 10, two_queues)
  ∧ fst (pq_size 1 (snd (push less_throwing 8 1 7 two_queues))) = Ok 3
  ∧ fst (top 1 (snd (push less_throwing 8 1 7 two_queues))) = Ok 10.
Proof.
  assert (E : push less_throwing 8 1 7 two_queues
              = (Throw compare_exn, snd (push less_throwing 8 1 7 two_queues)))
    by (vm_compute; reflexivity).
  assert (Hs : pq_size 1 two_queues = (Ok 3, two_queues)) by (vm_compute; reflexivity).
  assert (Ht : top 1 two_queues = (Ok 10, two_queues)) by (vm_compute; reflexivity).
  destruct (push_throw_atomic less_throwing 8 1 7 two_queues compare_exn _ E)
    as (H1 & H2 & H3).
  split_and!; [exact E|exact Hs|exact Ht| |].
  - rewrite H1, Hs. reflexivity.
  - rewrite H2, Ht. reflexivity.
Defined.

Section empty_container_facts.

Context {T : Type} (Compare : T → T → option bool).
Implicit Types (w : world T) (t : shape (T:=T)) (s : gmap positive (heapnode T)).

Lemma compare_throws a b : throws_only (λ e, e = compare_exn) (compare Compare a b).
Proof.
  intros w e w'. unfold compare. destruct (Compare a b); [discriminate|].
  by intros [= <- <-].
Qed.

(** The recursive merge throws nothing but the failure of the ordering
    predicate. *)
Lemma merge_throws fuel : ∀ x y,
  throws_only (λ e, e = compare_exn) (merge Compare fuel x y).
Proof.
  assert (Hno : ∀ A (m : M T A), throws_only (λ _, False) m →
                  throws_only (λ e, e = compare_exn) m).
  { intros A m. by apply throws_only_weaken. }
  induction fuel as [|fuel IH]; intros x y; simpl.
  { intros w e w'. discriminate. }
  destruct x as [ax|]; [|apply throws_only_ret].
  destruct y as [ay|]; [|apply throws_only_ret].
  apply throws_only_bind; [apply Hno, load_no_throw|]. intros nx.
  apply throws_only_bind; [apply Hno, load_no_throw|]. intros ny.
  apply throws_only_bind; [apply compare_throws|]. intros c. destruct c.
  all: apply throws_only_bind; [apply Hno, load_no_throw|]; intros nx'.
  all: apply throws_only_bind; [apply Hno, store_rs_no_throw|]; intros _.
  all: apply throws_only_bind; [apply IH|]; intros r.
  all: apply throws_only_bind; [apply Hno, store_ls_no_throw|]; intros _.
  all: apply throws_only_ret.
Qed.

(** ** [top] and [pop] on an empty queue *)

(** C7 — [top()] and [pop()] throw [container_is_empty] exactly when the
    size of the queue is 0; the test comes first, so the state, the count
    of comparisons included, is then what it was; and [top()] never changes
    the state and never invokes the ordering predicate, whatever it
    returns. *)
Theorem empty_container_iff fuel q w :
  (fst (top q w) = Throw container_is_empty ↔ size_ <$> queues w !! q = Some 0)
  ∧ (fst (pop Compare fuel q w) = Throw container_is_empty
     ↔ size_ <$> queues w !! q = Some 0)
  ∧ (size_ <$> queues w !! q = Some 0 →
     top q w = (Throw container_is_empty, w)
     ∧ pop Compare fuel q w = (Throw container_is_empty, w))
  ∧ snd (top q w) = w.
Proof.
  assert (Htop : size_ <$> queues w !! q = Some 0 →
                 top q w = (Throw container_is_empty, w)).
  { intros H. unfold top, bind, get_queue. destruct (queues w !! q) as [pq|]; [|done].
    injection H as H. by rewrite decide_True. }
  assert (Hpop : size_ <$> queues w !! q = Some 0 →
                 pop Compare fuel q w = (Throw container_is_empty, w)).
  { intros H. unfold pop, bind, get_queue. destruct (queues w !! q) as [pq|]; [|done].
    injection H as H. by rewrite decide_True. }
  split_and!.
  - split; [|by intros ->%Htop].
    unfold top, bind, get_queue. destruct (queues w !! q) as [pq|]; [|done]. simpl.
    destruct (decide (size_ pq = 0)) as [->|Hnz]; [done|].
    unfold load. destruct (root_ pq) as [a|]; [|done]. by destruct (store w !! a).
  - split; [|by intros ->%Hpop].
    destruct (pop Compare fuel q w) as [r w'] eqn:E. simpl. intros ->.
    unfold pop in E. unfold bind at 1 in E. unfold get_queue at 1 in E.
    destruct (queues w !! q) as [pq|]; [|discriminate E]. simpl.
    destruct (decide (size_ pq = 0)) as [->|Hnz]; [done|]. exfalso.
    assert (Hrest : throws_only (λ e, e = compare_exn)
      (let* n := load (root_ pq) in
       let* r := merge Compare fuel (ls n) (rs n) in
       do set_root q r in
       do delete_node (root_ pq) in
       let* t := get_queue q in
       set_size q (wrap (size_ t - 1)))).
    { assert (Hno : ∀ A (m : M T A), throws_only (λ _, False) m →
                      throws_only (λ e, e = compare_exn) m).
      { intros A m. by apply throws_only_weaken. }
      apply throws_only_bind; [apply Hno, load_no_throw|]. intros n.
      apply throws_only_bind; [apply merge_throws|]. intros r.
      apply throws_only_bind; [apply Hno, set_root_no_throw|]. intros _.
      apply throws_only_bind; [apply Hno, delete_node_no_throw|]. intros _.
      apply throws_only_bind; [apply Hno, get_queue_no_throw|]. intros t.
      apply Hno, set_size_no_throw. }
    apply Hrest in E. discriminate E.
  - auto.
  - apply top_unchanged.
Qed.

End empty_container_facts.

Section merge_queue_facts.

Context {T : Type} (Compare : T → T → option bool).
Implicit Types (w : world T) (t : shape (T:=T)) (s : gmap positive (heapnode T)).

(** ** Merging two queues *)

(** What [merge] returns on two distinct queues that own trees: undefined
    behaviour when one of them is empty, the failure of the first
    comparison, or the outcome of the recursive merge. *)
Lemma pq_merge_outcome fuel this other w sh tx ty :
  owned_by w sh → this ≠ other → sh !! this = Some tx → sh !! other = Some ty →
  fst (pq_merge Compare fuel this other w)
  = match tx, ty with
    | Node _ vx _ _, Node _ vy _ _ =>
      if Compare vx vy is Some _
      then map_result (λ _, tt) (merge_shape Compare fuel tx ty)
      else Throw compare_exn
    | _, _ => Undefined
    end.
Proof.
  intros Hown Hne Htx Hty.
  pose proof Hown as (Hdom & Hsh & Hdis).
  destruct (Hsh _ _ Htx) as (pt & Hqt & Hroott & Hrepx & Hndx & Hsizet).
  destruct (Hsh _ _ Hty) as (po & Hqo & Hrooto & Hrepy & Hndy & Hsizeo).
  pose proof (Hdis _ _ _ _ Hne Htx Hty) as Hxy.
  destruct (pq_merge Compare fuel this other w) as [r w'] eqn:E. cbn [fst].
  unfold pq_merge in E. rewrite decide_False in E by done.
  unfold try_catch_rethrow in E.
  unfold bind at 1 in E. rewrite (get_queue_ok _ _ _ Hqt) in E.
  unfold bind at 1 in E. rewrite (get_queue_ok _ _ _ Hqo) in E.
  destruct tx as [|ax vx lx rx].
  { rewrite Hroott in E. simpl in E. by injection E as <- <-. }
  destruct ty as [|ay vy ly ry].
  { rewrite Hroott, Hrooto in E. cbn [root] in E. destruct Hrepx as (Hax & _).
    unfold bind at 1 in E. rewrite (load_ok _ _ _ Hax) in E. simpl in E.
    by injection E as <- <-. }
  pose proof Hrepx as (Hax & _). pose proof Hrepy as (Hay & _).
  rewrite Hroott, Hrooto in E. cbn [root] in E.
  unfold bind at 1 in E. rewrite (load_ok _ _ _ Hax) in E.
  unfold bind at 1 in E. rewrite (load_ok _ _ _ Hay) in E. cbn [val root] in E.
  unfold bind at 1 in E. unfold compare at 1 in E.
  destruct (Compare vx vy) as [c|].
  2:{ unfold bind, ret, throw in E. by injection E as <- <-. }
  set (w1 := World _ _ _) in E.
  destruct (merge_refines Compare fuel (Node ax vx lx rx) (Node ay vy ly ry) w1)
    as (w2 & Hm & Hq2 & Hd2 & Hfr2 & Hrep2); [done|done| |].
  { apply NoDup_app. split_and!; [done| |done]. intros b Hb1 Hb2. by apply (Hxy b). }
  cbn [root] in Hm. unfold bind at 1 in E. rewrite Hm in E.
  destruct (merge_shape Compare fuel (Node ax vx lx rx) (Node ay vy ly ry))
    as [t'|ex| |] eqn:Ems; cbn [map_result] in E |- *.
  2:{ unfold bind, ret, throw in E. by injection E as <- <-. }
  2-3: by injection E as <- <-.
  assert (Hq2t : queues w2 !! this = Some pt) by (by rewrite Hq2).
  unfold bind at 1 in E. rewrite (set_root_ok _ _ _ _ Hq2t) in E.
  set (w3 := set_queues _ w2) in E.
  unfold bind at 1 in E. rewrite (get_queue_ok w3 this (PQ (root t') (size_ pt))) in E
    by (subst w3; simpl; by rewrite lookup_insert_eq).
  unfold bind at 1 in E. rewrite (get_queue_ok w3 other po) in E
    by (subst w3; simpl; rewrite lookup_insert_ne by done; by rewrite Hq2).
  unfold bind at 1 in E.
  rewrite (set_size_ok w3 this (PQ (root t') (size_ pt))) in E
    by (subst w3; simpl; by rewrite lookup_insert_eq).
  set (w4 := set_queues _ w3) in E. cbn [root_ size_] in w4.
  unfold bind at 1 in E. rewrite (set_root_ok w4 other po) in E
    by (subst w4 w3; simpl; rewrite !lookup_insert_ne by done; by rewrite Hq2).
  set (w5 := set_queues _ w4) in E.
  rewrite (set_size_ok w5 other (PQ None (size_ po))) in E
    by (subst w5; simpl; by rewrite lookup_insert_eq).
  by injection E as <- <-.
Qed.

(** C4 — merge drains the source: when [A.merge(B)] returns on two distinct
    queues of sizes [m] and [n], [B] is empty with size 0, [A] has size
    [m + n] and holds the elements of both, each as often as the two queues
    held it together.  And the call does return when both queues are
    nonempty, the predicate returns on their elements, and the recursion
    budget exceeds the number of nodes. *)
Theorem pq_merge_drains_source fuel A B w tA tB :
  wf_world w → A ≠ B → queue_shape w A tA → queue_shape w B tB →
  (∀ w', pq_merge Compare fuel A B w = (Ok tt, w') →
     pq_empty B w' = (Ok true, w')
     ∧ pq_size B w' = (Ok 0, w')
     ∧ (∃ m n, pq_size A w = (Ok m, w) ∧ pq_size B w = (Ok n, w)
               ∧ pq_size A w' = (Ok (m + n), w'))
     ∧ queue_shape w' B Leaf
     ∧ (∃ tA', queue_shape w' A tA' ∧ elems tA' ≡ₚ elems tA ++ elems tB)
     ∧ wf_world w')
  ∧ (tA ≠ Leaf → tB ≠ Leaf → (tsize tA + tsize tB < fuel)%nat →
     (∀ a b, a ∈ elems tA ++ elems tB → b ∈ elems tA ++ elems tB →
             Compare a b ≠ None) →
     ∃ w', pq_merge Compare fuel A B w = (Ok tt, w')).
Proof.
  intros [[sh Hown] Hbound] Hne HA HB.
  apply (owned_by_shape _ _ _ _ Hown) in HA, HB.
  pose proof Hown as (Hdom & Hsh & Hdis).
  destruct (Hsh _ _ HA) as (pa & Hqa & Hroota & Hrepa & Hnda & Hsizea).
  destruct (Hsh _ _ HB) as (pb & Hqb & Hrootb & Hrepb & Hndb & Hsizeb).
  split.
  - intros w' E.
    destruct (pq_merge_spec _ _ _ _ _ _ _ _ _ _ Hown Hbound Hne HA HB E)
      as (_ & _ & Hdom' & Hok).
    destruct (Hok eq_refl) as (t' & _ & _ & Hms & Hown').
    pose proof Hown' as (_ & Hsh' & _).
    destruct (Hsh' A t') as (pa' & Hqa' & Hroota' & Hrepa' & Hnda' & Hsizea');
      [by rewrite lookup_insert_eq|].
    destruct (Hsh' B Leaf) as (pb' & Hqb' & Hrootb' & Hrepb' & Hndb' & Hsizeb');
      [by rewrite lookup_insert_ne, lookup_insert_eq|].
    split_and!.
    + rewrite (pq_empty_ok _ _ _ Hqb'), Hsizeb'. done.
    + rewrite (pq_size_ok _ _ _ Hqb'), Hsizeb'. done.
    + exists (size_ pa), (size_ pb). split_and!; try by apply pq_size_ok.
      rewrite (pq_size_ok _ _ _ Hqa'), Hsizea', Hsizea, Hsizeb.
      rewrite (merge_shape_tsize _ _ _ _ _ Hms). do 2 f_equal. lia.
    + apply (owned_by_shape _ _ _ _ Hown').
      by rewrite lookup_insert_ne, lookup_insert_eq.
    + exists t'. split; [|by eapply merge_shape_elems].
      apply (owned_by_shape _ _ _ _ Hown'). by rewrite lookup_insert_eq.
    + split; [eauto|]. by rewrite <- size_dom, Hdom', size_dom.
  - intros HnA HnB Hfuel Htotal.
    pose proof (pq_merge_outcome fuel _ _ _ _ _ _ Hown Hne HA HB) as Hout.
    destruct (merge_shape_total Compare fuel tA tB Hfuel Htotal) as [t' Ht'].
    destruct tA as [|ax vx lx rx]; [done|]. destruct tB as [|ay vy ly ry]; [done|].
    destruct (Compare vx vy) eqn:Ec.
    2:{ exfalso. eapply (Htotal vx vy); [simpl; set_solver..|done]. }
    rewrite Ht' in Hout. simpl in Hout.
    destruct (pq_merge Compare fuel A B w) as [r w']. simpl in Hout. subst r. eauto.
Qed.

End merge_queue_facts.

(** ** The example states *)

Section reachable_facts.

Context {T : Type} (Compare : T → T → option bool).

Implicit Types (w : world T).

(** A run of calls that all return leads from a reachable state to a
    reachable state. *)
Lemma calls_reachable fuel os : ∀ w w',
  reachable Compare w → calls Compare fuel os w = (Ok tt, w') → reachable Compare w'.
Proof.
  induction os as [|o os IH]; intros w w' Hr E; simpl in E.
  - by injection E as <-.
  - unfold bind in E. destruct (call Compare fuel o w) as [[[]|ex| |] w1] eqn:Ec; try done.
    eapply IH; [|exact E]. by eapply reachable_call.
Qed.

End reachable_facts.

(** The scenario of the specification, under [std::less]: push 5, 3, 8, 1;
    [top()] is 8; after [pop()], [top()] is 5; a second queue gets 10 and
    20 and absorbs the first: its size is 5 and its top 20, the first queue
    is empty and [pop()] on it throws [container_is_empty]. *)
Example concrete_scenario :
  fst ((do pq_ctor in
        do push less 8 1 5 in do push less 8 1 3 in
        do push less 8 1 8 in do push less 8 1 1 in
        let* t1 := top 1 in
        do pop less 8 1 in
        let* t2 := top 1 in
        do pq_ctor in
        do push less 8 2 10 in do push less 8 2 20 in
        do pq_merge less 8 2 1 in
        let* n := pq_size 2 in
        let* t3 := top 2 in
        let* e := pq_empty 1 in
        ret (t1, t2, n, t3, e)) initial_world)
  = Ok (8, 5, 5, 20, true)
  ∧ fst ((do pq_ctor in
          do push less 8 1 5 in do push less 8 1 3 in
          do push less 8 1 8 in do push less 8 1 1 in
          do pop less 8 1 in
          do pq_ctor in
          do push less 8 2 10 in do push less 8 2 20 in
          do pq_merge less 8 2 1 in
          pop less 8 1) initial_world)
    = Throw container_is_empty.
Proof. split; vm_compute; reflexivity. Qed.

Lemma two_queues_reachable : reachable less_throwing two_queues.
Proof.
  apply (calls_reachable less_throwing 8
           [OpCtor; OpCtor; OpPush 1 10; OpPush 1 3; OpPush 1 5; OpPush 2 7]
           initial_world); [apply reachable_init|].
  vm_compute. reflexivity.
Qed.

Lemma two_queues_shape_1 :
  queue_shape two_queues 1
    (Node 1%positive 10 (Node 3%positive 5 Leaf Leaf) (Node 2%positive 3 Leaf Leaf)).
Proof.
  exists (PQ (Some 1%positive) 3). split_and!; try (vm_compute; reflexivity).
  - simpl. split_and!; try done; vm_compute; reflexivity.
  - simpl. apply NoDup_cons. split; [set_solver|]. apply NoDup_cons. split; [set_solver|].
    apply NoDup_singleton.
Qed.

Lemma two_queues_shape_2 :
  queue_shape two_queues 2 (Node 4%positive 7 Leaf Leaf).
Proof.
  exists (PQ (Some 4%positive) 1). split_and!; try (vm_compute; reflexivity).
  - simpl. split_and!; try done; vm_compute; reflexivity.
  - simpl. apply NoDup_singleton.
Qed.

(** The queue holding 10, 5 and 3 absorbs the queue holding 7, under
    [std::less]. *)
Lemma pq_merge_drains_source_witness :
  ∃ w', pq_merge less 8 1 2 two_queues = (Ok tt, w')
    ∧ pq_empty 2 w' = (Ok true, w')
    ∧ pq_size 2 w' = (Ok 0, w')
    ∧ pq_size 1 two_queues = (Ok 3, two_queues)
    ∧ pq_size 2 two_queues = (Ok 1, two_queues)
    ∧ pq_size 1 w' = (Ok 4, w').
Proof.
  destruct (pq_merge_drains_source less 8 1 2 two_queues _ _
              (reachable_wf _ _ two_queues_reachable) ltac:(done)
              two_queues_shape_1 two_queues_shape_2) as [Hret _].
  exists (snd (pq_merge less 8 1 2 two_queues)).
  assert (E : pq_merge less 8 1 2 two_queues
              = (Ok tt, snd (pq_merge less 8 1 2 two_queues)))
    by (vm_compute; reflexivity).
  destruct (Hret _ E) as (He & Hs & (m & n & Hm & Hn & Hmn) & _).
  split_and!; try done; try (vm_compute; reflexivity).
Defined.

Section heap_order_facts.

Context {T : Type} (Compare : T → T → option bool).
Variable lt : T → T → bool.
Hypothesis Compare_lt : ∀ a b r, Compare a b = Some r → r = lt a b.
Hypothesis lt_asym : ∀ a b, lt a b = true → lt b a = false.
Implicit Types (w : world T) (t : shape (T:=T)) (s : gmap positive (heapnode T)).

(** ** The heap order *)

Lemma reachable_heap_ordered w :
  reachable Compare w → world_inv (heap_ordered lt) w.
Proof using Compare_lt lt_asym.
  apply reachable_inv.
  - done.
  - done.
  - intros a v l r (_ & _ & Hl & Hr). done.
  - intros fuel tx ty t' Hx Hy Hm.
    by destruct (merge_shape_heap_ordered Compare lt Compare_lt lt_asym _ _ _ _ Hx Hy Hm).
  - intros t t' Hsv. by apply same_values_edges.
Qed.

(** C5, amended — the heap order the code keeps: in every state reached by
    calls that all return, no node is below one of its children, that is,
    the ordering applied to (the value of a node, the value of a present
    child) is false; in particular the ordering predicate does not return
    true on that pair. *)
Theorem heap_order_invariant w q t :
  reachable Compare w → queue_shape w q t →
  heap_ordered lt t
  ∧ edges (λ parent child, Compare parent child ≠ Some true) t.
Proof using Compare_lt lt_asym.
  intros Hr Hq. destruct (reachable_heap_ordered w Hr) as [(sh & Hown & HP) _].
  apply (owned_by_shape _ _ _ _ Hown) in Hq. apply HP in Hq. split; [done|].
  clear -Hq Compare_lt. induction t as [|a v l IHl r IHr]; [done|].
  destruct Hq as (Hl & Hr & Hol & Hor). split_and!; auto.
  - destruct l as [|al vl ll rl]; [done|]. simpl in *.
    intros Hc%Compare_lt. congruence.
  - destruct r as [|ar vr lr rr]; [done|]. simpl in *.
    intros Hc%Compare_lt. congruence.
Qed.

Hypothesis lt_negtrans : ∀ a b c, lt a b = false → lt b c = false → lt a c = false.

Lemma heap_ordered_below t : ∀ v,
  heap_ordered lt t → related_to_root (λ p c, lt p c = false) v t →
  ∀ x, x ∈ elems t → lt v x = false.
Proof using lt_negtrans.
  induction t as [|a v' l IHl r IHr]; intros v Ho Hv x Hx; simpl in *;
    [by apply elem_of_nil in Hx|].
  destruct Ho as (Hl & Hr & Hol & Hor).
  apply elem_of_cons in Hx as [->|Hx]; [done|].
  apply elem_of_app in Hx as [Hx|Hx].
  - eapply lt_negtrans; [exact Hv|]. by eapply IHl.
  - eapply lt_negtrans; [exact Hv|]. by eapply IHr.
Qed.

(** C6 — the top is extremal: in every state reached by calls that all
    return, [top()] on a nonempty queue returns an element [e] of the queue
    such that the ordering applied to [(e, x)] is false for every element
    [x] of the queue; in particular the ordering predicate does not return
    true on [(e, x)]. *)
Theorem top_is_extremal w q :
  reachable Compare w → pq_empty q w = (Ok false, w) →
  ∃ e t, top q w = (Ok e, w) ∧ queue_shape w q t ∧ e ∈ elems t
    ∧ ∀ x, x ∈ elems t → lt e x = false ∧ Compare e x ≠ Some true.
Proof using Compare_lt lt_asym lt_negtrans.
  intros Hr He. destruct (reachable_heap_ordered w Hr) as [(sh & Hown & HP) _].
  unfold pq_empty, bind, get_queue in He.
  destruct (queues w !! q) as [pq|] eqn:Hq; [|discriminate He].
  injection He as He. apply bool_decide_eq_false in He.
  destruct (owned_by_queue _ _ _ _ Hown Hq) as (t & Ht & Hroot & Hrep & Hnd & Hsize).
  destruct t as [|a v l r]; [by rewrite Hsize in He|].
  exists v, (Node a v l r). split_and!.
  - by eapply top_node.
  - by apply (owned_by_shape _ _ _ _ Hown).
  - simpl. apply elem_of_cons. by left.
  - intros x Hx. assert (Hlt : lt v x = false).
    { pose proof (HP _ _ Ht) as (Hl & Hr' & Hol & Hor). simpl in Hx.
      apply elem_of_cons in Hx as [->|Hx].
      - destruct (lt v v) eqn:E; [|done]. by rewrite (lt_asym _ _ E) in E.
      - apply elem_of_app in Hx as [Hx|Hx];
          [exact (heap_ordered_below l v Hol Hl x Hx)
          |exact (heap_ordered_below r v Hor Hr' x Hx)]. }
    split; [done|]. intros Hc%Compare_lt. congruence.
Qed.

End heap_order_facts.



Lemma pushed_1_2_reachable : reachable less pushed_1_2.
Proof.
  apply (calls_reachable less 8 [OpCtor; OpPush 1 1; OpPush 1 2] initial_world);
    [apply reachable_init|].
  vm_compute. reflexivity.
Qed.

Lemma pushed_1_2_shape :
  queue_shape pushed_1_2 1 (Node 2%positive 2 (Node 1%positive 1 Leaf Leaf) Leaf).
Proof.
  exists (PQ (Some 2%positive) 2). split_and!; try (vm_compute; reflexivity).
  - simpl. split_and!; try done; vm_compute; reflexivity.
  - simpl. apply NoDup_cons. split; [set_solver|]. apply NoDup_singleton.
Qed.

Lemma less_ltb a b r : less a b = Some r → r = (a <? b).
Proof. unfold less. by intros [= <-]. Qed.

Lemma ltb_asym a b : (a <? b) = true → (b <? a) = false.
Proof. lia. Qed.

Lemma ltb_negtrans a b c : (a <? b) = false → (b <? c) = false → (a <? c) = false.
Proof. lia. Qed.

(** C5 as stated fails: after pushing 1 and then 2 under [std::less], the
    root holds 2 and its child holds 1, and the ordering applied to (the
    value of the child, the value of the node) is true. *)
Lemma heap_order_as_stated_fails :
  reachable less pushed_1_2
  ∧ queue_shape pushed_1_2 1 (Node 2%positive 2 (Node 1%positive 1 Leaf Leaf) Leaf)
  ∧ ¬ edges (λ parent child, less child parent = Some false)
        (Node 2%positive 2 (Node 1%positive 1 Leaf Leaf) Leaf).
Proof.
  split_and!; [apply pushed_1_2_reachable|apply pushed_1_2_shape|].
  intros (H & _). simpl in H. discriminate H.
Qed.

Lemma heap_order_invariant_witness :
  heap_ordered Z.ltb (Node 2%positive 2 (Node 1%positive 1 Leaf Leaf) Leaf)
  ∧ edges (λ parent child, less parent child ≠ Some true)
      (Node 2%positive 2 (Node 1%positive 1 Leaf Leaf) Leaf).
Proof.
  apply (heap_order_invariant less Z.ltb less_ltb ltb_asym pushed_1_2 1).
  - apply pushed_1_2_reachable.
  - apply pushed_1_2_shape.
Defined.

Lemma pushed_1_2_nonempty : pq_empty 1 pushed_1_2 = (Ok false, pushed_1_2).
Proof. vm_compute. reflexivity. Qed.

Lemma top_is_extremal_witness :
  ∃ e t, top 1 pushed_1_2 = (Ok e, pushed_1_2) ∧ queue_shape pushed_1_2 1 t
    ∧ e ∈ elems t
    ∧ ∀ x, x ∈ elems t → (e <? x) = false ∧ less e x ≠ Some true.
Proof.
  exact (top_is_extremal less Z.ltb less_ltb ltb_asym ltb_negtrans pushed_1_2 1
           pushed_1_2_reachable pushed_1_2_nonempty).
Defined.

Section merge_exception_facts.

Context {T : Type} (Compare : T → T → option bool).
Implicit Types (w : world T) (t : shape (T:=T)) (s : gmap positive (heapnode T)).

(** ** A merge of two queues that throws, or meets an empty queue *)

(** The comparison of the two roots that [merge] makes before the recursive
    merge: when it throws, nothing but the count of comparisons has
    changed. *)
Lemma pq_merge_first_comparison_throws fuel this other w pt po nt no :
  this ≠ other →
  queues w !! this = Some pt → queues w !! other = Some po →
  load (root_ pt) w = (Ok nt, w) → load (root_ po) w = (Ok no, w) →
  Compare (val nt) (val no) = None →
  pq_merge Compare fuel this other w
  = (Throw compare_exn, World (store w) (queues w) (S (cmp_calls w))).
Proof.
  intros Hne Ht Ho Hlt Hlo Hc. unfold pq_merge. rewrite decide_False by done.
  unfold try_catch_rethrow. unfold bind at 1. rewrite (get_queue_ok _ _ _ Ht).
  unfold bind at 1. rewrite (get_queue_ok _ _ _ Ho).
  unfold bind at 1. rewrite Hlt. unfold bind at 1. rewrite Hlo.
  unfold bind at 1. unfold compare. rewrite Hc. reflexivity.
Qed.

(** C3, on the code — a merge with an empty queue dereferences the null
    root before anything else: the outcome is undefined behaviour, whichever
    of the two queues is the empty one. *)
Theorem pq_merge_empty_undefined fuel this other w pt po :
  this ≠ other →
  queues w !! this = Some pt → queues w !! other = Some po →
  root_ pt = None ∨ root_ po = None →
  fst (pq_merge Compare fuel this other w) = Undefined.
Proof.
  intros Hne Ht Ho Hroot. unfold pq_merge. rewrite decide_False by done.
  unfold try_catch_rethrow. unfold bind at 1. rewrite (get_queue_ok _ _ _ Ht).
  unfold bind at 1. rewrite (get_queue_ok _ _ _ Ho).
  unfold bind at 1. unfold load at 1.
  destruct (root_ pt) as [a|]; [|done].
  destruct (store w !! a) as [n|]; [|done].
  destruct Hroot as [Hr|Hr]; [done|]. by rewrite Hr.
Qed.

End merge_exception_facts.

Lemma one_and_empty_reachable : reachable less one_and_empty.
Proof.
  apply (calls_reachable less 8 [OpCtor; OpCtor; OpPush 1 5] initial_world);
    [apply reachable_init|].
  vm_compute. reflexivity.
Qed.

Lemma one_and_empty_queue_1 :
  queues one_and_empty !! 1%positive = Some (PQ (Some 1%positive) 1).
Proof. vm_compute. reflexivity. Qed.

Lemma one_and_empty_queue_2 : queues one_and_empty !! 2%positive = Some (PQ None 0).
Proof. vm_compute. reflexivity. Qed.

(** Queue 1 holds 5 and queue 2 is empty: [q1.merge(q2)] and [q2.merge(q1)]
    are both undefined. *)
Lemma pq_merge_empty_undefined_witness :
  fst (pq_merge less 8 1 2 one_and_empty) = Undefined
  ∧ fst (pq_merge less 8 2 1 one_and_empty) = Undefined.
Proof.
  split.
  - exact (pq_merge_empty_undefined less 8 1 2 one_and_empty _ _ ltac:(done)
             one_and_empty_queue_1 one_and_empty_queue_2 (or_intror eq_refl)).
  - exact (pq_merge_empty_undefined less 8 2 1 one_and_empty _ _ ltac:(done)
             one_and_empty_queue_2 one_and_empty_queue_1 (or_introl eq_refl)).
Defined.

(** C1, on the code — a throw below the roots leaves the tree relinked.
    Queue 1 holds 10 at its root, 5 on the left and 3 on the right; queue 2
    holds 7.  The comparison of the roots returns, the root of queue 1 is
    relinked, and the comparison of 3 with 7 throws: the exception reaches
    the caller, the queue objects are what they were, but the root of
    queue 1 now has the node holding 5 as both children, and the node
    holding 3 is not reached any more. *)
Theorem pq_merge_throw_relinks :
  reachable less_throwing two_queues
  ∧ fst (pq_merge less_throwing 8 1 2 two_queues) = Throw compare_exn
  ∧ queues (snd (pq_merge less_throwing 8 1 2 two_queues)) = queues two_queues
  ∧ store two_queues !! 1%positive
    = Some (Heapnode 10 (Some 3%positive) (Some 2%positive))
  ∧ store (snd (pq_merge less_throwing 8 1 2 two_queues)) !! 1%positive
    = Some (Heapnode 10 (Some 3%positive) (Some 3%positive))
  ∧ reachable_nodes 8 (store two_queues) (Some 1%positive)
    = {[1%positive; 2%positive; 3%positive]}
  ∧ reachable_nodes 8 (store (snd (pq_merge less_throwing 8 1 2 two_queues)))
      (Some 1%positive)
    = {[1%positive; 3%positive]}.
Proof.
  split; [apply two_queues_reachable|].
  split_and!; vm_compute; reflexivity.
Qed.

(** C8, on the code — a push that throws leaves [size_] above the number of
    nodes reached from the root.  Pushing 7 on the queue that holds 10, 5
    and 3 throws at the comparison of 3 with 7; afterwards [size()] is
    still 3, and two nodes are reached from the root. *)
Theorem push_throw_breaks_size :
  reachable less_throwing two_queues
  ∧ fst (push less_throwing 8 1 7 two_queues) = Throw compare_exn
  ∧ queues (snd (push less_throwing 8 1 7 two_queues)) !! 1%positive
    = Some (PQ (Some 1%positive) 3)
  ∧ reachable_nodes 8 (store (snd (push less_throwing 8 1 7 two_queues)))
      (Some 1%positive)
    = {[1%positive; 3%positive]}
  ∧ size (reachable_nodes 8 (store (snd (push less_throwing 8 1 7 two_queues)))
            (Some 1%positive)) = 2%nat.
Proof.
  split; [apply two_queues_reachable|].
  split_and!; vm_compute; reflexivity.
Qed.

(** ** Iterator arithmetic *)

(** [operator-(int)] adds: it is [operator+(int)], for both kinds of
    iterators, while [operator-=] subtracts. *)
Lemma iterator_minus_is_plus it cit n :
  iterator.minus it n = iterator.plus it n
  ∧ const_iterator.minus cit n = const_iterator.plus cit n.
Proof. done. Qed.

(** Adding [n] and then subtracting [n] moves the iterator by [2 * n]
    positions: the round trip gives the iterator back for [n = 0] only. *)
Lemma iterator_round_trip_moves it n it1 it2 :
  iterator.plus it n = Ok it1 → iterator.minus it1 n = Ok it2 →
  it2 = iterator.mk (iterator.ptr_ it) (iterator.idx_ it + 2 * n)
  ∧ (it2 = it ↔ n = 0).
Proof.
  unfold iterator.plus, iterator.minus, int_add. destruct it as [p i]. simpl.
  destruct (decide (INT_MIN ≤ i + n ≤ INT_MAX)); [|discriminate]. simpl.
  intros [= <-]. simpl.
  destruct (decide (INT_MIN ≤ i + n + n ≤ INT_MAX)); [|discriminate]. simpl.
  intros [= <-]. split; [f_equal; lia|]. split.
  - intros [= H]. lia.
  - intros ->. f_equal. lia.
Qed.

(** C10, on the code — the round trip fails: from [begin()], adding 1 and
    then subtracting 1 gives the iterator at position 2, for both kinds of
    iterators, and dereferencing it gives the element at index 2. *)
Theorem iterator_round_trip_fails (base : Z) :
  iterator.plus (iterator.begin base) 1 = Ok (iterator.mk base 1)
  ∧ iterator.minus (iterator.mk base 1) 1 = Ok (iterator.mk base 2)
  ∧ iterator.minus_assign (iterator.mk base 1) 1 = Ok (iterator.begin base)
  ∧ const_iterator.plus (const_iterator.cbegin base) 1 = Ok (const_iterator.mk base 1)
  ∧ const_iterator.minus (const_iterator.mk base 1) 1 = Ok (const_iterator.mk base 2)
  ∧ const_iterator.minus_assign (const_iterator.mk base 1) 1
    = Ok (const_iterator.cbegin base)
  ∧ iterator.deref base [10; 20; 30] (iterator.begin base) = Ok 10
  ∧ iterator.deref base [10; 20; 30] (iterator.mk base 2) = Ok 30.
Proof.
  split_and!; try reflexivity.
  - unfold iterator.deref. simpl. rewrite decide_True by done. reflexivity.
  - unfold iterator.deref. simpl. rewrite decide_True by done. reflexivity.
Qed.

Section frame_facts.

Context {T : Type} (Compare : T → T → option bool).
Implicit Types (w : world T) (t : shape (T:=T)) (s : gmap positive (heapnode T)).

(** ** Queues do not interfere *)

(** Whatever its outcome, a call leaves alone every queue object it does not
    write to: the object, and the nodes of its tree. *)
Lemma call_frame fuel o w sh Q t r w' :
  owned_by w sh → Z.of_nat (size (store w)) ≤ SIZE_MAX →
  sh !! Q = Some t → Q ∉ writes o →
  call Compare fuel o w = (r, w') →
  queues w' !! Q = queues w !! Q
  ∧ ∀ a, a ∈ addrs t → store w' !! a = store w !! a.
Proof.
  intros Hown Hbound HQ Hw E.
  pose proof Hown as (Hdom & Hsh & Hdis).
  destruct (Hsh _ _ HQ) as (pQ & HqQ & HrootQ & HrepQ & HndQ & HsizeQ).
  assert (HinQ : ∀ a, a ∈ addrs t → a ∈ dom (store w)).
  { intros a Ha. by eapply repr_addrs_dom. }
  destruct o as [|other|this|this other|this|this e|this|this|this|this other];
    cbn [call writes] in *.
  - (* constructor *)
    destruct (pq_ctor_spec w sh Hown) as (q & Hc & Hq & Hown').
    unfold bind in E. rewrite Hc in E. injection E as <- <-. simpl.
    split; [|done]. rewrite lookup_insert_ne; [done|]. intros <-. congruence.
  - (* copy constructor *)
    unfold bind in E.
    destruct (pq_copy_ctor fuel other w) as [rc w1] eqn:Ec.
    assert (w' = w1) as -> by (destruct rc; by injection E as <- <-).
    destruct (sh !! other) as [to|] eqn:Hto.
    2:{ apply Hdom in Hto. rewrite (pq_copy_ctor_absent _ _ _ Hto) in Ec.
        by injection Ec as <- <-. }
    destruct (pq_copy_ctor_spec _ _ _ _ _ _ _ Hown Hto Ec) as (Hqs & Hst & _).
    split; [by rewrite (Hqs _ _ HqQ)|].
    intros a Ha. apply HinQ, elem_of_dom in Ha as [n Hn]. rewrite Hn. by apply Hst.
  - (* destructor *)
    destruct (sh !! this) as [tt'|] eqn:Htt.
    2:{ apply Hdom in Htt. rewrite (pq_dtor_absent _ _ _ Htt) in E.
        by injection E as <- <-. }
    assert (Hne : Q ≠ this) by set_solver.
    destruct (pq_dtor_spec _ _ _ _ _ _ _ Hown Htt E) as (Hqs & Hst & _).
    split; [by apply Hqs|]. intros a Ha. apply Hst. intros Hin.
    by eapply (Hdis Q this).
  - (* assignment *)
    destruct (decide (this = other)) as [->|Hne].
    { rewrite pq_assign_self in E. by injection E as <- <-. }
    destruct (sh !! this) as [tt'|] eqn:Htt.
    2:{ apply Hdom in Htt. rewrite (pq_assign_absent_this _ _ _ _ Hne Htt) in E.
        by injection E as <- <-. }
    assert (HneQ : Q ≠ this) by set_solver.
    destruct (sh !! other) as [to|] eqn:Hto.
    2:{ apply Hdom in Hto.
        destruct (pq_assign_absent_other _ _ _ _ _ _ _ _ Hown Htt Hto E) as (_ & Hqs & Hst).
        split; [by apply Hqs|]. intros a Ha. apply Hst. intros Hin.
        by eapply (Hdis Q this). }
    destruct (pq_assign_spec _ _ _ _ _ _ _ _ _ Hown Hne Htt Hto E) as (Hqs & Hst & _).
    split; [by apply Hqs|]. intros a Ha. apply Hst; [by apply HinQ|]. intros Hin.
    by eapply (Hdis Q this).
  - (* top *)
    unfold bind in E. pose proof (top_unchanged this w) as Hw'.
    destruct (top this w) as [[v|ex| |] w1]; simpl in Hw'; subst w1;
      by injection E as <- <-.
  - (* push *)
    destruct (sh !! this) as [tt'|] eqn:Htt.
    2:{ apply Hdom in Htt.
        destruct (push_absent _ _ _ _ _ _ _ Htt E) as (_ & Hqs & Hst).
        split; [by rewrite Hqs|]. intros a Ha.
        apply HinQ, elem_of_dom in Ha as [n Hn]. rewrite Hn. by apply Hst. }
    assert (HneQ : Q ≠ this) by set_solver.
    destruct (push_spec _ _ _ _ _ _ _ _ _ Hown Htt E) as (Hqs & Hst & _).
    split; [by apply Hqs|]. intros a Ha. apply Hst; [by apply HinQ|]. intros Hin.
    by eapply (Hdis Q this).
  - (* pop *)
    destruct (sh !! this) as [tt'|] eqn:Htt.
    2:{ apply Hdom in Htt. rewrite (pop_absent _ _ _ _ Htt) in E.
        by injection E as <- <-. }
    assert (HneQ : Q ≠ this) by set_solver.
    destruct (pop_spec _ _ _ _ _ _ _ _ Hown Hbound Htt E) as (Hqs & Hst & _).
    split; [by apply Hqs|]. intros a Ha. apply Hst. intros Hin.
    by eapply (Hdis Q this).
  - (* size *)
    unfold bind in E. pose proof (pq_size_unchanged this w) as Hw'.
    destruct (pq_size this w) as [[v|ex| |] w1]; simpl in Hw'; subst w1;
      by injection E as <- <-.
  - (* empty *)
    unfold bind in E. pose proof (pq_empty_unchanged this w) as Hw'.
    destruct (pq_empty this w) as [[v|ex| |] w1]; simpl in Hw'; subst w1;
      by injection E as <- <-.
  - (* merge *)
    destruct (decide (this = other)) as [->|Hne].
    { rewrite pq_merge_self in E. by injection E as <- <-. }
    destruct (sh !! this) as [tx|] eqn:Htx.
    2:{ apply Hdom in Htx. rewrite (pq_merge_absent _ _ _ _ _ Hne) in E by auto.
        by injection E as <- <-. }
    destruct (sh !! other) as [ty|] eqn:Hty.
    2:{ apply Hdom in Hty. rewrite (pq_merge_absent _ _ _ _ _ Hne) in E by auto.
        by injection E as <- <-. }
    assert (HneQ : Q ≠ this ∧ Q ≠ other) by set_solver. destruct HneQ as [HQ1 HQ2].
    destruct (pq_merge_spec _ _ _ _ _ _ _ _ _ _ Hown Hbound Hne Htx Hty E)
      as (Hqs & Hst & _).
    split; [by apply Hqs|]. intros a Ha. apply Hst. intros Hin.
    apply elem_of_app in Hin as [Hin|Hin].
    + by eapply (Hdis Q this).
    + by eapply (Hdis Q other).
Qed.

End frame_facts.

Section copy_facts.

Context {T : Type} (Compare : T → T → option bool).
Implicit Types (w : world T) (t : shape (T:=T)) (s : gmap positive (heapnode T)).

(** ** Copies *)

(** A call leaves alone what can be observed of a queue it does not write
    to: its tree, its size and its top element. *)
Lemma call_independent fuel o w Q t r w' :
  wf_world w → queue_shape w Q t → Q ∉ writes o →
  call Compare fuel o w = (r, w') →
  queue_shape w' Q t
  ∧ fst (pq_size Q w') = fst (pq_size Q w)
  ∧ fst (top Q w') = fst (top Q w).
Proof.
  intros [[sh Hown] Hbound] HQ Hw E.
  pose proof HQ as (pq & Hq & Hroot & Hrep & Hnd).
  apply (owned_by_shape _ _ _ _ Hown) in HQ.
  destruct (call_frame Compare _ _ _ _ _ _ _ _ Hown Hbound HQ Hw E) as [Hq' Hst].
  split_and!.
  - exists pq. split_and!; [rewrite Hq'; exact Hq|done|by eapply repr_frame|done].
  - rewrite (pq_size_ok w' Q pq), (pq_size_ok w Q pq); [done|done|by rewrite Hq'].
  - unfold top, bind, get_queue. rewrite Hq', Hq.
    destruct (decide (size_ pq = 0)); [done|]. rewrite Hroot.
    destruct t as [|a v l r0]; [done|]. destruct Hrep as (Ha & _). cbn [root].
    unfold load. rewrite Hst, Ha; [done|]. simpl. apply elem_of_cons. by left.
Qed.

Lemma call_wf fuel o w w' :
  wf_world w → call Compare fuel o w = (Ok tt, w') → wf_world w'.
Proof.
  intros [[sh Hown] Hbound] E. apply (world_inv_wf (λ _, True)).
  eapply (call_inv Compare (λ _, True)); try done. split; eauto.
Qed.

(** The same over a run of calls, each started once the one before it has
    returned, whatever the outcome of the last one started. *)
Lemma calls_independent fuel os : ∀ w Q t r w',
  wf_world w → queue_shape w Q t → (∀ o, o ∈ os → Q ∉ writes o) →
  calls Compare fuel os w = (r, w') →
  queue_shape w' Q t
  ∧ fst (pq_size Q w') = fst (pq_size Q w)
  ∧ fst (top Q w') = fst (top Q w).
Proof.
  induction os as [|o os IH]; intros w Q t r w' Hwf HQ Hw E; simpl in E.
  { by injection E as <- <-. }
  assert (Ho : Q ∉ writes o) by (apply Hw; apply elem_of_cons; by left).
  unfold bind in E. destruct (call Compare fuel o w) as [r1 w1] eqn:Ec.
  destruct (call_independent _ _ _ _ _ _ _ Hwf HQ Ho Ec) as (HQ1 & Hs1 & Ht1).
  destruct r1 as [[]|ex| |]; try (injection E as <- <-; done).
  destruct (IH w1 Q t r w') as (HQ2 & Hs2 & Ht2); try done.
  - by eapply call_wf.
  - intros o' Ho'. apply Hw. apply elem_of_cons. by right.
  - split_and!; [done|congruence|congruence].
Qed.

(** C9 — copies are deep and independent.  On a well-formed state where
    [Q] owns the tree [t]:
    - the copy constructor, when it returns, gives a new queue [C] that
      owns a tree of fresh nodes with the values of [t] at the same places,
      so the same size and the same elements, while [Q] is as before;
    - so does the assignment [C = Q] to another queue [C];
    - afterwards a run of calls none of which writes to one of the two
      leaves its tree, its size and its top as they were, whatever the
      outcome of the last call of the run;
    - the assignment [Q = Q] changes nothing;
    - the copy constructor does return when the recursion budget exceeds
      the number of nodes and the address space has room for them;
    - and the assignment [C = Q] to another queue [C] does return when the
      recursion budget exceeds the number of nodes of either tree and the
      address space has room for the clone once the nodes of [C] are
      freed. *)
Theorem copy_is_independent w Q t :
  wf_world w → queue_shape w Q t →
  (∀ fuel C w1, pq_copy_ctor fuel Q w = (Ok C, w1) →
     C ≠ Q ∧ queues w !! C = None ∧ wf_world w1 ∧ queue_shape w1 Q t
     ∧ ∃ t', queue_shape w1 C t' ∧ same_values t t' ∧ elems t' = elems t
         ∧ addrs t' ## addrs t
         ∧ fst (pq_size C w1) = fst (pq_size Q w)
         ∧ ∀ fuel' os r w2,
             calls Compare fuel' os w1 = (r, w2) →
             ((∀ o, o ∈ os → Q ∉ writes o) →
                queue_shape w2 Q t ∧ fst (pq_size Q w2) = fst (pq_size Q w1)
                ∧ fst (top Q w2) = fst (top Q w1))
             ∧ ((∀ o, o ∈ os → C ∉ writes o) →
                queue_shape w2 C t' ∧ fst (pq_size C w2) = fst (pq_size C w1)
                ∧ fst (top C w2) = fst (top C w1)))
  ∧ (∀ fuel C w1, C ≠ Q → pq_assign fuel C Q w = (Ok tt, w1) →
     wf_world w1 ∧ queue_shape w1 Q t
     ∧ ∃ t', queue_shape w1 C t' ∧ same_values t t' ∧ elems t' = elems t
         ∧ addrs t' ## addrs t
         ∧ fst (pq_size C w1) = fst (pq_size Q w)
         ∧ ∀ fuel' os r w2,
             calls Compare fuel' os w1 = (r, w2) →
             ((∀ o, o ∈ os → Q ∉ writes o) →
                queue_shape w2 Q t ∧ fst (pq_size Q w2) = fst (pq_size Q w1)
                ∧ fst (top Q w2) = fst (top Q w1))
             ∧ ((∀ o, o ∈ os → C ∉ writes o) →
                queue_shape w2 C t' ∧ fst (pq_size C w2) = fst (pq_size C w1)
                ∧ fst (top C w2) = fst (top C w1)))
  ∧ (∀ fuel, pq_assign fuel Q Q w = (Ok tt, w))
  ∧ (∀ fuel, (tsize t < fuel)%nat →
     Z.of_nat (size (store w)) + Z.of_nat (tsize t) ≤ SIZE_MAX →
     ∃ C w1, pq_copy_ctor fuel Q w = (Ok C, w1))
  ∧ (∀ fuel C tC, C ≠ Q → queue_shape w C tC →
     (tsize tC < fuel)%nat → (tsize t < fuel)%nat →
     Z.of_nat (size (store w)) - Z.of_nat (tsize tC) + Z.of_nat (tsize t)
     ≤ SIZE_MAX →
     ∃ w1, pq_assign fuel C Q w = (Ok tt, w1)).
Proof.
  intros Hwf HQ. pose proof Hwf as [[sh Hown] Hbound].
  pose proof HQ as (pq & Hq & Hroot & Hrep & Hnd).
  pose proof HQ as HshQ. apply (owned_by_shape _ _ _ _ Hown) in HshQ.
  pose proof Hown as (Hdom & Hsh & Hdis).
  destruct (Hsh _ _ HshQ) as (pq0 & Hq0 & _ & _ & _ & Hsize).
  rewrite Hq in Hq0. injection Hq0 as <-.
  assert (Hafter : ∀ w1 sh1 C t',
    owned_by w1 sh1 → Z.of_nat (size (store w1)) ≤ SIZE_MAX →
    C ≠ Q → sh1 !! C = Some t' → sh1 !! Q = Some t → same_values t t' →
    wf_world w1 ∧ queue_shape w1 Q t
    ∧ ∃ t', queue_shape w1 C t' ∧ same_values t t' ∧ elems t' = elems t
        ∧ addrs t' ## addrs t
        ∧ fst (pq_size C w1) = fst (pq_size Q w)
        ∧ ∀ fuel' os r w2,
            calls Compare fuel' os w1 = (r, w2) →
            ((∀ o, o ∈ os → Q ∉ writes o) →
               queue_shape w2 Q t ∧ fst (pq_size Q w2) = fst (pq_size Q w1)
               ∧ fst (top Q w2) = fst (top Q w1))
            ∧ ((∀ o, o ∈ os → C ∉ writes o) →
               queue_shape w2 C t' ∧ fst (pq_size C w2) = fst (pq_size C w1)
               ∧ fst (top C w2) = fst (top C w1))).
  { intros w1 sh1 C t' Hown1 Hbound1 Hne HC1 HQ1 Hsv.
    assert (Hwf1 : wf_world w1) by (split; eauto).
    pose proof (proj2 (owned_by_shape _ _ _ _ Hown1) HQ1) as HsQ1.
    pose proof (proj2 (owned_by_shape _ _ _ _ Hown1) HC1) as HsC1.
    split_and!; [done|done|]. exists t'. split_and!; try done.
    - by apply same_values_elems.
    - destruct Hown1 as (_ & _ & Hdis1). by eapply (Hdis1 C Q).
    - destruct Hown1 as (_ & Hsh1 & _).
      destruct (Hsh1 _ _ HC1) as (pc & Hqc & _ & _ & _ & Hsizec).
      rewrite (pq_size_ok _ _ _ Hqc), (pq_size_ok _ _ _ Hq). simpl.
      by rewrite Hsizec, Hsize, (same_values_tsize _ _ Hsv).
    - intros fuel' os r w2 E. split; intros Hw.
      + by eapply calls_independent.
      + by eapply calls_independent. }
  split_and!.
  - intros fuel C w1 E.
    destruct (pq_copy_ctor_spec _ _ _ _ _ _ _ Hown HshQ E)
      as (_ & _ & _ & _ & _ & Hok & _).
    destruct (Hok C eq_refl) as (t' & HC & Hsv & Hown1 & Hfresh & Hdom1 & Hb).
    assert (Hne : C ≠ Q) by (intros ->; congruence).
    split; [done|]. split; [done|].
    assert (Hnd' : NoDup (addrs t')).
    { destruct Hown1 as (_ & Hsh1 & _).
      destruct (Hsh1 C t') as (? & _ & _ & _ & ? & _); [by rewrite lookup_insert_eq|done]. }
    eapply (Hafter w1 (<[C := t']> sh) C t'); try done.
    + rewrite (size_store_fresh _ _ _ Hdom1 Hnd' Hfresh).
      fold (tsize t'). rewrite (same_values_tsize _ _ Hsv). lia.
    + by rewrite lookup_insert_eq.
    + by rewrite lookup_insert_ne.
  - intros fuel C w1 Hne E.
    destruct (sh !! C) as [tc|] eqn:HshC.
    2:{ apply Hdom in HshC. rewrite (pq_assign_absent_this _ _ _ _ Hne HshC) in E. done. }
    destruct (pq_assign_spec _ _ _ _ _ _ _ _ _ Hown Hne HshC HshQ E)
      as (_ & _ & _ & _ & _ & Hok & _).
    destruct (Hok eq_refl) as (t' & Hsv & Hown1 & Hb).
    eapply (Hafter w1 (<[C := t']> sh) C t'); try done.
    + auto.
    + by rewrite lookup_insert_eq.
    + by rewrite lookup_insert_ne.
  - intros fuel. apply pq_assign_self.
  - intros fuel Hf Hroom.
    destruct (pq_copy_ctor fuel Q w) as [r w1] eqn:E.
    destruct (pq_copy_ctor_spec _ _ _ _ _ _ _ Hown HshQ E)
      as (_ & _ & _ & Hoof & Hbad & _ & Hund & Hthrow).
    destruct r as [C|e| |].
    + eauto.
    + pose proof (Hthrow e eq_refl) as ->. by destruct (Hbad eq_refl).
    + by destruct (Hund eq_refl).
    + specialize (Hoof eq_refl). lia.
  - intros fuel C tC Hne HC HfC Hf Hroom.
    apply (owned_by_shape _ _ _ _ Hown) in HC.
    destruct (pq_assign fuel C Q w) as [r w1] eqn:E.
    destruct (pq_assign_spec _ _ _ _ _ _ _ _ _ Hown Hne HC HshQ E)
      as (_ & _ & _ & Hoof & Hbad & _ & Hund & Hthrow).
    destruct r as [[]|e| |].
    + eauto.
    + pose proof (Hthrow e eq_refl) as ->. by destruct (Hbad eq_refl).
    + by destruct (Hund eq_refl).
    + specialize (Hoof eq_refl). lia.
Qed.

End copy_facts.

Lemma pushed_1_2_wf : wf_world pushed_1_2.
Proof. exact (reachable_wf less pushed_1_2 pushed_1_2_reachable). Qed.

Lemma two_queues_budget_1 :
  (tsize (Node 1%positive 10 (Node 3%positive 5 Leaf Leaf)
            (Node 2%positive 3 Leaf Leaf)) < 8)%nat.
Proof. vm_compute. lia. Qed.

Lemma two_queues_budget_2 : (tsize (Node 4%positive 7 Leaf Leaf) < 8)%nat.
Proof. vm_compute. lia. Qed.

Lemma two_queues_room :
  Z.of_nat (size (store two_queues))
  - Z.of_nat (tsize (Node 4%positive 7 Leaf Leaf))
  + Z.of_nat (tsize (Node 1%positive 10 (Node 3%positive 5 Leaf Leaf)
                       (Node 2%positive 3 Leaf Leaf)))
  ≤ SIZE_MAX.
Proof. vm_compute. discriminate. Qed.

Lemma two_queues_assigned :
  pq_assign 8 2 1 two_queues = (Ok tt, snd (pq_assign 8 2 1 two_queues)).
Proof. vm_compute. reflexivity. Qed.

Lemma two_queues_assigned_run :
  calls less_throwing 8 [OpPush 2 9; OpPop 2]
    (snd (pq_assign 8 2 1 two_queues))
  = (Ok tt, snd (calls less_throwing 8 [OpPush 2 9; OpPop 2]
                   (snd (pq_assign 8 2 1 two_queues)))).
Proof. vm_compute. reflexivity. Qed.

Lemma run_on_2_keeps_1 o :
  o ∈ [OpPush 2%positive 9; OpPop 2%positive] → 1%positive ∉ writes o.
Proof.
  intros Ho Hin. repeat (apply elem_of_cons in Ho as [->|Ho]);
    try (apply list_elem_of_singleton in Hin; discriminate Hin).
  by apply elem_of_nil in Ho.
Qed.

(** The queue that holds 2 and 1 is copied; 9 is pushed on the copy and the
    copy is popped twice, and the original still has size 2 and top 2.  The
    queue that holds 7 is assigned the queue that holds 10, 5 and 3: the
    assignment returns, the target has size 3, and after a push and a pop
    on the target the source still has size 3 and top 10. *)
Lemma copy_is_independent_witness :
  (∃ w1 w2, pq_copy_ctor 8 1 pushed_1_2 = (Ok 2%positive, w1)
     ∧ fst (pq_size 2 w1) = Ok 2
     ∧ calls less 8 [OpPush 2 9; OpPop 2; OpPop 2] w1 = (Ok tt, w2)
     ∧ fst (pq_size 1 w2) = Ok 2
     ∧ fst (top 1 w2) = Ok 2
     ∧ fst (top 2 w2) = Ok 1)
  ∧ (∃ w1, pq_assign 8 2 1 two_queues = (Ok tt, w1))
  ∧ (∃ w1 w2, pq_assign 8 2 1 two_queues = (Ok tt, w1)
       ∧ fst (pq_size 2 w1) = Ok 3
       ∧ calls less_throwing 8 [OpPush 2 9; OpPop 2] w1 = (Ok tt, w2)
       ∧ fst (pq_size 1 w2) = Ok 3
       ∧ fst (top 1 w2) = Ok 10).
Proof.
  split; [|split].
  - pose proof (copy_is_independent less pushed_1_2 1 _ pushed_1_2_wf
                  pushed_1_2_shape) as (Hcopy & _).
    exists (snd (pq_copy_ctor 8 1 pushed_1_2)).
    exists (snd (calls less 8 [OpPush 2 9; OpPop 2; OpPop 2]
                   (snd (pq_copy_ctor 8 1 pushed_1_2)))).
    assert (E1 : pq_copy_ctor 8 1 pushed_1_2
                 = (Ok 2%positive, snd (pq_copy_ctor 8 1 pushed_1_2)))
      by (vm_compute; reflexivity).
    assert (E2 : calls less 8 [OpPush 2 9; OpPop 2; OpPop 2]
                   (snd (pq_copy_ctor 8 1 pushed_1_2))
                 = (Ok tt, snd (calls less 8 [OpPush 2 9; OpPop 2; OpPop 2]
                                  (snd (pq_copy_ctor 8 1 pushed_1_2)))))
      by (vm_compute; reflexivity).
    destruct (Hcopy 8%nat _ _ E1)
      as (_ & _ & _ & _ & t' & _ & _ & _ & _ & Hsz & Hind).
    destruct (Hind 8%nat
                [OpPush 2%positive 9; OpPop 2%positive; OpPop 2%positive]
                _ _ E2) as [HQ _].
    assert (Hw : ∀ o,
               o ∈ [OpPush 2%positive 9; OpPop 2%positive; OpPop 2%positive] →
               1%positive ∉ writes o).
    { intros o Ho Hin. repeat (apply elem_of_cons in Ho as [->|Ho]);
        try (apply list_elem_of_singleton in Hin; discriminate Hin).
      by apply elem_of_nil in Ho. }
    destruct (HQ Hw) as (_ & Hs2 & Ht2).
    split_and!; [exact E1| |exact E2| | |].
    + rewrite Hsz. vm_compute. reflexivity.
    + rewrite Hs2. vm_compute. reflexivity.
    + rewrite Ht2. vm_compute. reflexivity.
    + vm_compute. reflexivity.
  - pose proof (copy_is_independent less_throwing two_queues 1 _
                  (reachable_wf _ _ two_queues_reachable) two_queues_shape_1)
      as (_ & _ & _ & _ & Hreturns).
    exact (Hreturns 8%nat 2%positive _ ltac:(done) two_queues_shape_2
             two_queues_budget_2 two_queues_budget_1 two_queues_room).
  - pose proof (copy_is_independent less_throwing two_queues 1 _
                  (reachable_wf _ _ two_queues_reachable) two_queues_shape_1)
      as (_ & Hassign & _).
    exists (snd (pq_assign 8 2 1 two_queues)).
    exists (snd (calls less_throwing 8 [OpPush 2 9; OpPop 2]
                   (snd (pq_assign 8 2 1 two_queues)))).
    destruct (Hassign 8%nat 2%positive _ ltac:(done) two_queues_assigned)
      as (_ & _ & t' & _ & _ & _ & _ & Hsz & Hind).
    destruct (Hind 8%nat [OpPush 2%positive 9; OpPop 2%positive] _ _
                two_queues_assigned_run) as [HQ _].
    destruct (HQ run_on_2_keeps_1) as (_ & Hs2 & Ht2).
    split_and!; [exact two_queues_assigned| |exact two_queues_assigned_run| |].
    + rewrite Hsz. vm_compute. reflexivity.
    + rewrite Hs2. vm_compute. reflexivity.
    + rewrite Ht2. vm_compute. reflexivity.
Defined.

(** ** The vector *)

Section vector_facts.

Context {T : Type}.
Variable moved : T → T.
Implicit Types (v : vector.t T) (xs : list T) (data : list (option T)).

Lemma element_live data (i : nat) x :
  data !! i = Some (Some x) → vector.element data (Z.of_nat i) = Return x.
Proof.
  intros H. unfold vector.element. rewrite decide_True by lia.
  by rewrite Nat2Z.id, H.
Qed.

Lemma construct_ok data (i : nat) x :
  (i < length data)%nat →
  vector.construct data (Z.of_nat i) x = Return (<[i := Some x]> data).
Proof.
  intros H. unfold vector.construct. rewrite decide_True by lia.
  by rewrite Nat2Z.id.
Qed.

Lemma destroy_ok data (i : nat) x :
  data !! i = Some (Some x) →
  vector.destroy data (Z.of_nat i) = Return (<[i := None]> data).
Proof.
  intros H. unfold vector.destroy. rewrite (element_live _ _ _ H). simpl.
  by rewrite Nat2Z.id.
Qed.

Lemma move_out_ok data (i : nat) x :
  data !! i = Some (Some x) →
  vector.move_out moved data (Z.of_nat i)
  = Return (x, <[i := Some (moved x)]> data).
Proof.
  intros H. unfold vector.move_out. rewrite (element_live _ _ _ H). simpl.
  by rewrite Nat2Z.id.
Qed.

(** The destruction loop. *)
Lemma destroy_loop (n i : nat) data :
  (∀ j : nat, (i ≤ j < i + n)%nat → ∃ x, data !! j = Some (Some x)) →
  ∃ data', for_up n (Z.of_nat i) (λ i data, vector.destroy data i) data
           = Return data'
    ∧ length data' = length data
    ∧ (∀ j : nat, (i ≤ j < i + n)%nat → data' !! j = Some None)
    ∧ (∀ j : nat, ¬ (i ≤ j < i + n)%nat → data' !! j = data !! j).
Proof.
  revert i data. induction n as [|n IH]; intros i data Hlive; simpl.
  { exists data. split_and!; try done. lia. }
  destruct (Hlive i ltac:(lia)) as [x Hx].
  rewrite (destroy_ok _ _ _ Hx). simpl.
  replace (Z.of_nat i + 1) with (Z.of_nat (S i)) by lia.
  destruct (IH (S i) (<[i := None]> data)) as (data' & -> & Hlen & Hin & Hout).
  { intros j Hj. rewrite list_lookup_insert_ne by lia. apply Hlive. lia. }
  exists data'. split_and!; try done.
  - by rewrite Hlen, length_insert.
  - intros j Hj. destruct (decide (j = i)) as [->|Hne].
    + rewrite Hout by lia. apply list_lookup_insert_eq.
      by eapply lookup_lt_Some.
    + apply Hin. lia.
  - intros j Hj. rewrite Hout by lia. apply list_lookup_insert_ne. lia.
Qed.

(** The copy loop of the assignment. *)
Lemma copy_loop (n i : nat) (src data : list (option T)) :
  (∀ j : nat, (i ≤ j < i + n)%nat → ∃ x, src !! j = Some (Some x)) →
  (i + n ≤ length data)%nat →
  ∃ data', for_up n (Z.of_nat i)
             (λ i data, let! x := vector.element src i in
                        vector.construct data i x) data
           = Return data'
    ∧ length data' = length data
    ∧ (∀ j : nat, (i ≤ j < i + n)%nat → data' !! j = src !! j)
    ∧ (∀ j : nat, ¬ (i ≤ j < i + n)%nat → data' !! j = data !! j).
Proof.
  revert i data. induction n as [|n IH]; intros i data Hlive Hlen; simpl.
  { exists data. split_and!; try done. lia. }
  destruct (Hlive i ltac:(lia)) as [x Hx].
  rewrite (element_live _ _ _ Hx). simpl.
  rewrite construct_ok by lia. simpl.
  replace (Z.of_nat i + 1) with (Z.of_nat (S i)) by lia.
  destruct (IH (S i) (<[i := Some x]> data)) as (data' & -> & Hlen' & Hin & Hout).
  { intros j Hj. apply Hlive. lia. }
  { rewrite length_insert. lia. }
  exists data'. split_and!; try done.
  - by rewrite Hlen', length_insert.
  - intros j Hj. destruct (decide (j = i)) as [->|Hne].
    + rewrite Hout by lia. rewrite Hx. apply list_lookup_insert_eq. lia.
    + apply Hin. lia.
  - intros j Hj. rewrite Hout by lia. apply list_lookup_insert_ne. lia.
Qed.

(** The loop of [reserve]: the objects move to the new buffer. *)
Lemma reserve_loop (n i : nat) (data new_data : list (option T)) :
  (∀ j : nat, (i ≤ j < i + n)%nat → ∃ x, data !! j = Some (Some x)) →
  (i + n ≤ length new_data)%nat →
  ∃ data' new_data',
    for_up n (Z.of_nat i)
      (λ i '(data, new_data),
         let! '(x, data) := vector.move_out moved data i in
         let! new_data := vector.construct new_data i x in
         let! data := vector.destroy data i in
         Return (data, new_data))
      (data, new_data)
    = Return (data', new_data')
    ∧ length new_data' = length new_data
    ∧ (∀ j : nat, (i ≤ j < i + n)%nat → new_data' !! j = data !! j)
    ∧ (∀ j : nat, ¬ (i ≤ j < i + n)%nat → new_data' !! j = new_data !! j).
Proof.
  revert i data new_data.
  induction n as [|n IH]; intros i data new_data Hlive Hlen; simpl.
  { exists data, new_data. split_and!; try done. lia. }
  destruct (Hlive i ltac:(lia)) as [x Hx].
  rewrite (move_out_ok _ _ _ Hx). simpl.
  rewrite construct_ok by lia. simpl.
  assert (Hi : (i < length data)%nat) by by eapply lookup_lt_Some.
  rewrite (destroy_ok _ i (moved x)) by by apply list_lookup_insert_eq.
  simpl.
  replace (Z.of_nat i + 1) with (Z.of_nat (S i)) by lia.
  destruct (IH (S i) (<[i := None]> (<[i := Some (moved x)]> data))
              (<[i := Some x]> new_data))
    as (data' & new_data' & -> & Hlen' & Hin & Hout).
  { intros j Hj. rewrite !list_lookup_insert_ne by lia. apply Hlive. lia. }
  { rewrite length_insert. lia. }
  exists data', new_data'. split_and!; try done.
  - by rewrite Hlen', length_insert.
  - intros j Hj. destruct (decide (j = i)) as [->|Hne].
    + rewrite Hout by lia. rewrite Hx. apply list_lookup_insert_eq. lia.
    + rewrite Hin by lia. by rewrite !list_lookup_insert_ne by lia.
  - intros j Hj. rewrite Hout by lia. apply list_lookup_insert_ne. lia.
Qed.

(** The loop of [erase]: the objects after the gap move one slot down. *)
Lemma erase_loop (n i : nat) data :
  (∀ j : nat, (i < j ≤ i + n)%nat → ∃ x, data !! j = Some (Some x)) →
  (i < length data)%nat →
  ∃ data',
    for_up n (Z.of_nat i)
      (λ i data,
         let! '(x, data) := vector.move_out moved data (i + 1) in
         vector.construct data i x)
      data
    = Return data'
    ∧ length data' = length data
    ∧ (∀ j : nat, (i ≤ j < i + n)%nat → data' !! j = data !! S j)
    ∧ (∀ j : nat, (j < i)%nat → data' !! j = data !! j).
Proof.
  revert i data. induction n as [|n IH]; intros i data Hlive Hlen; simpl.
  { exists data. split_and!; try done. lia. }
  destruct (Hlive (S i) ltac:(lia)) as [x Hx].
  replace (Z.of_nat i + 1) with (Z.of_nat (S i)) by lia.
  rewrite (move_out_ok _ _ _ Hx). simpl.
  rewrite construct_ok by (rewrite length_insert; lia). simpl.
  assert (HSi : (S i < length data)%nat) by by eapply lookup_lt_Some.
  destruct (IH (S i) (<[i := Some x]> (<[S i := Some (moved x)]> data)))
    as (data' & -> & Hlen' & Hin & Hout).
  { intros j Hj. rewrite !list_lookup_insert_ne by lia. apply Hlive. lia. }
  { rewrite !length_insert. lia. }
  exists data'. split_and!; try done.
  - by rewrite Hlen', !length_insert.
  - intros j Hj. destruct (decide (j = i)) as [->|Hne].
    + rewrite Hout by lia. rewrite Hx. apply list_lookup_insert_eq.
      rewrite length_insert. lia.
    + rewrite Hin by lia. by rewrite !list_lookup_insert_ne by lia.
  - intros j Hj. rewrite Hout by lia.
    by rewrite !list_lookup_insert_ne by lia.
Qed.

(** The loop of [insert] with an index outside the buffer: the objects
    from the position on move one slot up. *)
Lemma insert_loop (b k i : nat) freed data :
  (∀ j : nat, (k ≤ j < i)%nat → ∃ x, data !! j = Some (Some x)) →
  (k ≤ i)%nat → (i < b)%nat → (i < length data)%nat →
  ∃ data',
    for_down_while b (Z.of_nat i)
      (λ i data,
         let! n := vector.read_index data freed (Index (Z.of_nat k)) in
         Return (bool_decide (i > n)))
      (λ i data,
         let! '(x, data) := vector.move_out moved data (i - 1) in
         vector.construct data i x)
      data
    = Return data'
    ∧ length data' = length data
    ∧ (∀ j : nat, (k ≤ j < i)%nat → data' !! S j = data !! j)
    ∧ (∀ j : nat, (j < k)%nat → data' !! j = data !! j)
    ∧ (∀ j : nat, (i < j)%nat → data' !! j = data !! j).
Proof.
  revert i data. induction b as [|b IH]; intros i data Hlive Hk Hb Hlen;
    [lia|]. simpl.
  destruct (decide (i = k)) as [->|Hne].
  { rewrite bool_decide_eq_false_2 by lia.
    exists data. split_and!; try done. lia. }
  rewrite bool_decide_eq_true_2 by lia.
  destruct i as [|i]; [lia|].
  destruct (Hlive i ltac:(lia)) as [x Hx].
  replace (Z.of_nat (S i) - 1) with (Z.of_nat i) by lia.
  rewrite (move_out_ok _ _ _ Hx). simpl.
  rewrite construct_ok by (rewrite length_insert; lia). simpl.
  destruct (IH i (<[S i := Some x]> (<[i := Some (moved x)]> data)))
    as (data' & E & Hlen' & Hin & Hout & Habove).
  { intros j Hj. rewrite !list_lookup_insert_ne by lia. apply Hlive. lia. }
  { lia. }
  { lia. }
  { rewrite !length_insert. lia. }
  simpl in E. rewrite E.
  exists data'. split_and!; try done.
  - by rewrite Hlen', !length_insert.
  - intros j Hj. destruct (decide (j = i)) as [->|Hne'].
    + rewrite Habove by lia. rewrite Hx. apply list_lookup_insert_eq.
      rewrite length_insert. lia.
    + rewrite Hin by lia. by rewrite !list_lookup_insert_ne by lia.
  - intros j Hj. rewrite Hout by lia.
    by rewrite !list_lookup_insert_ne by lia.
  - intros j Hj. rewrite Habove by lia.
    by rewrite !list_lookup_insert_ne by lia.
Qed.

Lemma holds_slot v xs (i : nat) x :
  vector.holds v xs → xs !! i = Some x → vector.buffer v !! i = Some (Some x).
Proof. intros (_ & _ & _ & H). apply H. Qed.

Lemma holds_live v xs (j : nat) :
  vector.holds v xs → (j < length xs)%nat →
  ∃ x, vector.buffer v !! j = Some (Some x).
Proof.
  intros Hv Hj. destruct (lookup_lt_is_Some_2 xs j Hj) as [x Hx].
  exists x. by eapply holds_slot.
Qed.

(** The list a vector holds is what [contents] computes. *)
Lemma holds_contents v xs : vector.holds v xs → vector.contents v = xs.
Proof.
  intros (Hsz & Hcap & Hlen & Hslots). unfold vector.contents.
  rewrite Hsz, Nat2Z.id.
  assert (Htake : take (length xs) (vector.buffer v) = Some <$> xs).
  { apply list_eq. intros i. rewrite list_lookup_fmap.
    destruct (xs !! i) as [x|] eqn:Hx; simpl.
    - rewrite lookup_take_lt by by eapply lookup_lt_Some. by apply Hslots.
    - apply lookup_ge_None in Hx. by rewrite lookup_take_ge. }
  rewrite Htake. clear. induction xs as [|x xs IH]; [done|].
  simpl. by f_equal.
Qed.

Lemma holds_inj v xs ys : vector.holds v xs → vector.holds v ys → xs = ys.
Proof.
  intros H1 H2. by rewrite <- (holds_contents _ _ H1), <- (holds_contents _ _ H2).
Qed.

Lemma ctor_holds : vector.holds (@vector.ctor T) [].
Proof. unfold vector.holds, SIZE_MAX. simpl. split_and!; try done. Qed.

Lemma destroy_all_holds v xs :
  vector.holds v xs →
  ∃ data, vector.destroy_all v = Return data
    ∧ length data = length (vector.buffer v).
Proof.
  intros Hv. unfold vector.destroy_all.
  pose proof Hv as (Hsz & Hcap & Hlen & Hslots). rewrite Hsz, Nat2Z.id.
  destruct (destroy_loop (length xs) 0 (vector.buffer v))
    as (data & Hrun & Hlen' & _).
  { intros j Hj. eapply holds_live; [done|lia]. }
  exists data. by split.
Qed.

Lemma reserve_holds v xs new_capacity p :
  vector.holds v xs →
  vector.size_ v ≤ new_capacity ≤ SIZE_MAX → p ≠ 0 →
  ∃ data, vector.reserve moved v new_capacity p
          = Return (vector.mk (vector.size_ v) new_capacity p data)
    ∧ vector.holds (vector.mk (vector.size_ v) new_capacity p data) xs.
Proof.
  intros Hv Hnew Hp. pose proof Hv as (Hsz & Hcap & Hlen & Hslots).
  unfold vector.reserve, vector.malloc. rewrite decide_False by done.
  rewrite Hsz, Nat2Z.id.
  destruct (reserve_loop (length xs) 0 (vector.buffer v)
              (replicate (Z.to_nat new_capacity) None))
    as (data' & new_data' & Hrun & Hlen' & Hin & Hout).
  { intros j Hj. eapply holds_live; [done|lia]. }
  { rewrite length_replicate. lia. }
  change (Z.of_nat 0) with 0 in Hrun. rewrite Hrun. simpl.
  exists new_data'. split; [done|].
  unfold vector.holds. simpl. split_and!; try lia.
  - rewrite Hlen', length_replicate. lia.
  - intros i x Hx. rewrite Hin by (apply lookup_lt_Some in Hx; lia).
    by apply Hslots.
Qed.

(** [reserve] with a capacity below the size writes past the new buffer. *)
Lemma reserve_loop_returns (n i : nat) (data new_data : list (option T)) r :
  for_up n (Z.of_nat i)
    (λ i '(data, new_data),
       let! '(x, data) := vector.move_out moved data i in
       let! new_data := vector.construct new_data i x in
       let! data := vector.destroy data i in
       Return (data, new_data))
    (data, new_data)
  = Return r →
  n = 0%nat ∨ (i + n ≤ length new_data)%nat.
Proof.
  revert i data new_data. induction n as [|n IH]; intros i data new_data; simpl.
  { by left. }
  intros H. right.
  destruct (vector.move_out moved data (Z.of_nat i)) as [[x data1]| |] eqn:E1;
    simpl in H; try done.
  unfold vector.construct in H. case_decide as Hi; simpl in H; [|done].
  destruct (vector.destroy data1 (Z.of_nat i)) as [data2| |] eqn:E2;
    simpl in H; try done.
  replace (Z.of_nat i + 1) with (Z.of_nat (S i)) in H by lia.
  apply IH in H. rewrite length_insert in H. lia.
Qed.

Lemma grow_holds v xs p :
  vector.holds v xs →
  (vector.size_ v = vector.capacity_ v →
   vector.capacity_ v * 2 ≤ SIZE_MAX ∧ p ≠ 0) →
  ∃ v', vector.grow moved v p = Return v'
    ∧ vector.holds v' xs
    ∧ vector.size_ v' < vector.capacity_ v'
    ∧ vector.size_ v' = vector.size_ v
    ∧ (vector.size_ v ≠ vector.capacity_ v → v' = v)
    ∧ (vector.size_ v = vector.capacity_ v →
       vector.data_ v' = p
       ∧ vector.capacity_ v'
         = if decide (vector.capacity_ v = 0) then 1
           else vector.capacity_ v * 2).
Proof.
  intros Hv Hfull. pose proof Hv as (Hsz & Hcap & Hlen & Hslots).
  unfold vector.grow. case_decide as Hf.
  - destruct (Hfull Hf) as [Hdbl Hp].
    set (nc := if decide (vector.capacity_ v ≠ 0)
               then wrap (vector.capacity_ v * 2) else 1).
    assert (Hnc : nc = if decide (vector.capacity_ v = 0) then 1
                       else vector.capacity_ v * 2).
    { unfold nc. repeat case_decide; try done. rewrite wrap_small; lia. }
    destruct (reserve_holds v xs nc p) as (data & -> & Hv'); try done.
    { rewrite Hnc. unfold SIZE_MAX in *. case_decide; lia. }
    eexists. split; [done|]. simpl. split_and!; try done.
    rewrite Hnc. case_decide; lia.
  - exists v. split_and!; try done. lia.
Qed.

(** A full vector whose capacity cannot be doubled in [size_t]: the
    reallocation writes past the new buffer. *)
Lemma grow_returns v xs p v' :
  vector.holds v xs → vector.grow moved v p = Return v' →
  vector.size_ v = vector.capacity_ v →
  vector.capacity_ v * 2 ≤ SIZE_MAX.
Proof.
  intros Hv Hrun Hf. pose proof Hv as (Hsz & Hcap & Hlen & Hslots).
  destruct (decide (vector.capacity_ v = 0)) as [Hz|Hz].
  { rewrite Hz. by unfold SIZE_MAX. }
  unfold vector.grow in Hrun. rewrite decide_True in Hrun by done.
  rewrite (decide_True _ _ Hz) in Hrun.
  unfold vector.reserve in Hrun.
  destruct (for_up _ _ _ _) as [[data new_data]| |] eqn:E; try done.
  rewrite Hsz, Nat2Z.id in E.
  apply (reserve_loop_returns _ 0) in E.
  destruct E as [E|E]; [lia|].
  assert (Hl : (length (vector.malloc (T:=T) (wrap (vector.capacity_ v * 2)) p)
                ≤ Z.to_nat (wrap (vector.capacity_ v * 2)))%nat).
  { unfold vector.malloc. case_decide; simpl; [lia|].
    by rewrite length_replicate. }
  destruct (decide (vector.capacity_ v * 2 ≤ SIZE_MAX)) as [|Hbig]; [done|].
  exfalso. unfold wrap, SIZE_MAX in *.
  assert ((vector.capacity_ v * 2) mod 2 ^ 64
          = vector.capacity_ v * 2 - 2 ^ 64).
  { symmetry. apply (Z.mod_unique _ _ 1); lia. }
  lia.
Qed.

(** A loop whose body does not throw does not throw, and neither does
    [reserve]. *)
Lemma for_up_no_raise {S} (n : nat) i (body : Z → S → outcome S) s e :
  (∀ i s, body i s ≠ Raise e) → for_up n i body s ≠ Raise e.
Proof.
  intros Hbody. revert i s. induction n as [|n IH]; intros i s; simpl; [done|].
  destruct (body i s) as [s'| |] eqn:E; simpl; try done.
  intros [= ->]. by apply (Hbody i s).
Qed.

Lemma element_no_raise data i e : vector.element data i ≠ Raise e.
Proof.
  unfold vector.element. case_decide; [|done].
  by destruct (data !! Z.to_nat i) as [[x|]|].
Qed.

Lemma grow_no_raise v p e : vector.grow moved v p ≠ Raise e.
Proof.
  unfold vector.grow. case_decide; [|done]. unfold vector.reserve.
  destruct (for_up _ _ _ _) as [[data new_data]|e'|] eqn:E; simpl; try done.
  intros [= ->]. revert E. apply for_up_no_raise.
  intros i [data new_data]. unfold vector.move_out, vector.destroy.
  destruct (vector.element data i) as [x|e1|] eqn:E1; simpl;
    [|by destruct (element_no_raise _ _ _ E1)|done].
  unfold vector.construct. case_decide; simpl; [|done].
  destruct (vector.element (<[_ := _]> data) i) as [y|e2|] eqn:E2; simpl;
    [done|by destruct (element_no_raise _ _ _ E2)|done].
Qed.

(** A full vector that has to grow when [malloc] returns null. *)
Lemma grow_null v xs :
  vector.holds v xs → vector.size_ v = vector.capacity_ v →
  vector.grow moved v 0 = UB
  ∨ vector.size_ v = 0
    ∧ vector.grow moved v 0 = Return (vector.mk 0 1 0 []).
Proof.
  intros Hv Hf. pose proof Hv as (Hsz & Hcap & Hlen & Hslots).
  unfold vector.grow, vector.reserve, vector.malloc.
  rewrite !decide_True by done.
  destruct xs as [|x xs]; simpl in Hsz.
  - right. split; [done|]. rewrite decide_False by lia. by rewrite Hsz.
  - left. rewrite Hsz, Nat2Z.id. simpl.
    rewrite (move_out_ok _ 0 x) by (by apply Hslots). done.
Qed.

Lemma push_back_holds v xs value x p :
  vector.holds v xs →
  (vector.size_ v = vector.capacity_ v →
   vector.capacity_ v * 2 ≤ SIZE_MAX ∧ p ≠ 0) →
  (value = Outside x
   ∨ ∃ i : nat, value = Inside (Z.of_nat i)
       ∧ vector.size_ v ≠ vector.capacity_ v ∧ xs !! i = Some x) →
  ∃ v', vector.push_back moved v value p = Return v'
    ∧ vector.holds v' (xs ++ [x])
    ∧ (vector.size_ v ≠ vector.capacity_ v →
       vector.capacity_ v' = vector.capacity_ v
       ∧ vector.data_ v' = vector.data_ v)
    ∧ (vector.size_ v = vector.capacity_ v →
       vector.data_ v' = p
       ∧ vector.capacity_ v'
         = if decide (vector.capacity_ v = 0) then 1
           else vector.capacity_ v * 2).
Proof.
  intros Hv Hfull Hvalue.
  destruct (grow_holds v xs p Hv Hfull)
    as (v1 & Hg & Hv1 & Hlt & Hsize & Hsame & Hnew).
  pose proof Hv1 as (Hsz & Hcap & Hlen & Hslots).
  unfold vector.push_back. rewrite Hg. simpl.
  assert (Hread : vector.read (vector.buffer v1)
                    (bool_decide (vector.size_ v = vector.capacity_ v)) value
                  = Return x).
  { destruct Hvalue as [->|(i & -> & Hroom & Hi)]; [done|]. simpl.
    rewrite bool_decide_eq_false_2 by done.
    by rewrite (element_live _ _ _ (Hslots _ _ Hi)). }
  rewrite Hread. simpl.
  rewrite Hsz, construct_ok by lia. simpl.
  eexists. split; [done|]. split_and!.
  - unfold vector.holds. simpl. rewrite length_app, length_insert. simpl.
    split_and!; try lia.
    + rewrite wrap_small; lia.
    + rewrite wrap_small; lia.
    + intros i y [Hy|[Hi Hy]]%lookup_app_Some.
      * rewrite list_lookup_insert_ne
          by (apply lookup_lt_Some in Hy; lia).
        by apply Hslots.
      * destruct (i - length xs)%nat as [|k] eqn:Hk; [|done].
        injection Hy as <-. replace i with (length xs) by lia.
        apply list_lookup_insert_eq. lia.
  - intros Hne. simpl. by rewrite (Hsame Hne).
  - intros He. simpl. by apply Hnew.
Qed.

Lemma pop_back_holds v xs x :
  vector.holds v (xs ++ [x]) →
  ∃ data, vector.pop_back v
          = Return (vector.mk (vector.size_ v - 1) (vector.capacity_ v)
                      (vector.data_ v) data)
    ∧ vector.holds (vector.mk (vector.size_ v - 1) (vector.capacity_ v)
                      (vector.data_ v) data) xs.
Proof.
  intros Hv. pose proof Hv as (Hsz & Hcap & Hlen & Hslots).
  rewrite length_app in Hsz. simpl in Hsz.
  unfold vector.pop_back. rewrite decide_False by lia. simpl.
  rewrite wrap_small by lia.
  replace (vector.size_ v - 1) with (Z.of_nat (length xs)) by lia.
  rewrite (destroy_ok _ _ x).
  2:{ apply Hslots. rewrite lookup_app_r by lia.
      by rewrite Nat.sub_diag. }
  simpl. eexists. split; [done|].
  unfold vector.holds. simpl. rewrite length_insert. split_and!; try lia.
  intros i y Hy.
  rewrite list_lookup_insert_ne by (apply lookup_lt_Some in Hy; lia).
  apply Hslots. by apply lookup_app_l_Some.
Qed.

Lemma pop_back_empty v :
  vector.holds v [] →
  vector.pop_back v = Raise (other_exn container_is_empty).
Proof.
  intros (Hsz & _). unfold vector.pop_back. by rewrite decide_True.
Qed.

Lemma clear_holds v xs :
  vector.holds v xs →
  ∃ data, vector.clear v
          = Return (vector.mk 0 (vector.capacity_ v) (vector.data_ v) data)
    ∧ vector.holds (vector.mk 0 (vector.capacity_ v) (vector.data_ v) data)
        [].
Proof.
  intros Hv. destruct (destroy_all_holds v xs Hv) as (data & Hd & Hlen').
  pose proof Hv as (Hsz & Hcap & Hlen & Hslots).
  unfold vector.clear. rewrite Hd. simpl. exists data. split; [done|].
  unfold vector.holds. simpl. split_and!; try lia.
  intros i y Hy. done.
Qed.

Lemma assign_other_holds this other xs ys p :
  vector.holds this ys → vector.holds other xs →
  (vector.capacity_ other ≠ 0 → p ≠ 0) →
  ∃ data, vector.assign_other this other p
          = Return (vector.mk (vector.size_ other) (vector.capacity_ other)
                      p data)
    ∧ vector.holds (vector.mk (vector.size_ other) (vector.capacity_ other)
                      p data) xs.
Proof.
  intros Hthis Hother Hp.
  destruct (destroy_all_holds this ys Hthis) as (data0 & Hd & _).
  pose proof Hother as (Hsz & Hcap & Hlen & Hslots).
  unfold vector.assign_other. rewrite Hd. simpl.
  assert (Hm : length (vector.malloc (T:=T) (vector.capacity_ other) p)
               = Z.to_nat (vector.capacity_ other)).
  { unfold vector.malloc. case_decide as Hz.
    - destruct (decide (vector.capacity_ other = 0)) as [->|Hc]; [done|].
      by destruct (Hp Hc).
    - by rewrite length_replicate. }
  rewrite Hsz, Nat2Z.id.
  destruct (copy_loop (length xs) 0 (vector.buffer other)
              (vector.malloc (vector.capacity_ other) p))
    as (data & Hrun & Hlen' & Hin & Hout).
  { intros j Hj. eapply holds_live; [done|lia]. }
  { rewrite Hm. lia. }
  change (Z.of_nat 0) with 0 in Hrun. rewrite Hrun. simpl.
  exists data. split; [done|].
  unfold vector.holds. simpl. split_and!; try lia.
  intros i y Hy. rewrite Hin by (apply lookup_lt_Some in Hy; lia).
  by apply Hslots.
Qed.

Lemma at_holds v xs (pos : Z) :
  vector.holds v xs → 0 ≤ pos →
  vector.at_ v pos
  = match xs !! Z.to_nat pos with
    | Some x => Return x
    | None => Raise index_out_of_bound
    end.
Proof.
  intros Hv Hpos. pose proof Hv as (Hsz & Hcap & Hlen & Hslots).
  unfold vector.at_. destruct (xs !! Z.to_nat pos) as [x|] eqn:Hx.
  - pose proof (lookup_lt_Some _ _ _ Hx).
    rewrite decide_False by lia.
    rewrite <- (Z2Nat.id pos) at 1 by done.
    apply element_live. by apply Hslots.
  - apply lookup_ge_None in Hx. rewrite decide_True by lia. done.
Qed.

Lemma insert_lookup xs (ind k : nat) (value : T) :
  (ind ≤ length xs)%nat →
  (take ind xs ++ value :: drop ind xs) !! k
  = if decide (k < ind)%nat then xs !! k
    else if decide (k = ind) then Some value else xs !! pred k.
Proof.
  intros Hind. case_decide as H1.
  - rewrite lookup_app_l by (rewrite length_take; lia).
    by rewrite lookup_take_lt.
  - rewrite lookup_app_r by (rewrite length_take; lia).
    rewrite length_take, Nat.min_l by lia.
    case_decide as H2.
    + subst. by rewrite Nat.sub_diag.
    + destruct (k - ind)%nat as [|j] eqn:Hj; [lia|]. simpl.
      rewrite lookup_drop. f_equal. lia.
Qed.

Lemma insert_holds v xs (ind : nat) value x p :
  vector.holds v xs → (ind ≤ length xs)%nat →
  (vector.size_ v = vector.capacity_ v →
   vector.capacity_ v * 2 ≤ SIZE_MAX ∧ p ≠ 0) →
  (value = Outside x
   ∨ ∃ i : nat, value = Inside (Z.of_nat i)
       ∧ vector.size_ v ≠ vector.capacity_ v
       ∧ ((i < ind)%nat ∧ xs !! i = Some x
          ∨ (ind < i < length xs)%nat ∧ xs !! (i - 1)%nat = Some x)) →
  ∃ v', vector.insert moved v (Index (Z.of_nat ind)) value p
        = Return (iterator.mk (vector.data_ v') (to_int (Z.of_nat ind)), v')
    ∧ vector.holds v' (take ind xs ++ x :: drop ind xs)
    ∧ (vector.size_ v ≠ vector.capacity_ v →
       vector.capacity_ v' = vector.capacity_ v
       ∧ vector.data_ v' = vector.data_ v)
    ∧ (vector.size_ v = vector.capacity_ v →
       vector.data_ v' = p
       ∧ vector.capacity_ v'
         = if decide (vector.capacity_ v = 0) then 1
           else vector.capacity_ v * 2).
Proof.
  intros Hv Hind Hfull Hvalue.
  destruct (grow_holds v xs p Hv Hfull)
    as (v1 & Hg & Hv1 & Hlt & Hsize & Hsame & Hnew).
  pose proof Hv as (Hsz0 & _).
  pose proof Hv1 as (Hsz & Hcap & Hlen & Hslots).
  unfold vector.insert. cbn [vector.read_index obind].
  rewrite decide_False by lia. rewrite Hg. cbn [obind].
  rewrite (wrap_small (vector.size_ v1 + 1)) by lia.
  replace (vector.size_ v1 + 1 - 1) with (vector.size_ v1) by lia.
  rewrite wrap_small by lia. rewrite Hsz.
  destruct (insert_loop (S (Z.to_nat (Z.of_nat (length xs)))) ind (length xs)
              (bool_decide (vector.size_ v = vector.capacity_ v))
              (vector.buffer v1))
    as (data & E & Hlen' & Hin & Hbelow & Habove).
  { intros j Hj. eapply holds_live; [done|lia]. }
  { lia. }
  { lia. }
  { lia. }
  cbn [vector.read_index obind] in E. rewrite E. cbn [obind].
  assert (Hread : vector.read data
                    (bool_decide (vector.size_ v = vector.capacity_ v)) value
                  = Return x).
  { destruct Hvalue as [->|(i & -> & Hroom & Hi)]; [done|]. simpl.
    rewrite bool_decide_eq_false_2 by done. apply element_live.
    destruct Hi as [[Hi Hx]|[Hi Hx]].
    - rewrite Hbelow by done. by apply Hslots.
    - destruct i as [|i]; [lia|]. simpl in Hx. rewrite Nat.sub_0_r in Hx.
      rewrite Hin by lia. by apply Hslots. }
  rewrite Hread. cbn [obind].
  rewrite construct_ok by lia. cbn [obind].
  eexists (vector.mk _ _ _ _). split; [done|]. simpl. split_and!.
  - unfold vector.holds. simpl.
    rewrite length_app, length_take, length_insert. simpl.
    rewrite length_drop. split_and!; try lia.
    intros k y. rewrite insert_lookup by done.
    destruct (decide (k < ind)%nat) as [H1|H1];
      [|destruct (decide (k = ind)) as [H2|H2]].
    + intros Hy. rewrite list_lookup_insert_ne by lia.
      rewrite Hbelow by lia. by apply Hslots.
    + intros [= <-]. subst k. apply list_lookup_insert_eq. lia.
    + intros Hy. rewrite list_lookup_insert_ne by lia.
      destruct k as [|k]; [lia|]. simpl in Hy.
      rewrite Hin by (apply lookup_lt_Some in Hy; lia). by apply Hslots.
  - intros Hne. by rewrite (Hsame Hne).
  - intros He. by apply Hnew.
Qed.

Lemma erase_holds v xs (ind : nat) :
  vector.holds v xs → (ind < length xs)%nat →
  ∃ data,
    vector.erase moved v (Index (Z.of_nat ind))
    = Return (iterator.mk (vector.data_ v) (to_int (Z.of_nat ind)),
              vector.mk (vector.size_ v - 1) (vector.capacity_ v)
                (vector.data_ v) data)
    ∧ vector.holds (vector.mk (vector.size_ v - 1) (vector.capacity_ v)
                      (vector.data_ v) data) (delete ind xs).
Proof.
  intros Hv Hind. pose proof Hv as (Hsz & Hcap & Hlen & Hslots).
  unfold vector.erase. cbn [vector.read_index obind].
  rewrite decide_False by lia.
  destruct (holds_live v xs ind Hv Hind) as [x Hx].
  rewrite (destroy_ok _ _ _ Hx). simpl.
  rewrite wrap_small by lia.
  replace (Z.to_nat (vector.size_ v - 1 - Z.of_nat ind))
    with (length xs - 1 - ind)%nat by lia.
  destruct (erase_loop (length xs - 1 - ind) ind
              (<[ind := None]> (vector.buffer v)))
    as (data & -> & Hlen' & Hin & Hbelow).
  { intros j Hj. rewrite list_lookup_insert_ne by lia.
    eapply holds_live; [done|lia]. }
  { rewrite length_insert. lia. }
  simpl. exists data. split; [done|].
  unfold vector.holds. simpl. rewrite length_delete by
    by apply lookup_lt_is_Some_2.
  rewrite length_insert in Hlen'. split_and!; try lia.
  intros k y Hy. pose proof (lookup_lt_Some _ _ _ Hy) as Hk.
  rewrite length_delete in Hk by by apply lookup_lt_is_Some_2.
  destruct (decide (k < ind)%nat) as [H1|H1].
  - rewrite list_lookup_delete_lt in Hy by done.
    rewrite Hbelow by done. rewrite list_lookup_insert_ne by lia.
    by apply Hslots.
  - rewrite list_lookup_delete_ge in Hy by lia.
    rewrite Hin by lia. rewrite list_lookup_insert_ne by lia.
    by apply Hslots.
Qed.

Lemma holds_intro v xs :
  vector.size_ v = Z.of_nat (length xs) →
  vector.size_ v ≤ vector.capacity_ v ≤ SIZE_MAX →
  Z.of_nat (length (vector.buffer v)) = vector.capacity_ v →
  take (length xs) (vector.buffer v) = Some <$> xs →
  vector.holds v xs.
Proof.
  intros Hsz Hcap Hlen Htake. repeat split; try done; try apply Hcap.
  intros i x Hx. rewrite <- (lookup_take_lt _ (length xs))
    by by eapply lookup_lt_Some.
  by rewrite Htake, list_lookup_fmap, Hx.
Qed.

Lemma holds_size v xs :
  vector.holds v xs → vector.size v = Z.of_nat (length xs).
Proof. by intros (H & _). Qed.

Lemma subscript_at v pos : vector.subscript v pos = vector.at_ v pos.
Proof. done. Qed.

Lemma front_holds v xs :
  vector.holds v xs →
  vector.front v
  = match xs with
    | [] => Raise (other_exn container_is_empty)
    | x :: _ => Return x
    end.
Proof.
  intros Hv. pose proof Hv as (Hsz & Hcap & Hlen & Hslots).
  unfold vector.front. destruct xs as [|x xs]; simpl in *.
  - by rewrite decide_True.
  - rewrite decide_False by lia. by apply (element_live _ 0%nat), Hslots.
Qed.

Lemma back_holds v xs :
  vector.holds v xs →
  vector.back v
  = match last xs with
    | None => Raise (other_exn container_is_empty)
    | Some x => Return x
    end.
Proof.
  intros Hv. pose proof Hv as (Hsz & Hcap & Hlen & Hslots).
  unfold vector.back. rewrite last_lookup.
  destruct xs as [|x0 xs]; simpl in *.
  - by rewrite decide_True.
  - rewrite decide_False by lia. rewrite wrap_small by lia.
    destruct (lookup_lt_is_Some_2 (x0 :: xs) (length xs)) as [y Hy];
      [simpl; lia|].
    rewrite Hy.
    replace (vector.size_ v - 1) with (Z.of_nat (length xs)) by lia.
    by apply element_live, Hslots.
Qed.

Lemma deref_holds v xs (k : nat) :
  vector.holds v xs → (k < length xs)%nat →
  vector.deref v (iterator.mk (vector.data_ v) (Z.of_nat k))
  = vector.at_ v (Z.of_nat k).
Proof.
  intros Hv Hk. pose proof Hv as (Hsz & _).
  unfold vector.deref, vector.at_. simpl.
  rewrite decide_True by done. by rewrite decide_False by lia.
Qed.

Lemma to_int_small z : INT_MIN ≤ z ≤ INT_MAX → to_int z = z.
Proof.
  unfold to_int, INT_MIN, INT_MAX. intros H.
  rewrite Z.mod_small by lia. lia.
Qed.

End vector_facts.

Section vector_properties.

Context {T : Type}.
Variable moved : T → T.
Implicit Types (v : vector.t T) (xs : list T) (data : list (option T)).

Lemma deref_at v (k : Z) :
  0 ≤ k < vector.size_ v →
  vector.deref v (iterator.mk (vector.data_ v) k) = vector.at_ v k.
Proof.
  intros Hk. unfold vector.deref, vector.at_. simpl.
  rewrite decide_True by done. by rewrite decide_False by lia.
Qed.

(** X1 — [at] and [operator[]] are the same bounds-checked access: on a vector
    that holds [xs] they return the element at [pos] when [pos < size()],
    and throw [index_out_of_bound] exactly when [pos >= size()]. *)
Theorem at_checks_bounds v xs pos :
  vector.holds v xs → 0 ≤ pos →
  vector.at_ v pos
  = match xs !! Z.to_nat pos with
    | Some x => Return x
    | None => Raise index_out_of_bound
    end
  ∧ vector.subscript v pos = vector.at_ v pos
  ∧ (vector.at_ v pos = Raise index_out_of_bound ↔ pos >= vector.size v).
Proof.
  unfold vector.size, vector.capacity. intros Hv Hpos. split_and!.
  - by apply at_holds.
  - done.
  - rewrite (at_holds v xs pos Hv Hpos).
    pose proof (holds_size v xs Hv) as Hsz; unfold vector.size in Hsz.
    rewrite Hsz.
    destruct (xs !! Z.to_nat pos) as [x|] eqn:Hx.
    + apply lookup_lt_Some in Hx. split; [done|lia].
    + apply lookup_ge_None in Hx. split; [lia|done].
Qed.

(** X2 — [front] and [back] throw [container_is_empty] on an empty vector and
    otherwise return the first and the last element, the ones [at(0)] and
    [at(size() - 1)] return. *)
Theorem front_back_ends v xs :
  vector.holds v xs →
  vector.front v
  = match head xs with
    | None => Raise (other_exn container_is_empty)
    | Some x => Return x
    end
  ∧ vector.back v
    = match last xs with
      | None => Raise (other_exn container_is_empty)
      | Some x => Return x
      end
  ∧ (vector.empty v = false →
     vector.front v = vector.at_ v 0
     ∧ vector.back v = vector.at_ v (vector.size v - 1)).
Proof.
  unfold vector.size, vector.capacity.
  intros Hv. pose proof (holds_size v xs Hv) as Hsz; unfold vector.size in Hsz.
  split_and!.
  - rewrite (front_holds v xs Hv). by destruct xs.
  - by apply back_holds.
  - intros He. unfold vector.empty in He. apply bool_decide_eq_false in He.
    rewrite (front_holds v xs Hv), (back_holds v xs Hv).
    rewrite !(at_holds v xs) by (done || lia).
    rewrite last_lookup, Hsz.
    replace (Z.to_nat (Z.of_nat (length xs) - 1)) with (pred (length xs))
      by lia.
    destruct xs as [|x xs]; [simpl in *; lia|]. split; [done|].
    destruct (lookup_lt_is_Some_2 (x :: xs) (pred (length (x :: xs))))
      as [y ->]; [simpl; lia|done].
Qed.

(** X3 — [push_back] of a value that is not an element of the vector returns
    when the buffer has room, or can be doubled and [malloc] succeeds: the
    size grows by one, the new element is the last one, and the elements
    before it are as they were. *)
Theorem push_back_appends v xs x p :
  vector.holds v xs →
  (vector.size_ v = vector.capacity_ v →
   vector.capacity_ v * 2 ≤ SIZE_MAX ∧ p ≠ 0) →
  ∃ v', vector.push_back moved v (Outside x) p = Return v'
    ∧ vector.holds v' (xs ++ [x])
    ∧ vector.size v' = vector.size v + 1
    ∧ vector.back v' = Return x
    ∧ vector.at_ v' (vector.size v) = Return x
    ∧ ∀ pos, 0 ≤ pos < vector.size v → vector.at_ v' pos = vector.at_ v pos.
Proof.
  unfold vector.size, vector.capacity. intros Hv Hfull.
  destruct (push_back_holds moved v xs (Outside x) x p Hv Hfull)
    as (v' & Hrun & Hv' & _); [by left|].
  pose proof (holds_size v xs Hv) as Hsz; unfold vector.size in Hsz.
  pose proof (holds_size v' _ Hv') as Hsz'; unfold vector.size in Hsz'.
  rewrite length_app in Hsz'. simpl in Hsz'.
  exists v'. split_and!; try done.
  - lia.
  - rewrite (back_holds v' _ Hv'). by rewrite last_snoc.
  - rewrite (at_holds v' _ _ Hv') by lia.
    rewrite Hsz, Nat2Z.id, lookup_app_r by lia.
    by rewrite Nat.sub_diag.
  - intros pos Hpos.
    rewrite (at_holds v' _ _ Hv'), (at_holds v _ _ Hv) by lia.
    by rewrite lookup_app_l by lia.
Qed.

(** X4 — The growth policy of [push_back], for a value that is not an element
    of the vector: a vector with room keeps its buffer and capacity, so
    [begin()] is unchanged; a full one moves to the new buffer, whose
    capacity is twice the old one, or 1 for the first element. *)
Theorem push_back_capacity v xs x p :
  vector.holds v xs →
  (vector.size_ v = vector.capacity_ v →
   vector.capacity_ v * 2 ≤ SIZE_MAX ∧ p ≠ 0) →
  ∃ v', vector.push_back moved v (Outside x) p = Return v'
    ∧ (vector.size v ≠ vector.capacity v →
       vector.capacity v' = vector.capacity v
       ∧ vector.begin v' = vector.begin v)
    ∧ (vector.size v = vector.capacity v →
       vector.capacity v' = Z.max 1 (2 * vector.capacity v)
       ∧ vector.begin v' = iterator.mk p 0).
Proof.
  unfold vector.size, vector.capacity. intros Hv Hfull.
  destruct (push_back_holds moved v xs (Outside x) x p Hv Hfull)
    as (v' & Hrun & Hv' & Hsame & Hnew); [by left|].
  pose proof Hv as (Hsz & Hcap & _).
  exists v'. split_and!; try done.
  - intros Hne. destruct (Hsame Hne) as [Hc Hd]. split; [done|].
    unfold vector.begin. by rewrite Hd.
  - intros He. destruct (Hnew He) as [Hd Hc]. unfold vector.capacity.
    split.
    + rewrite Hc. case_decide; lia.
    + unfold vector.begin. by rewrite Hd.
Qed.

(** X5 — [pop_back] throws [container_is_empty] exactly on an empty vector;
    otherwise it removes the last element and keeps the buffer, the
    capacity and the other elements. *)
Theorem pop_back_drops_last v xs :
  vector.holds v xs →
  match vector.pop_back v with
  | Return v' =>
      vector.holds v' (removelast xs)
      ∧ vector.size v' = vector.size v - 1
      ∧ vector.capacity v' = vector.capacity v
      ∧ vector.begin v' = vector.begin v
      ∧ ∀ pos, 0 ≤ pos < vector.size v' → vector.at_ v' pos = vector.at_ v pos
  | Raise e => e = other_exn container_is_empty ∧ vector.size v = 0
  | UB => False
  end.
Proof.
  unfold vector.size, vector.capacity. intros Hv. destruct xs as [|x0 xs0] using rev_ind.
  - rewrite (pop_back_empty v Hv). split; [done|].
    by destruct Hv as (-> & _).
  - clear IHxs0.
    destruct (pop_back_holds v xs0 x0 Hv) as (data & -> & Hv').
    rewrite removelast_last. split_and!; try done.
    intros pos Hpos. pose proof (holds_size _ _ Hv') as Hsz'; unfold vector.size in Hsz'.
    rewrite (at_holds _ _ _ Hv'), (at_holds v _ _ Hv) by lia.
    by rewrite lookup_app_l by lia.
Qed.

(** X6 — [insert(ind, value)], for an index and a value that are not elements
    of the vector, throws [index_out_of_bound] when [ind > size()].
    Otherwise, when the buffer has room, or can be doubled and [malloc]
    succeeds, it returns: [at(ind)] is [value], the elements before [ind]
    stay and those from [ind] on move one position up; when [ind] is at
    most [INT_MAX], the iterator returned refers to the new element. *)
Theorem insert_shifts v xs ind value p :
  vector.holds v xs → 0 ≤ ind →
  (vector.size v < ind →
   vector.insert moved v (Index ind) (Outside value) p
   = Raise index_out_of_bound)
  ∧ (ind ≤ vector.size v →
     (vector.size v = vector.capacity v →
      vector.capacity v * 2 ≤ SIZE_MAX ∧ p ≠ 0) →
     ∃ it v',
       vector.insert moved v (Index ind) (Outside value) p = Return (it, v')
       ∧ vector.holds v'
           (take (Z.to_nat ind) xs ++ value :: drop (Z.to_nat ind) xs)
       ∧ vector.size v' = vector.size v + 1
       ∧ vector.at_ v' ind = Return value
       ∧ (∀ pos, 0 ≤ pos < ind → vector.at_ v' pos = vector.at_ v pos)
       ∧ (∀ pos, ind ≤ pos < vector.size v →
          vector.at_ v' (pos + 1) = vector.at_ v pos)
       ∧ (ind ≤ INT_MAX →
          iterator.distance it (vector.begin v') = Ok ind
          ∧ vector.deref v' it = Return value)).
Proof.
  unfold vector.size, vector.capacity.
  intros Hv Hind.
  pose proof (holds_size v xs Hv) as Hsz; unfold vector.size in Hsz.
  split.
  { intros Hgt. unfold vector.insert. simpl. by rewrite decide_True by lia. }
  intros Hle Hfull.
  assert (Hn : (Z.to_nat ind ≤ length xs)%nat) by lia.
  destruct (insert_holds moved v xs (Z.to_nat ind) (Outside value) value p
              Hv Hn Hfull)
    as (v' & Hrun & Hv' & _); [by left|].
  rewrite Z2Nat.id in Hrun by done.
  pose proof (holds_size v' _ Hv') as Hsz'; unfold vector.size in Hsz'.
  rewrite length_app, length_take in Hsz'. simpl in Hsz'.
  rewrite length_drop in Hsz'.
  assert (Hat : vector.at_ v' ind = Return value).
  { rewrite (at_holds v' _ _ Hv') by lia.
    rewrite insert_lookup by lia.
    rewrite decide_False by lia. by rewrite decide_True. }
  eexists _, v'. split_and!; try done.
  - lia.
  - intros pos Hpos.
    rewrite (at_holds v' _ _ Hv'), (at_holds v _ _ Hv) by lia.
    rewrite insert_lookup by lia. by rewrite decide_True by lia.
  - intros pos Hpos.
    rewrite (at_holds v' _ _ Hv'), (at_holds v _ _ Hv) by lia.
    rewrite insert_lookup by lia.
    rewrite decide_False by lia. rewrite decide_False by lia.
    by replace (pred (Z.to_nat (pos + 1))) with (Z.to_nat pos) by lia.
  - intros Hmax. rewrite to_int_small by (unfold INT_MIN, INT_MAX in *; lia).
    split.
    + unfold iterator.distance, vector.begin. simpl.
      rewrite decide_False by (intros H; by apply H).
      unfold int_sub. rewrite decide_True
        by (unfold INT_MIN, INT_MAX in *; lia).
      f_equal. lia.
    + rewrite <- Hat. apply deref_at. lia.
Qed.

(** X7 — [erase(ind)], for an index that is not an element of the vector,
    throws [index_out_of_bound] when [ind >= size()]; otherwise the
    elements before [ind] stay, those after it move one position down, and
    the buffer and the capacity are kept.  When [ind] is at most
    [INT_MAX], the iterator returned refers to the element that followed,
    or is [end()] when the last element was erased. *)
Theorem erase_shifts v xs ind :
  vector.holds v xs → 0 ≤ ind →
  (vector.size v ≤ ind →
   vector.erase moved v (Index ind) = Raise index_out_of_bound)
  ∧ (ind < vector.size v →
     ∃ it v', vector.erase moved v (Index ind) = Return (it, v')
       ∧ vector.holds v' (delete (Z.to_nat ind) xs)
       ∧ vector.size v' = vector.size v - 1
       ∧ vector.capacity v' = vector.capacity v
       ∧ vector.begin v' = vector.begin v
       ∧ (∀ pos, 0 ≤ pos < ind → vector.at_ v' pos = vector.at_ v pos)
       ∧ (∀ pos, ind ≤ pos < vector.size v' →
          vector.at_ v' pos = vector.at_ v (pos + 1))
       ∧ (ind ≤ INT_MAX →
          if decide (ind = vector.size v') then it = vector.end_ v'
          else vector.deref v' it = vector.at_ v (ind + 1))).
Proof.
  unfold vector.size, vector.capacity.
  intros Hv Hind.
  pose proof (holds_size v xs Hv) as Hsz; unfold vector.size in Hsz.
  split.
  { intros Hge. unfold vector.erase. simpl. by rewrite decide_True by lia. }
  intros Hlt.
  assert (Hn : (Z.to_nat ind < length xs)%nat) by lia.
  destruct (erase_holds moved v xs (Z.to_nat ind) Hv Hn)
    as (data & Hrun & Hv').
  rewrite Z2Nat.id in Hrun by done.
  pose proof (holds_size _ _ Hv') as Hsz'; unfold vector.size in Hsz'.
  rewrite length_delete in Hsz'
    by (apply lookup_lt_is_Some_2; lia).
  assert (Hup : ∀ pos, ind ≤ pos < vector.size_ v - 1 →
    vector.at_ (vector.mk (vector.size_ v - 1) (vector.capacity_ v)
                  (vector.data_ v) data) pos
    = vector.at_ v (pos + 1)).
  { intros pos Hpos.
    rewrite (at_holds _ _ _ Hv'), (at_holds v _ _ Hv) by lia.
    rewrite list_lookup_delete_ge by lia.
    by replace (Z.to_nat (pos + 1)) with (S (Z.to_nat pos)) by lia. }
  eexists _, _. split; [exact Hrun|]. split_and!; try done.
  - intros pos Hpos.
    rewrite (at_holds _ _ _ Hv'), (at_holds v _ _ Hv) by lia.
    by rewrite list_lookup_delete_lt by lia.
  - intros Hmax. rewrite to_int_small by (unfold INT_MIN, INT_MAX in *; lia).
    unfold vector.size in *. simpl in *. case_decide as He.
    + unfold vector.end_. simpl. rewrite <- He.
      by rewrite to_int_small by (unfold INT_MIN, INT_MAX in *; lia).
    + rewrite <- Hup by lia.
      apply (deref_at (vector.mk _ _ (vector.data_ v) _)). simpl. lia.
Qed.

(** X8 — When the buffer has room, or can be doubled and [malloc] succeeds,
    inserting a value at an index [ind <= size()], neither of them an
    element of the vector, and then erasing at [ind] gives back the
    elements the vector held; both calls return the same iterator. *)
Theorem insert_erase_round_trip v xs ind value p :
  vector.holds v xs → 0 ≤ ind ≤ vector.size v →
  (vector.size v = vector.capacity v →
   vector.capacity v * 2 ≤ SIZE_MAX ∧ p ≠ 0) →
  ∃ it1 v1 it2 v2,
    vector.insert moved v (Index ind) (Outside value) p = Return (it1, v1)
    ∧ vector.erase moved v1 (Index ind) = Return (it2, v2)
    ∧ vector.holds v2 xs
    ∧ vector.contents v2 = vector.contents v
    ∧ it2 = it1.
Proof.
  unfold vector.size, vector.capacity.
  intros Hv Hind Hfull.
  pose proof (holds_size v xs Hv) as Hsz; unfold vector.size in Hsz.
  assert (Hn : (Z.to_nat ind ≤ length xs)%nat) by lia.
  destruct (insert_holds moved v xs (Z.to_nat ind) (Outside value) value p
              Hv Hn Hfull)
    as (v1 & Hrun1 & Hv1 & _); [by left|].
  destruct (erase_holds moved v1 _ (Z.to_nat ind) Hv1) as (data & Hrun2 & Hv2).
  { rewrite length_app, length_take. simpl. rewrite length_drop. lia. }
  rewrite Z2Nat.id in Hrun1, Hrun2 by lia.
  assert (Hxs : delete (Z.to_nat ind)
                  (take (Z.to_nat ind) xs ++ value :: drop (Z.to_nat ind) xs)
                = xs).
  { rewrite delete_take_drop.
    rewrite take_app_length' by (rewrite length_take; lia).
    rewrite drop_app_ge by (rewrite length_take; lia).
    rewrite length_take.
    replace (S (Z.to_nat ind) - Z.to_nat ind `min` length xs)%nat
      with 1%nat by lia.
    simpl. rewrite drop_0. apply take_drop. }
  rewrite Hxs in Hv2.
  eexists _, _, _, _. split; [exact Hrun1|]. split; [exact Hrun2|].
  split_and!; try done.
  by rewrite (holds_contents _ _ Hv2), (holds_contents _ _ Hv).
Qed.

(** X9 — [clear] destroys the elements and keeps the buffer: the vector is
    empty, its capacity is what it was, and every access throws.  The
    destructor returns before and after it: no slot is destroyed twice. *)
Theorem clear_empties v xs :
  vector.holds v xs →
  ∃ v', vector.clear v = Return v'
    ∧ vector.holds v' []
    ∧ vector.empty v' = true
    ∧ vector.capacity v' = vector.capacity v
    ∧ vector.begin v' = vector.begin v
    ∧ vector.front v' = Raise (other_exn container_is_empty)
    ∧ (∀ pos, 0 ≤ pos → vector.at_ v' pos = Raise index_out_of_bound)
    ∧ vector.dtor v = Return tt
    ∧ vector.dtor v' = Return tt.
Proof.
  unfold vector.size, vector.capacity. intros Hv.
  destruct (clear_holds v xs Hv) as (data & Hrun & Hv').
  eexists. split; [exact Hrun|]. split_and!; try done.
  - intros pos Hpos. by rewrite (at_holds _ _ _ Hv').
  - unfold vector.dtor.
    by destruct (destroy_all_holds v xs Hv) as (data1 & -> & _).
Qed.

(** X10 — The copy constructor and the assignment give a vector with the
    elements and the capacity of the source, in a buffer of its own; the
    assignment of a vector to itself returns it as it is. *)
Theorem copy_has_same_elements this other xs ys p a b :
  vector.holds this ys → vector.holds other xs →
  (vector.capacity_ other ≠ 0 → p ≠ 0) →
  vector.assign a a this this p = Return this
  ∧ ∃ v1 v2,
      vector.copy_ctor other p = Return v1
      ∧ (a ≠ b → vector.assign a b this other p = Return v2)
      ∧ v2 = v1
      ∧ vector.holds v1 xs
      ∧ vector.size v1 = vector.size other
      ∧ vector.capacity v1 = vector.capacity other
      ∧ vector.begin v1 = iterator.mk p 0
      ∧ ∀ pos, 0 ≤ pos → vector.at_ v1 pos = vector.at_ other pos.
Proof.
  unfold vector.size, vector.capacity. intros Hthis Hother Hp. split.
  { unfold vector.assign. by rewrite decide_True. }
  destruct (assign_other_holds vector.ctor other xs [] p ctor_holds Hother Hp)
    as (data1 & Hrun1 & Hv1).
  destruct (assign_other_holds this other xs ys p Hthis Hother Hp)
    as (data2 & Hrun2 & Hv2).
  assert (data2 = data1) as ->.
  { pose proof Hv1 as (_ & _ & Hl1 & _). pose proof Hv2 as (_ & _ & Hl2 & _).
    unfold vector.assign_other in Hrun1, Hrun2.
    destruct (vector.destroy_all this); simpl in Hrun2; try done.
    simpl in Hrun1.
    destruct (for_up _ _ _ _); simpl in *; congruence. }
  eexists _, _. split; [exact Hrun1|]. split_and!; try done.
  - intros Hab. unfold vector.assign. by rewrite decide_False.
  - intros pos Hpos.
    by rewrite (at_holds _ _ _ Hv1), (at_holds _ _ _ Hother).
Qed.

(** X11 — The iterator overloads of [insert] and [erase] take the distance of the
    position from [begin()]: an iterator of another buffer makes them throw
    [invalid_iterator], an iterator before [begin()] or past [end()] makes
    them throw [index_out_of_bound], and [begin() + k] makes them the calls
    at index [k]. *)
Theorem iterator_overloads v xs (pos : iterator.t) (value : cref T) p :
  vector.holds v xs → vector.size v ≤ INT_MAX →
  INT_MIN ≤ iterator.idx_ pos ≤ INT_MAX →
  (iterator.ptr_ pos ≠ vector.data_ v →
   vector.insert_at moved v pos value p = Raise (other_exn invalid_iterator)
   ∧ vector.erase_at moved v pos = Raise (other_exn invalid_iterator))
  ∧ (iterator.ptr_ pos = vector.data_ v →
     (0 ≤ iterator.idx_ pos →
      vector.insert_at moved v pos value p
      = vector.insert moved v (Index (iterator.idx_ pos)) value p
      ∧ vector.erase_at moved v pos
        = vector.erase moved v (Index (iterator.idx_ pos)))
     ∧ (iterator.idx_ pos < 0 ∨ vector.size v < iterator.idx_ pos →
        vector.insert_at moved v pos value p = Raise index_out_of_bound
        ∧ vector.erase_at moved v pos = Raise index_out_of_bound)).
Proof.
  unfold vector.size, vector.capacity.
  intros Hv Hsize Hidx. pose proof Hv as (Hsz & Hcap & _).
  unfold vector.size in *.
  unfold vector.insert_at, vector.erase_at, iterator.distance, vector.begin.
  simpl. split.
  { intros Hne. by rewrite decide_True. }
  intros He. rewrite decide_False by (intros H; by apply H).
  unfold int_sub. rewrite decide_True by lia. simpl.
  replace (iterator.idx_ pos - 0) with (iterator.idx_ pos) by lia.
  split.
  - intros H0. rewrite wrap_small; [done|].
    unfold INT_MAX, SIZE_MAX in *. lia.
  - intros Hout. unfold vector.insert, vector.erase. simpl.
    assert (wrap (iterator.idx_ pos) > vector.size_ v) as Hw.
    { destruct Hout as [Hneg|Hbig].
      - unfold wrap.
        assert (iterator.idx_ pos mod 2 ^ 64 = iterator.idx_ pos + 2 ^ 64).
        { symmetry. apply (Z.mod_unique _ _ (-1));
            unfold INT_MIN, INT_MAX in *; lia. }
        unfold INT_MIN, INT_MAX in *. lia.
      - rewrite wrap_small; [lia|].
        unfold INT_MAX, SIZE_MAX in *. lia. }
    rewrite !decide_True by lia. done.
Qed.

(** X12 — [end() - begin()] and [cend() - cbegin()] are [size()], [begin() + k]
    refers to the element [at(k)] and differs from [end()], and
    [begin() == end()] exactly when the vector is empty, for a vector of at
    most [INT_MAX] elements. *)
Theorem begin_end_span v xs k :
  vector.holds v xs → vector.size v ≤ INT_MAX →
  iterator.distance (vector.end_ v) (vector.begin v) = Ok (vector.size v)
  ∧ (0 ≤ k < vector.size v →
     ∃ it, iterator.plus (vector.begin v) k = Ok it
       ∧ vector.deref v it = vector.at_ v k
       ∧ iterator.neq it (vector.end_ v) = true)
  ∧ (iterator.eq (vector.begin v) (vector.end_ v) = vector.empty v)
  ∧ const_iterator.distance (vector.cend v) (vector.cbegin v)
    = Ok (vector.size v).
Proof.
  unfold vector.size, vector.capacity. intros Hv Hsize. pose proof Hv as (Hsz & Hcap & _).
  unfold vector.size in *.
  assert (Hti : to_int (vector.size_ v) = vector.size_ v).
  { apply to_int_small. unfold INT_MIN, INT_MAX in *. lia. }
  split_and!.
  - unfold iterator.distance, vector.end_, vector.begin. simpl.
    rewrite decide_False by (intros H; by apply H).
    rewrite Hti. unfold int_sub.
    rewrite decide_True by (unfold INT_MIN, INT_MAX in *; lia).
    f_equal. lia.
  - intros Hk. unfold iterator.plus, vector.begin, int_add. simpl.
    rewrite decide_True by (unfold INT_MIN, INT_MAX in *; lia). simpl.
    eexists. split; [done|]. split.
    + apply deref_at. lia.
    + unfold iterator.neq, iterator.eq, vector.end_. simpl. rewrite Hti.
      rewrite (bool_decide_eq_false_2 (k = vector.size_ v)) by lia.
      by rewrite andb_false_r.
  - unfold iterator.eq, vector.begin, vector.end_, vector.empty. simpl.
    rewrite Hti, bool_decide_eq_true_2 by done. simpl.
    apply bool_decide_ext. lia.
  - unfold const_iterator.distance, vector.cend, vector.cbegin. simpl.
    rewrite decide_False by (intros H; by apply H).
    rewrite Hti. unfold int_sub.
    rewrite decide_True by (unfold INT_MIN, INT_MAX in *; lia).
    f_equal. lia.
Qed.

Lemma call_refines (c : vector_call T) v xs v' :
  vector.holds v xs → call_ok c →
  vector_call_on moved c v = Return v' →
  vector.holds v' (list_call c xs)
  ∧ (vector.capacity_ v' = vector.capacity_ v
     ∨ vector.capacity_ v' = Z.max 1 (2 * vector.capacity_ v)).
Proof.
  intros Hv Hok Hrun. pose proof Hv as (Hsz & Hcap & _).
  destruct c as [[value|i] p| |[ind|i f] [value|j] p|[ind|i f]|];
    simpl in Hok; try done; cbn [vector_call_on list_call] in *.
  - assert (Hfull : vector.size_ v = vector.capacity_ v →
                    vector.capacity_ v * 2 ≤ SIZE_MAX ∧ p ≠ 0).
    { intros Hf. split; [|done]. unfold vector.push_back in Hrun.
      destruct (vector.grow moved v p) as [v1| |] eqn:Hg; try done.
      by eapply grow_returns. }
    destruct (push_back_holds moved v xs (Outside value) value p Hv Hfull)
      as (v1 & Hrun1 & Hv1 & Hsame & Hnew); [by left|].
    rewrite Hrun1 in Hrun. injection Hrun as <-. split; [done|].
    destruct (decide (vector.size_ v = vector.capacity_ v)) as [Hf|Hf].
    + right. destruct (Hnew Hf) as [_ ->]. case_decide; lia.
    + left. by destruct (Hsame Hf).
  - destruct xs as [|x0 xs0 _] using rev_ind.
    { by rewrite (pop_back_empty v Hv) in Hrun. }
    destruct (pop_back_holds v xs0 x0 Hv) as (data & Hrun1 & Hv1).
    rewrite Hrun1 in Hrun. injection Hrun as <-.
    rewrite removelast_last. split; [done|]. by left.
  - destruct Hok as [Hind Hp].
    destruct (vector.insert moved v (Index ind) (Outside value) p)
      as [[it v1]| |] eqn:Hi; try done.
    simpl in Hrun. injection Hrun as ->.
    assert (Hle : ind ≤ vector.size_ v).
    { unfold vector.insert in Hi. simpl in Hi. case_decide; [done|lia]. }
    assert (Hfull : vector.size_ v = vector.capacity_ v →
                    vector.capacity_ v * 2 ≤ SIZE_MAX ∧ p ≠ 0).
    { intros Hf. split; [|done]. unfold vector.insert in Hi.
      cbn [vector.read_index obind] in Hi.
      rewrite decide_False in Hi by lia.
      destruct (vector.grow moved v p) as [v2| |] eqn:Hg; try done.
      by eapply grow_returns. }
    assert (Hn : (Z.to_nat ind ≤ length xs)%nat) by lia.
    destruct (insert_holds moved v xs (Z.to_nat ind) (Outside value) value p
                Hv Hn Hfull)
      as (v2 & Hrun1 & Hv1 & Hsame & Hnew); [by left|].
    rewrite Z2Nat.id, Hi in Hrun1 by done. injection Hrun1 as _ <-.
    split; [done|].
    destruct (decide (vector.size_ v = vector.capacity_ v)) as [Hf|Hf].
    + right. destruct (Hnew Hf) as [_ ->]. case_decide; lia.
    + left. by destruct (Hsame Hf).
  - destruct (vector.erase moved v (Index ind)) as [[it v1]| |] eqn:He;
      try done.
    simpl in Hrun. injection Hrun as ->.
    assert (Hlt : ind < vector.size_ v).
    { unfold vector.erase in He. simpl in He. case_decide; [done|lia]. }
    assert (Hn : (Z.to_nat ind < length xs)%nat) by lia.
    destruct (erase_holds moved v xs (Z.to_nat ind) Hv Hn)
      as (data & Hrun1 & Hv1).
    rewrite Z2Nat.id, He in Hrun1 by done. injection Hrun1 as _ ->.
    split; [done|]. by left.
  - destruct (clear_holds v xs Hv) as (data & Hrun1 & Hv1).
    rewrite Hrun1 in Hrun. injection Hrun as <-. split; [done|]. by left.
Qed.

(** X13 — A run of calls that all return, their arguments not elements of the
    vector and every [malloc] in it succeeding, makes of the vector what
    the same calls make of a list: the vector holds the list, so [size()]
    is its length and is at most [capacity()]. *)
Theorem vector_run_refines (cs : list (vector_call T)) v xs v' :
  vector.holds v xs → Forall call_ok cs →
  vector_run moved cs v = Return v' →
  vector.holds v' (foldl (λ xs c, list_call c xs) xs cs)
  ∧ vector.contents v' = foldl (λ xs c, list_call c xs) xs cs
  ∧ vector.size v' ≤ vector.capacity v'.
Proof.
  intros Hv Hok Hrun.
  assert (H : vector.holds v' (foldl (λ xs c, list_call c xs) xs cs)).
  { revert v xs Hv Hrun. induction Hok as [|c cs Hc Hcs IH];
      intros v xs Hv Hrun; simpl in *.
    - by injection Hrun as <-.
    - destruct (vector_call_on moved c v) as [v1| |] eqn:Hcall; try done.
      simpl in Hrun.
      destruct (call_refines c v xs v1 Hv Hc Hcall) as [Hv1 _].
      by apply (IH v1). }
  split_and!; [done|by apply holds_contents|].
  destruct H as (_ & Hcap & _). apply Hcap.
Qed.

(** X14 — The capacity of a vector built from [vector()] by calls that
    return, their arguments not elements of the vector, is 0 or a power of
    two. *)
Theorem capacity_power_of_two (cs : list (vector_call T)) v' :
  Forall call_ok cs →
  vector_run moved cs vector.ctor = Return v' →
  vector.capacity v' = 0 ∨ ∃ k : nat, vector.capacity v' = 2 ^ Z.of_nat k.
Proof.
  intros Hok Hrun. unfold vector.capacity.
  assert (H : ∀ v xs, vector.holds v xs →
    (vector.capacity_ v = 0 ∨ ∃ k : nat, vector.capacity_ v = 2 ^ Z.of_nat k) →
    vector_run moved cs v = Return v' →
    vector.capacity_ v' = 0
    ∨ ∃ k : nat, vector.capacity_ v' = 2 ^ Z.of_nat k).
  { clear Hrun. induction Hok as [|c cs Hc Hcs IH];
      intros v xs Hv Hpow Hrun; simpl in *.
    - by injection Hrun as <-.
    - destruct (vector_call_on moved c v) as [v1| |] eqn:Hcall; try done.
      simpl in Hrun.
      destruct (call_refines c v xs v1 Hv Hc Hcall) as [Hv1 Hc1].
      apply (IH v1 _ Hv1); [|done].
      destruct Hc1 as [->| ->]; [done|]. right.
      destruct Hpow as [->|[k ->]].
      + by exists 0%nat.
      + exists (S k). rewrite Nat2Z.inj_succ, Z.pow_succ_r by lia.
        assert (0 < 2 ^ Z.of_nat k) by (apply Z.pow_pos_nonneg; lia). lia. }
  apply (H vector.ctor [] ctor_holds); [by left|done].
Qed.

(** X31 — A value that is an element of the vector, as in
    [v.push_back(v[i])] and [v.insert(ind, v[i])].  On a full vector both
    calls are undefined behaviour: [reserve] frees the buffer before the
    value is read.  On a vector with room [push_back] appends the element,
    and [insert] inserts what slot [i] holds after the elements have been
    shifted: the element itself when [i < ind], the element before it when
    [i > ind]. *)
Theorem aliased_value v xs (i : nat) x ind p :
  vector.holds v xs → xs !! i = Some x → 0 ≤ ind ≤ vector.size v →
  (vector.size v = vector.capacity v →
   vector.push_back moved v (Inside (Z.of_nat i)) p = UB
   ∧ vector.insert moved v (Index ind) (Inside (Z.of_nat i)) p = UB)
  ∧ (vector.size v ≠ vector.capacity v →
     (∃ v', vector.push_back moved v (Inside (Z.of_nat i)) p = Return v'
        ∧ vector.holds v' (xs ++ [x]))
     ∧ (Z.of_nat i < ind →
        ∃ it v',
          vector.insert moved v (Index ind) (Inside (Z.of_nat i)) p
          = Return (it, v')
          ∧ vector.holds v'
              (take (Z.to_nat ind) xs ++ x :: drop (Z.to_nat ind) xs))
     ∧ (∀ y, ind < Z.of_nat i → xs !! (i - 1)%nat = Some y →
        ∃ it v',
          vector.insert moved v (Index ind) (Inside (Z.of_nat i)) p
          = Return (it, v')
          ∧ vector.holds v'
              (take (Z.to_nat ind) xs ++ y :: drop (Z.to_nat ind) xs))).
Proof.
  unfold vector.size, vector.capacity. intros Hv Hx Hind.
  pose proof Hv as (Hsz & Hcap & Hlen & Hslots).
  pose proof (lookup_lt_Some _ _ _ Hx) as Hi.
  split.
  - intros Hf.
    unfold vector.push_back, vector.insert. cbn [vector.read_index obind].
    rewrite decide_False by lia.
    rewrite (bool_decide_eq_true_2 _ Hf).
    destruct (vector.grow moved v p) as [v1|e|] eqn:Hg;
      [|by destruct (grow_no_raise moved v p e Hg)|done].
    cbn [obind vector.read]. split; [done|].
    assert (Hdbl : vector.capacity_ v * 2 ≤ SIZE_MAX)
      by by eapply grow_returns.
    assert (Hp : p ≠ 0).
    { intros ->.
      destruct (grow_null moved v xs Hv Hf) as [Hu|[Hz _]]; [congruence|lia]. }
    destruct (grow_holds moved v xs p Hv (λ _, conj Hdbl Hp))
      as (v2 & Hg2 & Hv1 & Hlt & Hsize & _).
    rewrite Hg in Hg2. injection Hg2 as <-.
    pose proof Hv1 as (Hsz1 & Hcap1 & Hlen1 & Hslots1).
    rewrite (wrap_small (vector.size_ v1 + 1)) by lia.
    replace (vector.size_ v1 + 1 - 1) with (vector.size_ v1) by lia.
    rewrite wrap_small by lia. rewrite Hsz1.
    destruct (insert_loop moved (S (Z.to_nat (Z.of_nat (length xs))))
                (Z.to_nat ind) (length xs) true (vector.buffer v1))
      as (data & E & _).
    { intros j Hj. eapply holds_live; [done|lia]. }
    { lia. }
    { lia. }
    { lia. }
    rewrite Z2Nat.id in E by lia.
    cbn [vector.read_index obind] in E. rewrite E. done.
  - intros Hroom.
    assert (Hfull : vector.size_ v = vector.capacity_ v →
                    vector.capacity_ v * 2 ≤ SIZE_MAX ∧ p ≠ 0) by done.
    assert (Hn : (Z.to_nat ind ≤ length xs)%nat) by lia.
    split_and!.
    + destruct (push_back_holds moved v xs (Inside (Z.of_nat i)) x p Hv Hfull)
        as (v' & Hrun & Hv' & _); [right; by exists i|].
      by exists v'.
    + intros Hlt.
      destruct (insert_holds moved v xs (Z.to_nat ind) (Inside (Z.of_nat i))
                  x p Hv Hn Hfull)
        as (v' & Hrun & Hv' & _).
      { right. exists i. split_and!; try done. left. split; [lia|done]. }
      rewrite Z2Nat.id in Hrun by lia. by eexists _, v'.
    + intros y Hlt Hy.
      destruct (insert_holds moved v xs (Z.to_nat ind) (Inside (Z.of_nat i))
                  y p Hv Hn Hfull)
        as (v' & Hrun & Hv' & _).
      { right. exists i. split_and!; try done. right. split; [lia|done]. }
      rewrite Z2Nat.id in Hrun by lia. by eexists _, v'.
Qed.

End vector_properties.

Lemma three_holds : vector.holds three [10; 20; 30].
Proof. by apply holds_intro. Qed.

Lemma three_room p :
  vector.size_ three = vector.capacity_ three →
  vector.capacity_ three * 2 ≤ SIZE_MAX ∧ p ≠ 0.
Proof. done. Qed.

Lemma ctor_room :
  vector.size_ (@vector.ctor Z) = vector.capacity_ (@vector.ctor Z) →
  vector.capacity_ (@vector.ctor Z) * 2 ≤ SIZE_MAX ∧ 100 ≠ 0.
Proof. done. Qed.

Lemma at_checks_bounds_witness :
  vector.at_ three 1 = Return 20
  ∧ vector.at_ three 3 = Raise index_out_of_bound.
Proof.
  split.
  - exact (proj1 (at_checks_bounds three [10; 20; 30] 1 three_holds
                    ltac:(done))).
  - exact (proj1 (at_checks_bounds three [10; 20; 30] 3 three_holds
                    ltac:(done))).
Defined.

Lemma front_back_ends_witness :
  vector.front three = Return 10 ∧ vector.back three = Return 30.
Proof.
  destruct (front_back_ends three [10; 20; 30] three_holds) as (H1 & H2 & _).
  split; [exact H1|exact H2].
Defined.

Lemma push_back_appends_witness :
  ∃ v', vector.push_back moved_int three (Outside 40) 400 = Return v'
    ∧ vector.holds v' [10; 20; 30; 40]
    ∧ vector.back v' = Return 40.
Proof.
  destruct (push_back_appends moved_int three [10; 20; 30] 40 400 three_holds
              (three_room 400)) as (v' & H1 & H2 & _ & H3 & _).
  exists v'. split; [exact H1|]. split; [exact H2|exact H3].
Defined.

Lemma push_back_capacity_witness :
  ∃ v', vector.push_back moved_int vector.ctor (Outside 10) 100 = Return v'
    ∧ vector.capacity v' = 1
    ∧ vector.begin v' = iterator.mk 100 0.
Proof.
  destruct (push_back_capacity moved_int vector.ctor [] 10 100 ctor_holds
              ctor_room) as (v' & H1 & _ & H2).
  exists v'. split; [exact H1|]. exact (H2 eq_refl).
Defined.

Lemma pop_back_drops_last_witness :
  ∃ v', vector.pop_back three = Return v'
    ∧ vector.holds v' [10; 20] ∧ vector.size v' = 2.
Proof.
  pose proof (pop_back_drops_last three [10; 20; 30] three_holds) as H.
  destruct (vector.pop_back three) as [v'| |] eqn:E.
  - exists v'. split; [reflexivity|]. split; [exact (proj1 H)|].
    exact (proj1 (proj2 H)).
  - destruct H as [_ H]. discriminate H.
  - destruct H.
Defined.

Lemma insert_shifts_witness :
  ∃ it v', vector.insert moved_int three (Index 1) (Outside 15) 400 = Return (it, v')
    ∧ vector.holds v' [10; 15; 20; 30]
    ∧ vector.at_ v' 1 = Return 15
    ∧ vector.deref v' it = Return 15.
Proof.
  destruct (insert_shifts moved_int three [10; 20; 30] 1 15 400 three_holds
              ltac:(done)) as [_ H].
  destruct (H ltac:(done) (three_room 400)) as (it & v' & H1 & H2 & _ & H3 & _ & _ & H4).
  exists it, v'. split; [exact H1|]. split; [exact H2|].
  split; [exact H3|]. exact (proj2 (H4 ltac:(done))).
Defined.

Lemma erase_shifts_witness :
  ∃ it v', vector.erase moved_int three (Index 0) = Return (it, v')
    ∧ vector.holds v' [20; 30]
    ∧ vector.capacity v' = 4.
Proof.
  destruct (erase_shifts moved_int three [10; 20; 30] 0 three_holds
              ltac:(done)) as [_ H].
  destruct (H ltac:(done)) as (it & v' & H1 & H2 & _ & H3 & _).
  exists it, v'. split; [exact H1|]. split; [exact H2|exact H3].
Defined.

Lemma three_index_1 : 0 ≤ 1 ≤ vector.size three.
Proof. done. Qed.

Lemma insert_erase_round_trip_witness :
  ∃ it1 v1 it2 v2,
    vector.insert moved_int three (Index 1) (Outside 15) 400 = Return (it1, v1)
    ∧ vector.erase moved_int v1 (Index 1) = Return (it2, v2)
    ∧ vector.contents v2 = [10; 20; 30].
Proof.
  destruct (insert_erase_round_trip moved_int three [10; 20; 30] 1 15 400
              three_holds three_index_1 (three_room 400))
    as (it1 & v1 & it2 & v2 & H1 & H2 & _ & H3 & _).
  exists it1, v1, it2, v2. split; [exact H1|]. split; [exact H2|exact H3].
Defined.

Lemma clear_empties_witness :
  ∃ v', vector.clear three = Return v'
    ∧ vector.empty v' = true ∧ vector.capacity v' = 4.
Proof.
  destruct (clear_empties three [10; 20; 30] three_holds)
    as (v' & H1 & _ & H2 & H3 & _).
  exists v'. split; [exact H1|]. split; [exact H2|exact H3].
Defined.

Lemma three_copy_room : vector.capacity_ three ≠ 0 → 500 ≠ 0.
Proof. done. Qed.

Lemma copy_has_same_elements_witness :
  ∃ v1, vector.copy_ctor three 500 = Return v1
    ∧ vector.holds v1 [10; 20; 30]
    ∧ vector.begin v1 = iterator.mk 500 0.
Proof.
  destruct (copy_has_same_elements vector.ctor three [10; 20; 30] [] 500 1 2
              ctor_holds three_holds three_copy_room)
    as (_ & v1 & v2 & H1 & _ & _ & H2 & _ & _ & H3 & _).
  exists v1. split; [exact H1|]. split; [exact H2|exact H3].
Defined.

Lemma three_small : vector.size three ≤ INT_MAX.
Proof. done. Qed.

Lemma iterator_overloads_witness :
  vector.insert_at moved_int three (iterator.mk 200 1) (Outside 15) 400
  = Raise (other_exn invalid_iterator)
  ∧ vector.insert_at moved_int three (iterator.mk 300 (-1)) (Outside 15) 400
    = Raise index_out_of_bound.
Proof.
  split.
  - destruct (iterator_overloads moved_int three [10; 20; 30]
                (iterator.mk 200 1) (Outside 15) 400 three_holds three_small
                ltac:(done)) as [H _].
    exact (proj1 (H ltac:(done))).
  - destruct (iterator_overloads moved_int three [10; 20; 30]
                (iterator.mk 300 (-1)) (Outside 15) 400 three_holds three_small
                ltac:(done)) as [_ H].
    destruct (H eq_refl) as [_ H'].
    exact (proj1 (H' (or_introl eq_refl))).
Defined.

Lemma begin_end_span_witness :
  iterator.distance (vector.end_ three) (vector.begin three) = Ok 3.
Proof.
  exact (proj1 (begin_end_span three [10; 20; 30] 0 three_holds three_small)).
Defined.

Lemma three_calls_ok :
  Forall call_ok three_calls.
Proof. repeat constructor; done. Qed.

Lemma three_calls_return :
  ∃ v', vector_run moved_int three_calls three = Return v'.
Proof. eexists. vm_compute. reflexivity. Qed.

Lemma vector_run_refines_witness :
  ∃ v', vector_run moved_int three_calls three = Return v'
    ∧ vector.contents v' = [15; 20; 30].
Proof.
  destruct three_calls_return as [v' H]. exists v'. split; [exact H|].
  exact (proj1 (proj2 (vector_run_refines moved_int _ three [10; 20; 30] v'
                         three_holds three_calls_ok H))).
Defined.

Lemma ctor_calls_ok :
  Forall call_ok ctor_calls.
Proof. repeat constructor; done. Qed.

Lemma ctor_calls_return :
  ∃ v', vector_run moved_int ctor_calls vector.ctor = Return v'.
Proof. eexists. vm_compute. reflexivity. Qed.

Lemma capacity_power_of_two_witness :
  ∃ v', vector_run moved_int ctor_calls vector.ctor = Return v'
    ∧ (vector.capacity v' = 0
       ∨ ∃ k : nat, vector.capacity v' = 2 ^ Z.of_nat k).
Proof.
  destruct ctor_calls_return as [v' H]. exists v'. split; [exact H|].
  exact (capacity_power_of_two moved_int _ v' ctor_calls_ok H).
Defined.

Lemma three_full_holds : vector.holds three_full [10; 20; 30].
Proof. by apply holds_intro. Qed.

Lemma three_full_index_0 : 0 ≤ 0 ≤ vector.size three_full.
Proof. done. Qed.

Lemma three_index_0 : 0 ≤ 0 ≤ vector.size three.
Proof. done. Qed.

Lemma three_has_room : vector.size three ≠ vector.capacity three.
Proof. done. Qed.

Lemma aliased_value_witness :
  vector.push_back moved_int three_full (Inside 1) 400 = UB
  ∧ ∃ it v',
      vector.insert moved_int three (Index 0) (Inside 1) 400 = Return (it, v')
      ∧ vector.holds v' [10; 10; 20; 30].
Proof.
  split.
  - destruct (aliased_value moved_int three_full [10; 20; 30] 1 20 0 400
                three_full_holds eq_refl three_full_index_0) as [H _].
    exact (proj1 (H eq_refl)).
  - destruct (aliased_value moved_int three [10; 20; 30] 1 20 0 400
                three_holds eq_refl three_index_0) as [_ H].
    destruct (H three_has_room) as (_ & _ & H').
    exact (H' 10 eq_refl eq_refl).
Defined.

(** ** The priority queue: further properties *)

Section queue_properties.

Context {T : Type}.
Variable Compare : T → T → option bool.
Implicit Types (w : world T) (t : shape (T:=T)) (sh : gmap positive (shape (T:=T))).

(** The outcome of [push] on the tree of the queue. *)
Lemma push_outcome fuel q e w sh t :
  owned_by w sh → sh !! q = Some t →
  fst (push Compare fuel q e w)
  = if decide (Z.of_nat (size (store w)) < SIZE_MAX)
    then map_result (λ _, tt)
           (merge_shape Compare fuel t
              (Node (fresh (dom (store w))) e Leaf Leaf))
    else Throw bad_alloc.
Proof.
  intros Hown Ht.
  pose proof Hown as (Hdom & Hsh & Hdis).
  destruct (Hsh _ _ Ht) as (pq & Hq & Hroot & Hrep & Hnd & Hsize).
  destruct (push Compare fuel q e w) as [r w'] eqn:E. cbn [fst].
  unfold push in E. unfold bind at 1 in E.
  destruct (decide (Z.of_nat (size (store w)) < SIZE_MAX)) as [Hroom|Hfull].
  2:{ rewrite (new_heapnode_full _ _ Hfull) in E. by injection E as <- <-. }
  rewrite (new_heapnode_ok _ _ Hroom) in E.
  set (c := fresh (dom (store w))) in *.
  assert (Hc : c ∉ dom (store w)) by apply is_fresh.
  set (w1 := set_store _ w) in E.
  assert (Hsub1 : ∀ b n, store w !! b = Some n → store w1 !! b = Some n).
  { intros b n Hb. subst w1. simpl. rewrite lookup_insert_ne; [done|].
    intros <-. apply Hc. apply elem_of_dom. eauto. }
  assert (Hct : c ∉ addrs t).
  { intros Hin. apply Hc. by eapply repr_addrs_dom. }
  destruct (merge_refines Compare fuel t (Node c e Leaf Leaf) w1)
    as (w2 & Hm & Hq2 & Hd2 & Hfr2 & Hrep2).
  { eapply repr_mono; eauto. }
  { simpl. split_and!; try done. subst w1. simpl. by rewrite lookup_insert_eq. }
  { simpl. apply NoDup_app. split_and!; [done| |apply NoDup_singleton].
    intros b Hb Hbc. apply list_elem_of_singleton in Hbc as ->. done. }
  unfold try_catch_rethrow in E. unfold bind at 1 in E.
  rewrite (get_queue_ok w1 q pq) in E by done.
  unfold bind at 1 in E. rewrite <- Hroot in Hm. cbn [root] in Hm. rewrite Hm in E.
  destruct (merge_shape Compare fuel t (Node c e Leaf Leaf)) as [t'|ex| |] eqn:Ems;
    cbn [map_result] in E |- *.
  - assert (Hq2' : queues w2 !! q = Some pq) by (by rewrite Hq2).
    unfold bind at 1 in E. rewrite (set_root_ok _ _ _ _ Hq2') in E.
    set (w3 := set_queues _ w2) in E.
    unfold bind at 1 in E. rewrite (get_queue_ok w3 q (PQ (root t') (size_ pq))) in E
      by (subst w3; simpl; by rewrite lookup_insert_eq).
    rewrite (set_size_ok w3 q (PQ (root t') (size_ pq))) in E
      by (subst w3; simpl; by rewrite lookup_insert_eq).
    by injection E as <- <-.
  - assert (Hc2 : is_Some (store w2 !! c)).
    { apply elem_of_dom. rewrite Hd2. subst w1. simpl. rewrite dom_insert_L. set_solver. }
    destruct Hc2 as [n Hc2]. unfold bind at 1 in E.
    rewrite (delete_node_ok _ _ _ Hc2) in E. unfold throw in E.
    by injection E as <- <-.
  - by injection E as <- <-.
  - by injection E as <- <-.
Qed.

(** The outcome of [pop] on the tree of the queue. *)
Lemma pop_outcome fuel q w sh t :
  owned_by w sh → sh !! q = Some t →
  fst (pop Compare fuel q w)
  = match t with
    | Leaf => Throw container_is_empty
    | Node _ _ l r => map_result (λ _, tt) (merge_shape Compare fuel l r)
    end.
Proof.
  intros Hown Ht.
  pose proof Hown as (Hdom & Hsh & Hdis).
  destruct (Hsh _ _ Ht) as (pq & Hq & Hroot & Hrep & Hnd & Hsize).
  destruct (pop Compare fuel q w) as [res w'] eqn:E. cbn [fst].
  unfold pop in E. unfold bind at 1 in E. rewrite (get_queue_ok _ _ _ Hq) in E.
  destruct t as [|a v l r0].
  { rewrite decide_True in E by (by rewrite Hsize). by injection E as <- <-. }
  rewrite decide_False in E.
  2:{ rewrite Hsize. unfold tsize. simpl. lia. }
  destruct Hrep as (Ha & Hl & Hr). simpl in Hnd.
  apply NoDup_cons in Hnd as [Hal Hnd].
  rewrite Hroot in E. cbn [root] in E.
  unfold bind at 1 in E. rewrite (load_ok _ _ _ Ha) in E. cbn [ls rs] in E.
  destruct (merge_refines Compare fuel l r0 w) as (w2 & Hm & Hq2 & Hd2 & Hfr2 & Hrep2);
    [done..|].
  unfold bind at 1 in E. rewrite Hm in E.
  destruct (merge_shape Compare fuel l r0) as [t'|ex| |] eqn:Ems;
    cbn [map_result] in E |- *.
  2-4: by injection E as <- <-.
  assert (Hq2' : queues w2 !! q = Some pq) by (by rewrite Hq2).
  unfold bind at 1 in E. rewrite (set_root_ok _ _ _ _ Hq2') in E.
  set (w3 := set_queues _ w2) in E.
  assert (Ha3 : store w3 !! a = Some (Heapnode v (root l) (root r0))).
  { subst w3. simpl. rewrite Hfr2; [done|]. done. }
  unfold bind at 1 in E. rewrite (delete_node_ok _ _ _ Ha3) in E.
  set (w4 := set_store _ w3) in E.
  unfold bind at 1 in E. rewrite (get_queue_ok w4 q (PQ (root t') (size_ pq))) in E
    by (subst w4 w3; simpl; by rewrite lookup_insert_eq).
  rewrite (set_size_ok w4 q (PQ (root t') (size_ pq))) in E
    by (subst w4 w3; simpl; by rewrite lookup_insert_eq).
  by injection E as <- <-.
Qed.

Lemma size_store_insert_fresh (s : gmap positive (heapnode T)) (s' : gmap positive (heapnode T)) c :
  c ∉ dom s → dom s' = {[c]} ∪ dom s → size s' = S (size s).
Proof.
  intros Hc Hd. rewrite <- !size_dom, Hd.
  rewrite size_union by set_solver. by rewrite size_singleton.
Qed.

(** X15 — [push] that returns adds exactly the element pushed: the elements of
    the queue are the old ones and [e], [size()] grows by one, the queue is
    not empty, the other queues are untouched and the state stays well
    formed.  It returns when a node can be allocated, the predicate returns
    on the elements involved, and the budget exceeds the number of
    nodes. *)
Theorem push_adds_element fuel q e w t :
  wf_world w → queue_shape w q t →
  (∀ w', push Compare fuel q e w = (Ok tt, w') →
     wf_world w'
     ∧ (∃ t', queue_shape w' q t' ∧ elems t' ≡ₚ e :: elems t)
     ∧ (∃ n, pq_size q w = (Ok n, w) ∧ pq_size q w' = (Ok (n + 1), w'))
     ∧ pq_empty q w' = (Ok false, w')
     ∧ ∀ q' t0, q' ≠ q → queue_shape w q' t0 → queue_shape w' q' t0)
  ∧ ((tsize t + 1 < fuel)%nat → Z.of_nat (size (store w)) < SIZE_MAX →
     (∀ a b, a ∈ e :: elems t → b ∈ e :: elems t → Compare a b ≠ None) →
     ∃ w', push Compare fuel q e w = (Ok tt, w')).
Proof.
  intros [[sh Hown] Hbound] Hq.
  apply (owned_by_shape _ _ _ _ Hown) in Hq.
  pose proof Hown as (Hdom & Hsh & Hdis).
  destruct (Hsh _ _ Hq) as (pq & Hpq & Hroot & Hrep & Hnd & Hsize).
  split.
  - intros w' E.
    destruct (push_spec _ _ _ _ _ _ _ _ _ Hown Hq E) as (_ & _ & Hok).
    destruct (Hok eq_refl) as (c & t' & Hc & Hms & Hown' & Hdom' & Hroom).
    pose proof Hown' as (_ & Hsh' & _).
    destruct (Hsh' q t') as (pq' & Hpq' & Hroot' & Hrep' & Hnd' & Hsize');
      [by rewrite lookup_insert_eq|].
    pose proof (merge_shape_tsize _ _ _ _ _ Hms) as Hts.
    change (tsize (Node c e Leaf Leaf)) with 1%nat in Hts.
    split_and!.
    + split; [eauto|]. rewrite (size_store_insert_fresh _ _ _ Hc Hdom'). lia.
    + exists t'. split.
      * apply (owned_by_shape _ _ _ _ Hown'). by rewrite lookup_insert_eq.
      * rewrite (merge_shape_elems _ _ _ _ _ Hms). simpl.
        by rewrite Permutation_app_comm.
    + exists (size_ pq). split; [by apply pq_size_ok|].
      rewrite (pq_size_ok _ _ _ Hpq'), Hsize', Hsize, Hts. do 2 f_equal. lia.
    + rewrite (pq_empty_ok _ _ _ Hpq'), Hsize', Hts.
      by rewrite bool_decide_eq_false_2 by lia.
    + intros q' t0 Hne Hq'.
      apply (owned_by_shape _ _ _ _ Hown) in Hq'.
      apply (owned_by_shape _ _ _ _ Hown'). by rewrite lookup_insert_ne.
  - intros Hfuel Hroom Htotal.
    pose proof (push_outcome fuel q e w sh t Hown Hq) as Hout.
    rewrite decide_True in Hout by done.
    destruct (merge_shape_total Compare fuel t
                (Node (fresh (dom (store w))) e Leaf Leaf)) as [t' Ht'].
    { change (tsize (Node _ e Leaf Leaf)) with 1%nat. lia. }
    { simpl. intros a b Ha Hb. apply Htotal; set_solver. }
    rewrite Ht' in Hout. simpl in Hout.
    destruct (push Compare fuel q e w) as [r w']. simpl in Hout. subst r. eauto.
Qed.

(** X16 — [pop] that returns removes exactly the element [top()] returned: the
    old elements are that one and the new ones, [size()] shrinks by one,
    the root node is freed and no other, and the state stays well formed.
    It returns on a nonempty queue when the predicate returns on its
    elements and the budget exceeds the number of nodes. *)
Theorem pop_removes_top fuel q w t :
  wf_world w → queue_shape w q t →
  (∀ w', pop Compare fuel q w = (Ok tt, w') →
     wf_world w'
     ∧ ∃ a v l r t',
         t = Node a v l r
         ∧ top q w = (Ok v, w)
         ∧ queue_shape w' q t' ∧ elems t ≡ₚ v :: elems t'
         ∧ (∃ n, pq_size q w = (Ok n, w) ∧ pq_size q w' = (Ok (n - 1), w'))
         ∧ dom (store w') = dom (store w) ∖ {[a]}
         ∧ ∀ q' t0, q' ≠ q → queue_shape w q' t0 → queue_shape w' q' t0)
  ∧ (t ≠ Leaf → (tsize t < fuel)%nat →
     (∀ a b, a ∈ elems t → b ∈ elems t → Compare a b ≠ None) →
     ∃ w', pop Compare fuel q w = (Ok tt, w')).
Proof.
  intros [[sh Hown] Hbound] Hq.
  apply (owned_by_shape _ _ _ _ Hown) in Hq.
  pose proof Hown as (Hdom & Hsh & Hdis).
  destruct (Hsh _ _ Hq) as (pq & Hpq & Hroot & Hrep & Hnd & Hsize).
  split.
  - intros w' E.
    destruct (pop_spec _ _ _ _ _ _ _ _ Hown Hbound Hq E) as (_ & _ & Hok).
    destruct (Hok eq_refl) as (a & v & l & r0 & t' & -> & Hms & Hown' & Hdom').
    pose proof Hown' as (_ & Hsh' & _).
    destruct (Hsh' q t') as (pq' & Hpq' & Hroot' & Hrep' & Hnd' & Hsize');
      [by rewrite lookup_insert_eq|].
    pose proof (merge_shape_tsize _ _ _ _ _ Hms) as Hts.
    assert (Hts1 : tsize (Node a v l r0) = S (tsize l + tsize r0)).
    { unfold tsize. simpl. by rewrite length_app. }
    split.
    + split; [eauto|].
      assert (size (store w') ≤ size (store w))%nat; [|lia].
      rewrite <- !size_dom, Hdom'. apply subseteq_size. set_solver.
    + exists a, v, l, r0, t'. split_and!; try done.
      * by eapply top_node.
      * apply (owned_by_shape _ _ _ _ Hown'). by rewrite lookup_insert_eq.
      * simpl. by rewrite (merge_shape_elems _ _ _ _ _ Hms).
      * exists (size_ pq). split; [by apply pq_size_ok|].
        rewrite (pq_size_ok _ _ _ Hpq'), Hsize', Hsize, Hts, Hts1.
        do 2 f_equal. lia.
      * intros q' t0 Hne Hq'.
        apply (owned_by_shape _ _ _ _ Hown) in Hq'.
        apply (owned_by_shape _ _ _ _ Hown'). by rewrite lookup_insert_ne.
  - intros Hne Hfuel Htotal.
    pose proof (pop_outcome fuel q w sh t Hown Hq) as Hout.
    destruct t as [|a v l r0]; [done|].
    destruct (merge_shape_total Compare fuel l r0) as [t' Ht'].
    { unfold tsize in *. simpl in Hfuel. rewrite length_app in Hfuel. lia. }
    { intros x y Hx Hy. apply Htotal; simpl; set_solver. }
    rewrite Ht' in Hout. simpl in Hout.
    destruct (pop Compare fuel q w) as [r w']. simpl in Hout. subst r. eauto.
Qed.

(** X17 — After a [push] that returns, [top()] is the element pushed when the
    queue was empty or the predicate put the old top before it, and the
    old top otherwise. *)
Theorem top_after_push fuel q e w t w' :
  wf_world w → queue_shape w q t →
  push Compare fuel q e w = (Ok tt, w') →
  top q w'
  = (Ok match t with
        | Leaf => e
        | Node _ v _ _ => if Compare v e is Some true then e else v
        end, w')
  ∧ (top q w = (Throw container_is_empty, w) → top q w' = (Ok e, w'))
  ∧ ∀ v, top q w = (Ok v, w) →
         top q w' = (Ok (if Compare v e is Some true then e else v), w').
Proof.
  intros [[sh Hown] Hbound] Hq E.
  apply (owned_by_shape _ _ _ _ Hown) in Hq.
  destruct (push_spec _ _ _ _ _ _ _ _ _ Hown Hq E) as (_ & _ & Hok).
  destruct (Hok eq_refl) as (c & t' & Hc & Hms & Hown' & Hdom' & Hroom).
  assert (Ht' : sh !! q = Some t → <[q := t']> sh !! q = Some t')
    by (intros _; by rewrite lookup_insert_eq).
  assert (Htop : top q w'
    = (Ok match t with
          | Leaf => e
          | Node _ v _ _ => if Compare v e is Some true then e else v
          end, w')).
  { destruct fuel as [|fuel]; [done|]. simpl in Hms.
    destruct t as [|a v l r0].
    - injection Hms as <-. eapply top_node; [exact Hown'|by apply Ht'].
    - destruct (Compare v e) as [[]|]; [| |done].
      + destruct (merge_shape Compare fuel Leaf (Node a v l r0)) as [t1| | |];
          try done.
        simpl in Hms. injection Hms as <-.
        eapply top_node; [exact Hown'|by apply Ht'].
      + destruct (merge_shape Compare fuel r0 (Node c e Leaf Leaf))
          as [t1| | |]; try done.
        simpl in Hms. injection Hms as <-.
        eapply top_node; [exact Hown'|by apply Ht']. }
  split_and!; [done| |].
  - intros Hthrow. destruct t as [|a v l r0]; [done|].
    rewrite (top_node _ _ _ _ _ _ _ Hown Hq) in Hthrow. done.
  - intros v Hv. destruct t as [|a v0 l r0].
    + rewrite (top_leaf _ _ _ Hown Hq) in Hv. done.
    + rewrite (top_node _ _ _ _ _ _ _ Hown Hq) in Hv. injection Hv as ->. done.
Qed.

(** ** What a call that throws leaves behind *)

Lemma bind_throw_inv {A B} (m : M T A) (f : A → M T B) w e w' :
  bind m f w = (Throw e, w') →
  m w = (Throw e, w') ∨ ∃ a w1, m w = (Ok a, w1) ∧ f a w1 = (Throw e, w').
Proof.
  unfold bind. destruct (m w) as [[a|e0| |] w1]; intros H; try done.
  - right. eauto.
  - left. by injection H as -> ->.
Qed.

Lemma clear_no_throw fuel : ∀ x, throws_only (T:=T) (λ _, False) (clear fuel x).
Proof.
  induction fuel as [|fuel IH]; intros x; simpl.
  { intros w e w'. discriminate. }
  destruct x as [a|]; [|apply throws_only_ret].
  apply throws_only_bind; [apply load_no_throw|]. intros nx.
  apply throws_only_bind; [apply IH|]. intros _.
  apply throws_only_bind; [apply load_no_throw|]. intros nx'.
  apply throws_only_bind; [apply IH|]. intros _.
  apply delete_node_no_throw.
Qed.

Lemma load_unchanged (x : option positive) w r w' :
  load (T:=T) x w = (r, w') → w' = w.
Proof.
  unfold load. destruct x as [a|]; [|by intros [= _ <-]].
  destruct (store w !! a); by intros [= _ <-].
Qed.

Lemma get_queue_unchanged q w r w' : get_queue (T:=T) q w = (r, w') → w' = w.
Proof. unfold get_queue. destruct (queues w !! q); by intros [= _ <-]. Qed.

Lemma pop_throw_same_vals fuel q w ex w' :
  pop Compare fuel q w = (Throw ex, w') →
  same_vals w w' ∧ (ex = container_is_empty ∨ ex = compare_exn).
Proof.
  intros E. unfold pop in E.
  apply bind_throw_inv in E as [E|(pq & w1 & Hq & E)].
  { by destruct (get_queue_no_throw _ _ _ _ E). }
  apply get_queue_unchanged in Hq as ->.
  case_decide as Hz.
  { unfold throw in E. injection E as <- <-. split; [done|by left]. }
  apply bind_throw_inv in E as [E|(n & w1 & Hl & E)].
  { by destruct (load_no_throw _ _ _ _ E). }
  apply load_unchanged in Hl as ->.
  apply bind_throw_inv in E as [E|(r & w1 & Hm & E)].
  { split; [by eapply merge_same_vals|]. right. by eapply merge_throws. }
  exfalso.
  apply bind_throw_inv in E as [E|([] & w2 & _ & E)].
  { by destruct (set_root_no_throw _ _ _ _ _ E). }
  apply bind_throw_inv in E as [E|([] & w3 & _ & E)].
  { by destruct (delete_node_no_throw _ _ _ _ E). }
  apply bind_throw_inv in E as [E|(pq' & w4 & _ & E)].
  { by destruct (get_queue_no_throw _ _ _ _ E). }
  by destruct (set_size_no_throw _ _ _ _ _ E).
Qed.

Lemma pq_merge_throw_same_vals fuel this other w ex w' :
  pq_merge Compare fuel this other w = (Throw ex, w') →
  same_vals w w' ∧ ex = compare_exn.
Proof.
  intros E. unfold pq_merge in E. case_decide as Hne; [done|].
  unfold try_catch_rethrow in E.
  match type of E with
  | match ?b with _ => _ end = _ => destruct b as [[[]|ex'| |] w2] eqn:Eb
  end; try done.
  unfold bind, ret, throw in E. injection E as <- <-.
  apply bind_throw_inv in Eb as [E|(pt & w1 & Hq & E)].
  { by destruct (get_queue_no_throw _ _ _ _ E). }
  apply get_queue_unchanged in Hq as ->.
  apply bind_throw_inv in E as [E|(po & w1 & Hq & E)].
  { by destruct (get_queue_no_throw _ _ _ _ E). }
  apply get_queue_unchanged in Hq as ->.
  apply bind_throw_inv in E as [E|(nt & w1 & Hl & E)].
  { by destruct (load_no_throw _ _ _ _ E). }
  apply load_unchanged in Hl as ->.
  apply bind_throw_inv in E as [E|(no & w1 & Hl & E)].
  { by destruct (load_no_throw _ _ _ _ E). }
  apply load_unchanged in Hl as ->.
  apply bind_throw_inv in E as [E|(c & w1 & Hc & E)].
  { split; [|by eapply compare_throws].
    apply same_state_vals. by eapply compare_same_state. }
  assert (Hw1 : same_vals w w1).
  { apply same_state_vals. by eapply compare_same_state. }
  apply bind_throw_inv in E as [E|(r & w3 & Hm & E)].
  { split; [|by eapply merge_throws].
    etransitivity; [exact Hw1|]. by eapply merge_same_vals. }
  exfalso.
  apply bind_throw_inv in E as [E|([] & w4 & _ & E)].
  { by destruct (set_root_no_throw _ _ _ _ _ E). }
  apply bind_throw_inv in E as [E|(pt' & w5 & _ & E)].
  { by destruct (get_queue_no_throw _ _ _ _ E). }
  apply bind_throw_inv in E as [E|(po' & w6 & _ & E)].
  { by destruct (get_queue_no_throw _ _ _ _ E). }
  apply bind_throw_inv in E as [E|([] & w7 & _ & E)].
  { by destruct (set_size_no_throw _ _ _ _ _ E). }
  apply bind_throw_inv in E as [E|([] & w8 & _ & E)].
  { by destruct (set_root_no_throw _ _ _ _ _ E). }
  by destruct (set_size_no_throw _ _ _ _ _ E).
Qed.

(** X18 — [pop] that throws, for an empty queue or because the predicate threw
    inside the merge of the two subtrees, has not assigned [root_] or
    [size_] and has not freed the root: every node holds the value it held,
    and [size()] and [top()] of every queue are what they were. *)
Theorem pop_throw_keeps_size_and_top fuel q w ex w' :
  pop Compare fuel q w = (Throw ex, w') →
  (ex = container_is_empty ∨ ex = compare_exn)
  ∧ queues w' = queues w
  ∧ dom (store w') = dom (store w)
  ∧ (∀ a, val <$> store w' !! a = val <$> store w !! a)
  ∧ ∀ q', fst (pq_size q' w') = fst (pq_size q' w)
          ∧ fst (top q' w') = fst (top q' w).
Proof.
  intros E. destruct (pop_throw_same_vals _ _ _ _ _ E) as [Hsv Hex].
  split_and!; [done|by destruct Hsv| |by destruct Hsv|].
  - destruct Hsv as [_ Hv]. apply set_eq. intros a.
    rewrite !elem_of_dom. specialize (Hv a).
    destruct (store w' !! a), (store w !! a); simpl in Hv; try done;
      split; intros [? ?]; done.
  - intros q'. split; [by apply pq_size_same_vals|by apply top_same_vals].
Qed.

(** X19 — [merge] of two queues that throws can only throw what the predicate
    threw; both [root_] and [size_] of every queue are unassigned and no
    value has moved, so [size()] and [top()] of every queue, the two
    operands included, are what they were. *)
Theorem pq_merge_throw_keeps_size_and_top fuel this other w ex w' :
  pq_merge Compare fuel this other w = (Throw ex, w') →
  ex = compare_exn
  ∧ this ≠ other
  ∧ queues w' = queues w
  ∧ dom (store w') = dom (store w)
  ∧ (∀ a, val <$> store w' !! a = val <$> store w !! a)
  ∧ ∀ q, fst (pq_size q w') = fst (pq_size q w)
         ∧ fst (top q w') = fst (top q w).
Proof.
  intros E. destruct (pq_merge_throw_same_vals _ _ _ _ _ _ E) as [Hsv Hex].
  split_and!; [done| |by destruct Hsv| |by destruct Hsv|].
  - intros ->. by rewrite pq_merge_self in E.
  - destruct Hsv as [_ Hv]. apply set_eq. intros a.
    rewrite !elem_of_dom. specialize (Hv a).
    destruct (store w' !! a), (store w !! a); simpl in Hv; try done;
      split; intros [? ?]; done.
  - intros q. split; [by apply pq_size_same_vals|by apply top_same_vals].
Qed.

(** X20 — The exceptions of the functions that copy no element: [top]
    throws nothing but [container_is_empty], [pop] nothing but
    [container_is_empty] and what the invocation of the predicate throws,
    [merge] nothing but what the invocation of the predicate throws; the
    default constructor, the destructor, [size] and [empty] throw nothing.
    [push], the copy constructor and the assignment, which also
    copy-construct elements, are not covered. *)
Theorem throws_without_copy fuel q other w e w' :
  (top q w = (Throw e, w') → e = container_is_empty)
  ∧ (pop Compare fuel q w = (Throw e, w') →
     e = container_is_empty ∨ e = compare_exn)
  ∧ (pq_merge Compare fuel q other w = (Throw e, w') → e = compare_exn)
  ∧ pq_ctor w ≠ (Throw e, w')
  ∧ pq_dtor fuel q w ≠ (Throw e, w')
  ∧ pq_size q w ≠ (Throw e, w')
  ∧ pq_empty q w ≠ (Throw e, w').
Proof.
  assert (Hno : ∀ A (E : exn → Prop) (m : M T A),
            throws_only (λ _, False) m → throws_only E m).
  { intros A E m. by apply throws_only_weaken. }
  split_and!.
  - unfold top.
    apply (throws_only_bind (λ e, e = container_is_empty));
      [apply Hno, get_queue_no_throw|]. intros t.
    case_decide; [by intros w0 e0 w0' [= <- <-]|].
    apply throws_only_bind; [apply Hno, load_no_throw|]. intros n.
    apply throws_only_ret.
  - intros E. by destruct (pop_throw_same_vals _ _ _ _ _ E).
  - intros E. by destruct (pq_merge_throw_same_vals _ _ _ _ _ _ E).
  - unfold pq_ctor. done.
  - intros E.
    assert (Hd : throws_only (T:=T) (λ _, False) (pq_dtor fuel q)).
    { apply throws_only_bind; [apply get_queue_no_throw|]. intros t.
      apply throws_only_bind; [apply clear_no_throw|]. intros _.
      intros w0 e0 w0'. done. }
    exact (Hd _ _ _ E).
  - intros E. unfold pq_size in E.
    apply bind_throw_inv in E as [E|(a & w1 & _ & E)]; [|done].
    by destruct (get_queue_no_throw _ _ _ _ E).
  - intros E. unfold pq_empty in E.
    apply bind_throw_inv in E as [E|(a & w1 & _ & E)]; [|done].
    by destruct (get_queue_no_throw _ _ _ _ E).
Qed.

(** ** The constructor and the destructor *)

(** X21 — [priority_queue()] makes a new, empty queue and touches nothing else:
    [empty()] is true, [size()] is 0, [top()] and [pop()] throw
    [container_is_empty]. *)
Theorem pq_ctor_makes_empty_queue w :
  wf_world w →
  ∃ q w', pq_ctor w = (Ok q, w')
    ∧ queues w !! q = None
    ∧ wf_world w'
    ∧ queue_shape w' q Leaf
    ∧ pq_empty q w' = (Ok true, w')
    ∧ pq_size q w' = (Ok 0, w')
    ∧ top q w' = (Throw container_is_empty, w')
    ∧ (∀ fuel, pop Compare fuel q w' = (Throw container_is_empty, w'))
    ∧ store w' = store w
    ∧ ∀ q' t, queue_shape w q' t → queue_shape w' q' t.
Proof.
  intros [[sh Hown] Hbound].
  destruct (pq_ctor_spec w sh Hown) as (q & Hc & Hq & Hown').
  set (w' := set_queues _ w) in *.
  assert (Hq' : queues w' !! q = Some (PQ None 0)).
  { subst w'. simpl. by rewrite lookup_insert_eq. }
  assert (Hsh : sh !! q = None) by (by apply Hown).
  exists q, w'. split_and!; try done.
  - split; [eauto|done].
  - apply (owned_by_shape _ _ _ _ Hown'). by rewrite lookup_insert_eq.
  - by rewrite (pq_empty_ok _ _ _ Hq').
  - by rewrite (pq_size_ok _ _ _ Hq').
  - eapply top_leaf; [exact Hown'|]. by rewrite lookup_insert_eq.
  - intros fuel. unfold pop, bind. by rewrite (get_queue_ok _ _ _ Hq').
  - intros q' t Ht. apply (owned_by_shape _ _ _ _ Hown) in Ht.
    apply (owned_by_shape _ _ _ _ Hown').
    rewrite lookup_insert_ne; [done|]. intros <-. congruence.
Qed.

Lemma pq_dtor_dom fuel q w sh t w' :
  owned_by w sh → sh !! q = Some t →
  pq_dtor fuel q w = (Ok tt, w') →
  dom (store w') = dom (store w) ∖ list_to_set (addrs t)
  ∧ queues w' = delete q (queues w).
Proof.
  intros Hown Ht E.
  pose proof Hown as (Hdom & Hsh & Hdis).
  destruct (Hsh _ _ Ht) as (pq & Hq & Hroot & Hrep & Hnd & Hsize).
  unfold pq_dtor in E.
  unfold bind at 1 in E. rewrite (get_queue_ok _ _ _ Hq) in E.
  destruct (clear_spec fuel t w Hrep Hnd) as (w2 & Hq2 & Hn2 & Hout & Hsub & Hres).
  rewrite Hroot in E. unfold bind at 1 in E.
  destruct Hres as [[Hc Hf]|[Hc Hin]]; rewrite Hc in E; [done|].
  injection E as <-. simpl. rewrite Hq2. split; [|done].
  apply set_eq. intros a.
  rewrite elem_of_difference, elem_of_list_to_set, !elem_of_dom.
  destruct (decide (a ∈ addrs t)) as [Ha|Ha].
  - rewrite (Hin a Ha). split; [by intros [? ?]|by intros [_ ?]].
  - rewrite (Hout a Ha). tauto.
Qed.

(** X22 — The destructor returns when the budget exceeds the number of nodes; it
    frees the nodes of its queue and no other, removes the queue object,
    and leaves the other queues as they were. *)
Theorem pq_dtor_frees_its_nodes fuel q w t :
  wf_world w → queue_shape w q t → (tsize t < fuel)%nat →
  ∃ w', pq_dtor fuel q w = (Ok tt, w')
    ∧ queues w' = delete q (queues w)
    ∧ dom (store w') = dom (store w) ∖ list_to_set (addrs t)
    ∧ (∀ a, a ∉ addrs t → store w' !! a = store w !! a)
    ∧ cmp_calls w' = cmp_calls w
    ∧ wf_world w'
    ∧ ∀ q' t0, q' ≠ q → queue_shape w q' t0 → queue_shape w' q' t0.
Proof.
  intros [[sh Hown] Hbound] Hq Hfuel.
  apply (owned_by_shape _ _ _ _ Hown) in Hq.
  destruct (pq_dtor fuel q w) as [r w'] eqn:E.
  destruct (pq_dtor_spec _ _ _ _ _ _ _ Hown Hq E)
    as (_ & Hfr & Hsub & Hn & [[-> Hown']|[_ Hf]]); [|lia].
  destruct (pq_dtor_dom _ _ _ _ _ _ Hown Hq E) as [Hd Hqs].
  exists w'. split_and!; try done.
  - split; [eauto|]. pose proof (map_subseteq_size_le _ _ Hsub). lia.
  - intros q' t0 Hne Hq'. apply (owned_by_shape _ _ _ _ Hown) in Hq'.
    apply (owned_by_shape _ _ _ _ Hown'). by rewrite lookup_delete_ne.
Qed.

(** ** No node is leaked *)

Lemma pq_assign_dom fuel this other w sh t to w' :
  owned_by w sh → this ≠ other →
  sh !! this = Some t → sh !! other = Some to →
  pq_assign fuel this other w = (Ok tt, w') →
  ∃ t', owned_by w' (<[this := t']> sh)
    ∧ dom (store w')
      = (dom (store w) ∖ list_to_set (addrs t)) ∪ list_to_set (addrs t').
Proof.
  intros Hown Hne Ht Hto E.
  destruct (pq_assign_spec _ _ _ _ _ _ _ _ _ Hown Hne Ht Hto E)
    as (_ & _ & _ & _ & _ & Hok & _).
  destruct (Hok eq_refl) as (t' & Hsv & Hown' & _).
  exists t'. split; [done|].
  pose proof Hown as (Hdom & Hsh & Hdis).
  destruct (Hsh _ _ Ht) as (pt & Hqt & Hroott & Hrept & Hndt & Hsizet).
  destruct (Hsh _ _ Hto) as (po & Hqo & Hrooto & Hrepo & Hndo & Hsizeo).
  pose proof (Hdis _ _ _ _ Hne Ht Hto) as Hxy.
  unfold pq_assign in E. rewrite decide_False in E by done.
  unfold bind at 1 in E. rewrite (get_queue_ok _ _ _ Hqt) in E.
  destruct (clear_spec fuel t w Hrept Hndt) as (w1 & Hq1 & Hn1 & Hout1 & Hsub1 & Hres1).
  rewrite Hroott in E. unfold bind at 1 in E.
  destruct Hres1 as [[Hc1 Hf1]|[Hc1 Hin1]]; rewrite Hc1 in E; [done|].
  unfold bind at 1 in E. rewrite (get_queue_ok w1 other po) in E by (by rewrite Hq1).
  assert (Hrepo1 : repr (store w1) to).
  { eapply repr_frame; [exact Hrepo|]. intros b Hb. apply Hout1. intros Hbt.
    by apply (Hxy b). }
  destruct (clonenode_spec fuel to w1 Hrepo1) as (w2 & Hq2 & Hn2 & Hsub2 & Hres2).
  rewrite Hrooto in E. unfold bind at 1 in E.
  destruct Hres2 as [[Hc Hf]|[[Hc Hfull]|(t2 & Hc & Hrep' & Hnd' & Hsv2 & Hfresh & Hdom2 & Hb)]];
    rewrite Hc in E; [done|done|].
  assert (Hq2t : queues w2 !! this = Some pt) by (by rewrite Hq2, Hq1).
  unfold bind at 1 in E. rewrite (set_root_ok _ _ _ _ Hq2t) in E.
  set (w3 := set_queues _ w2) in E.
  unfold bind at 1 in E. rewrite (get_queue_ok w3 other po) in E
    by (subst w3; simpl; rewrite lookup_insert_ne by done; by rewrite Hq2, Hq1).
  rewrite (set_size_ok w3 this (PQ (root t2) (size_ pt))) in E
    by (subst w3; simpl; by rewrite lookup_insert_eq).
  injection E as <-.
  (* the tree the queue owns afterwards is the clone *)
  assert (t' = t2) as ->.
  { destruct Hown' as (_ & Hsh' & _).
    destruct (Hsh' this t') as (pq' & Hq' & Hroot' & Hrepr' & _);
      [by rewrite lookup_insert_eq|].
    simpl in Hq', Hrepr'. rewrite lookup_insert_eq in Hq'.
    injection Hq' as <-. simpl in Hroot'.
    by apply (repr_inj (store w2)). }
  simpl. rewrite Hdom2. f_equal.
  apply set_eq. intros a.
  rewrite elem_of_difference, elem_of_list_to_set, !elem_of_dom.
  destruct (decide (a ∈ addrs t)) as [Ha|Ha].
  - rewrite (Hin1 a Ha). split; [by intros [? ?]|by intros [_ ?]].
  - rewrite (Hout1 a Ha). tauto.
Qed.

Lemma call_no_leak fuel o w sh w' :
  owned_by w sh → Z.of_nat (size (store w)) ≤ SIZE_MAX →
  (∀ a, a ∈ dom (store w) → ∃ q t, sh !! q = Some t ∧ a ∈ addrs t) →
  call Compare fuel o w = (Ok tt, w') →
  ∃ sh', owned_by w' sh'
    ∧ ∀ a, a ∈ dom (store w') → ∃ q t, sh' !! q = Some t ∧ a ∈ addrs t.
Proof.
  intros Hown Hbound Hcov E.
  pose proof Hown as (Hdom & Hsh & Hdis).
  destruct o as [|other|this|this other|this|this e|this|this|this|this other];
    cbn [call] in E.
  - (* constructor *)
    destruct (pq_ctor_spec w sh Hown) as (q & Hc & Hq & Hown').
    unfold bind in E. rewrite Hc in E. injection E as <-.
    exists (<[q := Leaf]> sh). split; [done|]. simpl. intros a Ha.
    destruct (Hcov a Ha) as (q0 & t0 & Hq0 & Ha0). exists q0, t0.
    split; [|done]. rewrite lookup_insert_ne; [done|]. intros <-.
    apply Hdom in Hq. congruence.
  - (* copy constructor *)
    unfold bind in E.
    destruct (pq_copy_ctor fuel other w) as [[q|ex| |] w1] eqn:Ec; try done.
    injection E as <-.
    destruct (sh !! other) as [t|] eqn:Ht.
    2:{ apply Hdom in Ht. rewrite (pq_copy_ctor_absent _ _ _ Ht) in Ec. done. }
    destruct (pq_copy_ctor_spec _ _ _ _ _ _ _ Hown Ht Ec)
      as (_ & _ & _ & _ & _ & Hok & _).
    destruct (Hok q eq_refl) as (t' & Hq & Hsv & Hown' & Hfresh & Hdom' & Hb).
    exists (<[q := t']> sh). split; [done|]. intros a Ha.
    rewrite Hdom', elem_of_union, elem_of_list_to_set in Ha.
    destruct Ha as [Ha|Ha].
    + destruct (Hcov a Ha) as (q0 & t0 & Hq0 & Ha0). exists q0, t0.
      split; [|done]. rewrite lookup_insert_ne; [done|]. intros <-.
      apply Hdom in Hq. congruence.
    + exists q, t'. by rewrite lookup_insert_eq.
  - (* destructor *)
    destruct (sh !! this) as [t|] eqn:Ht.
    2:{ apply Hdom in Ht. rewrite (pq_dtor_absent _ _ _ Ht) in E. done. }
    destruct (pq_dtor_spec _ _ _ _ _ _ _ Hown Ht E)
      as (_ & _ & Hsub & _ & [[_ Hown']|[? _]]); [|done].
    destruct (pq_dtor_dom _ _ _ _ _ _ Hown Ht E) as [Hd _].
    exists (delete this sh). split; [done|]. intros a Ha.
    rewrite Hd, elem_of_difference, elem_of_list_to_set in Ha.
    destruct Ha as [Ha Hat].
    destruct (Hcov a Ha) as (q0 & t0 & Hq0 & Ha0). exists q0, t0.
    split; [|done]. rewrite lookup_delete_ne; [done|]. intros <-. congruence.
  - (* assignment *)
    destruct (decide (this = other)) as [->|Hne].
    { rewrite pq_assign_self in E. injection E as <-. eauto. }
    destruct (sh !! this) as [t|] eqn:Ht.
    2:{ apply Hdom in Ht. rewrite (pq_assign_absent_this _ _ _ _ Hne Ht) in E. done. }
    destruct (sh !! other) as [to|] eqn:Hto.
    2:{ apply Hdom in Hto.
        by destruct (pq_assign_absent_other _ _ _ _ _ _ _ _ Hown Ht Hto E) as (? & _). }
    destruct (pq_assign_dom _ _ _ _ _ _ _ _ Hown Hne Ht Hto E)
      as (t' & Hown' & Hd).
    exists (<[this := t']> sh). split; [done|]. intros a Ha.
    rewrite Hd, elem_of_union, elem_of_difference, !elem_of_list_to_set in Ha.
    destruct Ha as [[Ha Hat]|Ha].
    + destruct (Hcov a Ha) as (q0 & t0 & Hq0 & Ha0). exists q0, t0.
      split; [|done]. rewrite lookup_insert_ne; [done|]. intros <-. congruence.
    + exists this, t'. by rewrite lookup_insert_eq.
  - (* top *)
    unfold bind in E. pose proof (top_unchanged this w) as Hw.
    destruct (top this w) as [[v|ex| |] w1]; try done. simpl in Hw. subst w1.
    injection E as <-. eauto.
  - (* push *)
    destruct (sh !! this) as [t|] eqn:Ht.
    2:{ apply Hdom in Ht. by destruct (push_absent _ _ _ _ _ _ _ Ht E) as (? & _). }
    destruct (push_spec _ _ _ _ _ _ _ _ _ Hown Ht E) as (_ & _ & Hok).
    destruct (Hok eq_refl) as (c & t' & Hc & Hms & Hown' & Hdom' & Hroom).
    pose proof (merge_shape_addrs _ _ _ _ _ Hms) as Haddrs. simpl in Haddrs.
    exists (<[this := t']> sh). split; [done|]. intros a Ha.
    rewrite Hdom', elem_of_union, elem_of_singleton in Ha.
    destruct Ha as [->|Ha].
    + exists this, t'. rewrite lookup_insert_eq. split; [done|].
      rewrite Haddrs. set_solver.
    + destruct (Hcov a Ha) as (q0 & t0 & Hq0 & Ha0).
      destruct (decide (q0 = this)) as [->|Hq0ne].
      * exists this, t'. rewrite lookup_insert_eq. split; [done|].
        rewrite Haddrs. assert (t0 = t) as -> by congruence. set_solver.
      * exists q0, t0. by rewrite lookup_insert_ne.
  - (* pop *)
    destruct (sh !! this) as [t|] eqn:Ht.
    2:{ apply Hdom in Ht. rewrite (pop_absent _ _ _ _ Ht) in E. done. }
    destruct (pop_spec _ _ _ _ _ _ _ _ Hown Hbound Ht E) as (_ & _ & Hok).
    destruct (Hok eq_refl) as (a0 & v & l & r0 & t' & -> & Hms & Hown' & Hdom').
    pose proof (merge_shape_addrs _ _ _ _ _ Hms) as Haddrs.
    exists (<[this := t']> sh). split; [done|]. intros a Ha.
    rewrite Hdom', elem_of_difference, elem_of_singleton in Ha.
    destruct Ha as [Ha Hne].
    destruct (Hcov a Ha) as (q0 & t0 & Hq0 & Ha0).
    destruct (decide (q0 = this)) as [->|Hq0ne].
    + exists this, t'. rewrite lookup_insert_eq. split; [done|].
      rewrite Haddrs. assert (t0 = Node a0 v l r0) as -> by congruence.
      simpl in Ha0. set_solver.
    + exists q0, t0. by rewrite lookup_insert_ne.
  - (* size *)
    unfold bind in E. pose proof (pq_size_unchanged this w) as Hw.
    destruct (pq_size this w) as [[v|ex| |] w1]; try done. simpl in Hw. subst w1.
    injection E as <-. eauto.
  - (* empty *)
    unfold bind in E. pose proof (pq_empty_unchanged this w) as Hw.
    destruct (pq_empty this w) as [[v|ex| |] w1]; try done. simpl in Hw. subst w1.
    injection E as <-. eauto.
  - (* merge *)
    destruct (decide (this = other)) as [->|Hne].
    { rewrite pq_merge_self in E. injection E as <-. eauto. }
    destruct (sh !! this) as [tx|] eqn:Htx.
    2:{ apply Hdom in Htx. rewrite (pq_merge_absent _ _ _ _ _ Hne) in E by auto. done. }
    destruct (sh !! other) as [ty|] eqn:Hty.
    2:{ apply Hdom in Hty. rewrite (pq_merge_absent _ _ _ _ _ Hne) in E by auto. done. }
    destruct (pq_merge_spec _ _ _ _ _ _ _ _ _ _ Hown Hbound Hne Htx Hty E)
      as (_ & _ & Hdom' & Hok).
    destruct (Hok eq_refl) as (t' & _ & _ & Hms & Hown').
    pose proof (merge_shape_addrs _ _ _ _ _ Hms) as Haddrs.
    exists (<[this := t']> (<[other := Leaf]> sh)). split; [done|].
    intros a Ha. rewrite Hdom' in Ha.
    destruct (Hcov a Ha) as (q0 & t0 & Hq0 & Ha0).
    destruct (decide (q0 = this)) as [->|Hq0t].
    + exists this, t'. rewrite lookup_insert_eq. split; [done|].
      rewrite Haddrs. assert (t0 = tx) as -> by congruence. set_solver.
    + destruct (decide (q0 = other)) as [->|Hq0o].
      * exists this, t'. rewrite lookup_insert_eq. split; [done|].
        rewrite Haddrs. assert (t0 = ty) as -> by congruence. set_solver.
      * exists q0, t0. by rewrite !lookup_insert_ne.
Qed.

(** X23 — No node is leaked: in every state reached by calls that all return,
    every live node belongs to the tree of a queue. *)
Theorem reachable_no_leak w :
  reachable Compare w →
  ∀ a, a ∈ dom (store w) → ∃ q t, queue_shape w q t ∧ a ∈ addrs t.
Proof.
  intros Hr.
  assert (H : ∃ sh, owned_by w sh
    ∧ ∀ a, a ∈ dom (store w) → ∃ q t, sh !! q = Some t ∧ a ∈ addrs t).
  { induction Hr as [|w fuel o w' Hr IH E].
    - exists ∅. split.
      + split_and!; [done| |]; intros *; by rewrite ?lookup_empty.
      + intros a Ha. simpl in Ha. set_solver.
    - destruct IH as (sh & Hown & Hcov).
      destruct (reachable_wf Compare w Hr) as [_ Hbound].
      by eapply call_no_leak. }
  destruct H as (sh & Hown & Hcov). intros a Ha.
  destruct (Hcov a Ha) as (q & t & Hq & Hat). exists q, t. split; [|done].
  by apply (owned_by_shape _ _ _ _ Hown).
Qed.

End queue_properties.

Section drain_facts.

Context {T : Type} (Compare : T → T → option bool).
Variable lt : T → T → bool.
Hypothesis Compare_lt : ∀ a b r, Compare a b = Some r → r = lt a b.
Hypothesis lt_asym : ∀ a b, lt a b = true → lt b a = false.
Hypothesis lt_negtrans : ∀ a b c, lt a b = false → lt b c = false → lt a c = false.
Implicit Types (w : world T) (t : shape (T:=T)).

(** X24 — Emptying a queue by [top()] and [pop()] sorts its elements: the loop
    returns, the values read are the elements of the queue, no value is
    below one read after it, and the queue is left empty. *)
Theorem drain_sorts fuel n : ∀ w q t,
  reachable Compare w → queue_shape w q t →
  (tsize t < fuel)%nat → (tsize t < n)%nat →
  (∀ a b, a ∈ elems t → b ∈ elems t → Compare a b ≠ None) →
  ∃ xs w', drain Compare fuel n q w = (Ok xs, w')
    ∧ xs ≡ₚ elems t
    ∧ descending lt xs
    ∧ pq_empty q w' = (Ok true, w')
    ∧ reachable Compare w'.
Proof using Compare_lt lt_asym lt_negtrans.
  induction n as [|n IH]; intros w q t Hr Hq Hfuel Hn Htotal; [lia|].
  destruct (reachable_heap_ordered Compare lt Compare_lt lt_asym w Hr)
    as [(sh & Hown & HP) Hbound].
  apply (owned_by_shape _ _ _ _ Hown) in Hq.
  pose proof Hown as (Hdom & Hsh & Hdis).
  destruct (Hsh _ _ Hq) as (pq & Hpq & Hroot & Hrep & Hnd & Hsize).
  simpl. unfold bind at 1. rewrite (pq_empty_ok _ _ _ Hpq).
  destruct t as [|a v l r0].
  { rewrite bool_decide_eq_true_2 by (by rewrite Hsize).
    exists [], w. split_and!; try done.
    rewrite (pq_empty_ok _ _ _ Hpq). by rewrite bool_decide_eq_true_2
      by (by rewrite Hsize). }
  rewrite bool_decide_eq_false_2.
  2:{ rewrite Hsize. unfold tsize. simpl. lia. }
  unfold bind at 1. rewrite (top_node _ _ _ _ _ _ _ Hown Hq).
  assert (Hts1 : tsize (Node a v l r0) = S (tsize l + tsize r0)).
  { unfold tsize. simpl. by rewrite length_app. }
  destruct (merge_shape_total Compare fuel l r0) as [t' Ht'].
  { lia. }
  { intros x y Hx Hy. apply Htotal; simpl; set_solver. }
  pose proof (pop_outcome Compare fuel q w sh _ Hown Hq) as Hout.
  simpl in Hout. rewrite Ht' in Hout. simpl in Hout.
  destruct (pop Compare fuel q w) as [res w1] eqn:E. simpl in Hout. subst res.
  destruct (pop_spec _ _ _ _ _ _ _ _ Hown Hbound Hq E) as (_ & _ & Hok).
  destruct (Hok eq_refl) as (a' & v' & l' & r' & t'' & Heq & Hms & Hown' & Hdom').
  injection Heq as <- <- <- <-. rewrite Ht' in Hms. injection Hms as <-.
  assert (Hr1 : reachable Compare w1).
  { eapply (reachable_call _ w fuel (OpPop q)); [done|exact E]. }
  assert (Hq1 : queue_shape w1 q t').
  { apply (owned_by_shape _ _ _ _ Hown'). by rewrite lookup_insert_eq. }
  pose proof (merge_shape_tsize _ _ _ _ _ Ht') as Hts.
  pose proof (merge_shape_elems _ _ _ _ _ Ht') as Hel.
  destruct (IH w1 q t' Hr1 Hq1) as (xs & w' & Hd & Hperm & Hsorted & He & Hr').
  { lia. }
  { lia. }
  { intros x y Hx Hy. rewrite Hel in Hx, Hy. apply Htotal; simpl; set_solver. }
  unfold bind at 1. rewrite E. unfold bind at 1. rewrite Hd.
  exists (v :: xs), w'. split_and!; try done.
  - simpl. by rewrite Hperm, Hel.
  - split; [|done]. intros y Hy. rewrite Hperm, Hel in Hy.
    pose proof (HP _ _ Hq) as (Hl & Hr0 & Hol & Hor).
    apply elem_of_app in Hy as [Hy|Hy].
    + exact (heap_ordered_below lt lt_negtrans l v Hol Hl y Hy).
    + exact (heap_ordered_below lt lt_negtrans r0 v Hor Hr0 y Hy).
Qed.

End drain_facts.

Lemma push_9_returns :
  push less 8 1 9 pushed_1_2 = (Ok tt, snd (push less 8 1 9 pushed_1_2)).
Proof. vm_compute. reflexivity. Qed.

Lemma push_adds_element_witness :
  ∃ w', push less 8 1 9 pushed_1_2 = (Ok tt, w')
    ∧ wf_world w'
    ∧ pq_empty 1 w' = (Ok false, w')
    ∧ ∃ t', queue_shape w' 1 t' ∧ elems t' ≡ₚ [9; 2; 1].
Proof.
  destruct (push_adds_element less 8 1 9 pushed_1_2 _ pushed_1_2_wf
              pushed_1_2_shape) as [Hret _].
  destruct (Hret _ push_9_returns) as (Hwf & Ht & _ & He & _).
  exists (snd (push less 8 1 9 pushed_1_2)).
  split; [exact push_9_returns|]. split; [exact Hwf|].
  split; [exact He|exact Ht].
Defined.

Lemma pop_returns_1_2 :
  pop less 8 1 pushed_1_2 = (Ok tt, snd (pop less 8 1 pushed_1_2)).
Proof. vm_compute. reflexivity. Qed.

Lemma pop_removes_top_witness :
  ∃ w', pop less 8 1 pushed_1_2 = (Ok tt, w')
    ∧ wf_world w'
    ∧ ∃ a v l r t',
        Node 2%positive 2 (Node 1%positive 1 Leaf Leaf) Leaf = Node a v l r
        ∧ top 1 pushed_1_2 = (Ok v, pushed_1_2)
        ∧ queue_shape w' 1 t'
        ∧ [2; 1] ≡ₚ v :: elems t'.
Proof.
  destruct (pop_removes_top less 8 1 pushed_1_2 _ pushed_1_2_wf
              pushed_1_2_shape) as [Hret _].
  destruct (Hret _ pop_returns_1_2)
    as (Hwf & a & v & l & r & t' & Heq & Htop & Hq & Hel & _).
  exists (snd (pop less 8 1 pushed_1_2)).
  split; [exact pop_returns_1_2|]. split; [exact Hwf|].
  exists a, v, l, r, t'.
  split; [exact Heq|]. split; [exact Htop|]. split; [exact Hq|exact Hel].
Defined.

Lemma top_after_push_witness :
  top 1 (snd (push less 8 1 9 pushed_1_2))
  = (Ok 9, snd (push less 8 1 9 pushed_1_2)).
Proof.
  exact (proj1 (top_after_push less 8 1 9 pushed_1_2 _ _ pushed_1_2_wf
                  pushed_1_2_shape push_9_returns)).
Defined.

Lemma pop_three_seven_throws :
  pop less_throwing 8 1 three_seven
  = (Throw compare_exn, snd (pop less_throwing 8 1 three_seven)).
Proof. vm_compute. reflexivity. Qed.

Lemma pop_throw_keeps_size_and_top_witness :
  pop less_throwing 8 1 three_seven
  = (Throw compare_exn, snd (pop less_throwing 8 1 three_seven))
  ∧ fst (pq_size 1 (snd (pop less_throwing 8 1 three_seven)))
    = fst (pq_size 1 three_seven)
  ∧ fst (top 1 (snd (pop less_throwing 8 1 three_seven)))
    = fst (top 1 three_seven).
Proof.
  destruct (pop_throw_keeps_size_and_top less_throwing 8 1 three_seven
              compare_exn _ pop_three_seven_throws) as (_ & _ & _ & _ & H).
  split; [exact pop_three_seven_throws|]. exact (H 1%positive).
Defined.

Lemma merge_two_queues_throws :
  pq_merge less_throwing 8 1 2 two_queues
  = (Throw compare_exn, snd (pq_merge less_throwing 8 1 2 two_queues)).
Proof. vm_compute. reflexivity. Qed.

Lemma pq_merge_throw_keeps_size_and_top_witness :
  pq_merge less_throwing 8 1 2 two_queues
  = (Throw compare_exn, snd (pq_merge less_throwing 8 1 2 two_queues))
  ∧ fst (pq_size 1 (snd (pq_merge less_throwing 8 1 2 two_queues)))
    = fst (pq_size 1 two_queues)
  ∧ fst (top 2 (snd (pq_merge less_throwing 8 1 2 two_queues)))
    = fst (top 2 two_queues).
Proof.
  destruct (pq_merge_throw_keeps_size_and_top less_throwing 8 1 2 two_queues
              compare_exn _ merge_two_queues_throws)
    as (_ & _ & _ & _ & _ & H).
  split; [exact merge_two_queues_throws|].
  split; [exact (proj1 (H 1%positive))|exact (proj2 (H 2%positive))].
Defined.

Lemma throws_without_copy_witness :
  compare_exn = container_is_empty ∨ compare_exn = compare_exn.
Proof.
  exact (proj1 (proj2 (throws_without_copy less_throwing 8 1 1 three_seven
                         compare_exn _)) pop_three_seven_throws).
Defined.

Lemma pq_ctor_makes_empty_queue_witness :
  ∃ q w', pq_ctor pushed_1_2 = (Ok q, w')
    ∧ queues pushed_1_2 !! q = None
    ∧ wf_world w'
    ∧ queue_shape w' q Leaf
    ∧ pq_empty q w' = (Ok true, w').
Proof.
  destruct (pq_ctor_makes_empty_queue less pushed_1_2 pushed_1_2_wf)
    as (q & w' & H1 & H2 & H3 & H4 & H5 & _).
  exists q, w'. split; [exact H1|]. split; [exact H2|]. split; [exact H3|].
  split; [exact H4|exact H5].
Defined.

Lemma pushed_1_2_budget :
  (tsize (Node 2%positive 2 (Node 1%positive 1 Leaf Leaf) Leaf) < 8)%nat.
Proof. vm_compute. lia. Qed.

Lemma pq_dtor_frees_its_nodes_witness :
  ∃ w', pq_dtor 8 1 pushed_1_2 = (Ok tt, w')
    ∧ queues w' = delete 1%positive (queues pushed_1_2)
    ∧ dom (store w')
      = dom (store pushed_1_2) ∖ list_to_set [2%positive; 1%positive].
Proof.
  destruct (pq_dtor_frees_its_nodes 8 1 pushed_1_2 _ pushed_1_2_wf
              pushed_1_2_shape pushed_1_2_budget) as (w' & H1 & H2 & H3 & _).
  exists w'. split; [exact H1|]. split; [exact H2|exact H3].
Defined.

Lemma two_queues_node_4 : 4%positive ∈ dom (store two_queues).
Proof. apply elem_of_dom. eexists. vm_compute. reflexivity. Qed.

Lemma reachable_no_leak_witness :
  ∃ q t, queue_shape two_queues q t ∧ 4%positive ∈ addrs t.
Proof.
  exact (reachable_no_leak less_throwing two_queues two_queues_reachable
           4%positive two_queues_node_4).
Defined.

Lemma less_total (t : shape (T:=Z)) a b :
  a ∈ elems t → b ∈ elems t → less a b ≠ None.
Proof. done. Qed.

Lemma drain_sorts_witness :
  ∃ xs w', drain less 8 8 1 pushed_1_2 = (Ok xs, w')
    ∧ xs ≡ₚ [2; 1]
    ∧ descending Z.ltb xs
    ∧ pq_empty 1 w' = (Ok true, w')
    ∧ reachable less w'.
Proof.
  exact (drain_sorts less Z.ltb less_ltb ltb_asym ltb_negtrans 8 8 pushed_1_2 1
           _ pushed_1_2_reachable pushed_1_2_shape pushed_1_2_budget
           pushed_1_2_budget (less_total _)).
Defined.

(** ** The iterators: the operators that are right *)

Lemma int_add_sub a n b :
  INT_MIN ≤ a ≤ INT_MAX → int_add a n = Ok b → int_sub b n = Ok a.
Proof.
  unfold int_add, int_sub. intros Ha. case_decide; [|done]. intros [= <-].
  rewrite decide_True by lia. f_equal. lia.
Qed.

Lemma int_sub_add a n b :
  INT_MIN ≤ a ≤ INT_MAX → int_sub a n = Ok b → int_add b n = Ok a.
Proof.
  unfold int_add, int_sub. intros Ha. case_decide; [|done]. intros [= <-].
  rewrite decide_True by lia. f_equal. lia.
Qed.

(** X25 — [it += n] and [it -= n] undo each other, for both iterator classes,
    whenever the first of the two does not overflow. *)
Theorem plus_assign_minus_assign (it : iterator.t) (cit : const_iterator.t) n :
  INT_MIN ≤ iterator.idx_ it ≤ INT_MAX →
  INT_MIN ≤ const_iterator.idx_ cit ≤ INT_MAX →
  (∀ it', iterator.plus_assign it n = Ok it' →
          iterator.minus_assign it' n = Ok it)
  ∧ (∀ it', iterator.minus_assign it n = Ok it' →
            iterator.plus_assign it' n = Ok it)
  ∧ (∀ cit', const_iterator.plus_assign cit n = Ok cit' →
             const_iterator.minus_assign cit' n = Ok cit)
  ∧ (∀ cit', const_iterator.minus_assign cit n = Ok cit' →
             const_iterator.plus_assign cit' n = Ok cit).
Proof.
  intros Hit Hcit. destruct it as [p i], cit as [cp ci]. simpl in *.
  unfold iterator.plus_assign, iterator.minus_assign,
    const_iterator.plus_assign, const_iterator.minus_assign. simpl.
  split_and!.
  - intros it'. destruct (int_add i n) as [b| | |] eqn:E; try done.
    intros [= <-]. simpl. by rewrite (int_add_sub _ _ _ Hit E).
  - intros it'. destruct (int_sub i n) as [b| | |] eqn:E; try done.
    intros [= <-]. simpl. by rewrite (int_sub_add _ _ _ Hit E).
  - intros it'. destruct (int_add ci n) as [b| | |] eqn:E; try done.
    intros [= <-]. simpl. by rewrite (int_add_sub _ _ _ Hcit E).
  - intros it'. destruct (int_sub ci n) as [b| | |] eqn:E; try done.
    intros [= <-]. simpl. by rewrite (int_sub_add _ _ _ Hcit E).
Qed.

Lemma plus_assign_minus_assign_witness :
  iterator.minus_assign (iterator.mk 300 5) 3 = Ok (iterator.mk 300 2).
Proof.
  exact (proj1 (plus_assign_minus_assign (iterator.mk 300 2)
                  (const_iterator.mk 300 2) 3 ltac:(done) ltac:(done))
           (iterator.mk 300 5) eq_refl).
Defined.

(** X26 — The difference of two iterators: [(it + n) - it] is [n], the
    difference throws [invalid_iterator] exactly when the two iterators
    refer to different buffers, and otherwise it is the difference of the
    positions. *)
Theorem distance_of_plus (it rhs : iterator.t) n :
  INT_MIN ≤ iterator.idx_ it ≤ INT_MAX → INT_MIN ≤ n ≤ INT_MAX →
  (∀ it', iterator.plus it n = Ok it' → iterator.distance it' it = Ok n)
  ∧ (iterator.distance it rhs = Throw invalid_iterator
     ↔ iterator.ptr_ it ≠ iterator.ptr_ rhs)
  ∧ (iterator.ptr_ it = iterator.ptr_ rhs →
     INT_MIN ≤ iterator.idx_ it - iterator.idx_ rhs ≤ INT_MAX →
     iterator.distance it rhs = Ok (iterator.idx_ it - iterator.idx_ rhs)).
Proof.
  intros Hit Hn. destruct it as [p i], rhs as [q j]. simpl in *.
  unfold iterator.plus, iterator.distance. simpl. split_and!.
  - intros it'. unfold int_add. case_decide; [|done]. intros [= <-]. simpl.
    rewrite decide_False by (intros H'; by apply H').
    unfold int_sub. rewrite decide_True by lia. f_equal. lia.
  - case_decide as Hp; [done|]. split; [|done].
    unfold int_sub. by case_decide.
  - intros -> Hd. rewrite decide_False by (intros H'; by apply H').
    unfold int_sub. by rewrite decide_True.
Qed.

Lemma distance_of_plus_witness :
  iterator.distance (iterator.mk 300 5) (iterator.mk 300 2) = Ok 3.
Proof.
  exact (proj1 (distance_of_plus (iterator.mk 300 2) (iterator.mk 300 0) 3
                  ltac:(done) ltac:(done)) (iterator.mk 300 5) eq_refl).
Defined.

(** X27 — The increments and decrements: [++it] then [--it] gives back the
    iterator, [it++] returns the old value and leaves what [++it] leaves,
    [++it] is [it += 1], and the same for [--]; both iterator classes. *)
Theorem increment_decrement (it : iterator.t) (cit : const_iterator.t) :
  INT_MIN ≤ iterator.idx_ it ≤ INT_MAX →
  INT_MIN ≤ const_iterator.idx_ cit ≤ INT_MAX →
  (∀ it', iterator.pre_incr it = Ok it' →
          iterator.pre_decr it' = Ok it
          ∧ iterator.post_incr it = Ok (it, it')
          ∧ iterator.plus_assign it 1 = Ok it'
          ∧ iterator.distance it' it = Ok 1)
  ∧ (∀ it', iterator.pre_decr it = Ok it' →
            iterator.pre_incr it' = Ok it
            ∧ iterator.post_decr it = Ok (it, it')
            ∧ iterator.minus_assign it 1 = Ok it')
  ∧ (∀ cit', const_iterator.pre_incr cit = Ok cit' →
             const_iterator.pre_decr cit' = Ok cit
             ∧ const_iterator.post_incr cit = Ok (cit, cit')
             ∧ const_iterator.plus_assign cit 1 = Ok cit'
             ∧ const_iterator.distance cit' cit = Ok 1)
  ∧ (∀ cit', const_iterator.pre_decr cit = Ok cit' →
             const_iterator.pre_incr cit' = Ok cit
             ∧ const_iterator.post_decr cit = Ok (cit, cit')
             ∧ const_iterator.minus_assign cit 1 = Ok cit').
Proof.
  intros Hit Hcit. destruct it as [p i], cit as [cp ci]. simpl in *.
  unfold iterator.pre_incr, iterator.pre_decr, iterator.post_incr,
    iterator.post_decr, iterator.plus_assign, iterator.minus_assign,
    iterator.distance, const_iterator.pre_incr, const_iterator.pre_decr,
    const_iterator.post_incr, const_iterator.post_decr,
    const_iterator.plus_assign, const_iterator.minus_assign,
    const_iterator.distance. simpl.
  split_and!.
  - intros it'. destruct (int_add i 1) as [b| | |] eqn:E; try done.
    intros [= <-]. simpl. rewrite (int_add_sub _ _ _ Hit E).
    rewrite decide_False by (intros H'; by apply H').
    split_and!; try done. unfold int_add in E. case_decide; [|done].
    injection E as <-. unfold int_sub.
    rewrite decide_True by (unfold INT_MIN, INT_MAX in *; lia).
    f_equal. lia.
  - intros it'. destruct (int_sub i 1) as [b| | |] eqn:E; try done.
    intros [= <-]. simpl. by rewrite (int_sub_add _ _ _ Hit E).
  - intros it'. destruct (int_add ci 1) as [b| | |] eqn:E; try done.
    intros [= <-]. simpl. rewrite (int_add_sub _ _ _ Hcit E).
    rewrite decide_False by (intros H'; by apply H').
    split_and!; try done. unfold int_add in E. case_decide; [|done].
    injection E as <-. unfold int_sub.
    rewrite decide_True by (unfold INT_MIN, INT_MAX in *; lia).
    f_equal. lia.
  - intros it'. destruct (int_sub ci 1) as [b| | |] eqn:E; try done.
    intros [= <-]. simpl. by rewrite (int_sub_add _ _ _ Hcit E).
Qed.

Lemma increment_decrement_witness :
  iterator.pre_decr (iterator.mk 300 3) = Ok (iterator.mk 300 2)
  ∧ iterator.post_incr (iterator.mk 300 2)
    = Ok (iterator.mk 300 2, iterator.mk 300 3).
Proof.
  destruct (proj1 (increment_decrement (iterator.mk 300 2)
                     (const_iterator.mk 300 2) ltac:(done) ltac:(done))
              (iterator.mk 300 3) eq_refl) as (H1 & H2 & _).
  split; [exact H1|exact H2].
Defined.


(** ** The size of a queue, and a failed allocation in the vector *)

Section size_facts.

Context {T : Type} (Compare : T → T → option bool).
Implicit Types (w : world T) (t : shape (T:=T)).

Lemma length_elems t : length (elems t) = tsize t.
Proof.
  unfold tsize. induction t as [|a v l IHl r IHr]; [done|]. simpl.
  by rewrite !length_app, IHl, IHr.
Qed.

(** X29 — [size()] counts the elements: in every state reached by calls
    that all return, [size()] of a queue is the number of elements of its
    tree, which fits in [size_t], and [empty()] is true exactly when the
    tree has no element. *)
Theorem size_counts_elements w q t :
  reachable Compare w → queue_shape w q t →
  pq_size q w = (Ok (Z.of_nat (length (elems t))), w)
  ∧ pq_empty q w = (Ok (bool_decide (elems t = [])), w)
  ∧ Z.of_nat (length (elems t)) ≤ SIZE_MAX.
Proof.
  intros Hr Hq. destruct (reachable_wf Compare w Hr) as [[sh Hown] Hbound].
  apply (owned_by_shape _ _ _ _ Hown) in Hq.
  pose proof Hown as (_ & Hsh & _).
  destruct (Hsh _ _ Hq) as (pq & Hpq & Hroot & Hrep & Hnd & Hsize).
  rewrite length_elems. split_and!.
  - by rewrite (pq_size_ok _ _ _ Hpq), Hsize.
  - rewrite (pq_empty_ok _ _ _ Hpq), Hsize. do 2 f_equal.
    apply bool_decide_ext. destruct t; simpl; [done|].
    unfold tsize. simpl. split; [lia|done].
  - pose proof (tsize_le_size _ _ Hrep Hnd). lia.
Qed.

End size_facts.

Lemma size_counts_elements_witness :
  pq_size 1 two_queues = (Ok 3, two_queues)
  ∧ pq_empty 1 two_queues = (Ok false, two_queues).
Proof.
  destruct (size_counts_elements less_throwing two_queues 1 _
              two_queues_reachable two_queues_shape_1) as (H1 & H2 & _).
  split; [exact H1|exact H2].
Defined.

Section allocation_failure.

Context {T : Type}.
Variable moved : T → T.
Implicit Types (v : vector.t T) (xs : list T).

(** X30 — The result of [malloc] is not checked: when a full vector has to
    grow and [malloc] returns null, [push_back] and [insert] run into
    undefined behaviour, whatever the value refers to. *)
Theorem malloc_failure_undefined v xs (value : cref T) ind :
  vector.holds v xs → vector.size v = vector.capacity v →
  0 ≤ ind ≤ vector.size v →
  vector.push_back moved v value 0 = UB
  ∧ vector.insert moved v (Index ind) value 0 = UB.
Proof.
  unfold vector.size, vector.capacity. intros Hv Hf Hind.
  destruct (grow_null moved v xs Hv Hf) as [Hg|[Hz Hg]].
  - unfold vector.push_back, vector.insert. cbn [vector.read_index obind].
    rewrite decide_False by lia. by rewrite Hg.
  - unfold vector.push_back, vector.insert. cbn [vector.read_index obind].
    rewrite decide_False by lia.
    rewrite Hg. replace ind with 0 by lia.
    rewrite bool_decide_eq_true_2 by done.
    by destruct value.
Qed.

End allocation_failure.

Lemma ctor_full :
  vector.size (@vector.ctor Z) = vector.capacity (@vector.ctor Z).
Proof. done. Qed.

Lemma ctor_index_0 : 0 ≤ 0 ≤ vector.size (@vector.ctor Z).
Proof. done. Qed.

Lemma malloc_failure_undefined_witness :
  vector.push_back moved_int vector.ctor (Outside 10) 0 = UB
  ∧ vector.insert moved_int vector.ctor (Index 0) (Outside 10) 0 = UB.
Proof.
  exact (malloc_failure_undefined moved_int vector.ctor [] (Outside 10) 0
           ctor_holds ctor_full ctor_index_0).
Defined.
